(** * klvdata.common: the codec primitives of the KLV metadata library

    A shallow embedding of [klvdata/common.py] and the properties of its
    integer, BER, checksum, hex, linear-scaling and timestamp codecs.

    Python values are embedded as follows: [int] is [Z] (arbitrary
    precision), [bytes] is [list byte], [float] is the primitive binary64
    [float], [str] is a list of code points, and a raised exception is the
    [Raise] outcome of [result]. What a function prints is kept as a list
    of messages. A real number stands for the exact value of a float where
    a property bounds a rounding error. *)

From Stdlib Require Import Reals Lra.
From Stdlib Require Import ZArith List Lia Bool ZifyBool Floats.
From Stdlib.Strings Require Import Byte.
From Stdlib.Strings Require Ascii String.
Import String.StringSyntax.
Delimit Scope string_scope with string.
Import ListNotations.
Local Open Scope Z_scope.

(** ** Outcomes: a returned value or a raised exception *)

Inductive exn : Type :=
| ValueError
| OverflowError
| ZeroDivisionError
| IndexError
| TypeError
| AttributeError
| StructError
| OSError.

Inductive result (A : Type) : Type :=
| Ret (a : A)
| Raise (e : exn).
Arguments Ret {A} a.
Arguments Raise {A} e.

Definition bind {A B : Type} (m : result A) (k : A -> result B) : result B :=
  match m with
  | Ret a => k a
  | Raise e => Raise e
  end.

Notation "x <- m ;; k" := (bind m (fun x => k))
  (at level 61, m at next level, right associativity).

(** ** Bytes *)

Definition byte_to_Z (b : byte) : Z := Z.of_N (Byte.to_N b).

Definition byte_of_Z (z : Z) : byte :=
  match Byte.of_N (Z.to_N z) with
  | Some b => b
  | None => x00
  end.

Definition len {A : Type} (l : list A) : Z := Z.of_nat (length l).

(** [value[i]] on a sequence: a negative index counts from the end, an
    index out of range raises [IndexError]. *)
Definition getitem {A : Type} (l : list A) (i : Z) : result A :=
  let j := if i <? 0 then i + len l else i in
  if (j <? 0) || (len l <=? j) then Raise IndexError
  else match nth_error l (Z.to_nat j) with
       | Some a => Ret a
       | None => Raise IndexError
       end.

(** Python's slice bound: negative bounds count from the end and every
    bound is clamped to the sequence. *)
Definition slice_bound (n i : Z) : Z :=
  let j := if i <? 0 then i + n else i in
  Z.max 0 (Z.min n j).

(** [value[start:stop]] *)
Definition slice {A : Type} (l : list A) (start stop : Z) : list A :=
  let a := slice_bound (len l) start in
  let b := slice_bound (len l) stop in
  firstn (Z.to_nat (b - a)) (skipn (Z.to_nat a) l).

(** [value[start:]] *)
Definition slice_from {A : Type} (l : list A) (start : Z) : list A :=
  skipn (Z.to_nat (slice_bound (len l) start)) l.

(** ** Integers and bytes *)

(** The big-endian unsigned value of a byte string. *)
Definition be_value (bs : list byte) : Z :=
  fold_left (fun acc b => acc * 256 + byte_to_Z b) bs 0.

(** [int.from_bytes(bs, byteorder='big', signed=signed)] *)
Definition int_from_bytes (bs : list byte) (signed : bool) : Z :=
  let u := be_value bs in
  if signed && (256 ^ len bs <=? 2 * u) then u - 256 ^ len bs else u.

(** The [n] low-order bytes of [v], most significant first. *)
Fixpoint be_bytes (n : nat) (v : Z) : list byte :=
  match n with
  | O => []
  | S k => be_bytes k (v / 256) ++ [byte_of_Z (v mod 256)]
  end.

(** [v.to_bytes(length, byteorder='big', signed=signed)]. In the signed
    conversion CPython writes the bits of the two's complement and then
    checks the sign bit of the most significant byte written: with
    [length = 0] no byte is written and nothing is checked, so [-1], which
    is sign bits only, converts to the empty string as [0] does. *)
Definition int_to_bytes_method (v length : Z) (signed : bool) : result (list byte) :=
  if length <? 0 then Raise ValueError
  else if signed then
    if (- 256 ^ length <=? 2 * v) && (2 * v <? 256 ^ length)
       || (length =? 0) && (v =? -1)
    then Ret (be_bytes (Z.to_nat length) (v mod 256 ^ length))
    else Raise OverflowError
  else
    if (0 <=? v) && (v <? 256 ^ length)
    then Ret (be_bytes (Z.to_nat length) v)
    else Raise OverflowError.

(** [int.bit_length()] *)
Definition bit_length (v : Z) : Z :=
  if v =? 0 then 0 else Z.log2 (Z.abs v) + 1.

(** [bytes_to_int(value, signed=False)] *)
Definition bytes_to_int (value : list byte) (signed : bool) : Z :=
  int_from_bytes value signed.

(** [int_to_bytes(value, length=1, signed=False)] *)
Definition int_to_bytes (value length : Z) (signed : bool) : result (list byte) :=
  int_to_bytes_method value length signed.

(** ** BER length codec *)

(** [ber_decode(value)] *)
Definition ber_decode (value : list byte) : result Z :=
  if bytes_to_int value false <? 128 then
    if 1 <? len value then Raise ValueError
    else Ret (bytes_to_int value false)
  else
    b0 <- getitem value 0 ;;
    if negb (len value =? byte_to_Z b0 - 127) then Raise ValueError
    else Ret (bytes_to_int (slice_from value 1) false).

(** [ber_encode(value)] *)
Definition ber_encode (value : Z) : result (list byte) :=
  if value <? 128 then int_to_bytes value 1 false
  else
    let byte_length := (bit_length value - 1) / 8 + 1 in
    marker <- int_to_bytes (byte_length + 128) 1 false ;;
    payload <- int_to_bytes value byte_length false ;;
    Ret (marker ++ payload).

(** ** Packet checksum *)

(** [struct.unpack(">{count}H", buf)]: a negative count is not a format,
    and the buffer must hold exactly [count] words. *)
Fixpoint be_words (buf : list byte) : list Z :=
  match buf with
  | hi :: lo :: rest => (byte_to_Z hi * 256 + byte_to_Z lo) :: be_words rest
  | _ => []
  end.

Definition unpack_H (count : Z) (buf : list byte) : result (list Z) :=
  if count <? 0 then Raise StructError
  else if negb (len buf =? 2 * count) then Raise StructError
  else Ret (be_words buf).

(** [struct.pack(">H", v)] *)
Definition pack_H (v : Z) : result (list byte) :=
  if (0 <=? v) && (v <=? 65535)
  then Ret [byte_of_Z (v / 256); byte_of_Z (v mod 256)]
  else Raise StructError.

(** [sum(xs)] *)
Definition sum (xs : list Z) : Z := fold_left Z.add xs 0.

(** [packet_checksum(data)] *)
Definition packet_checksum (data : list byte) : result (list byte) :=
  let length := len data - 2 in
  let word_size := length / 2 in
  let mod_ := length mod 2 in
  ws <- unpack_H word_size (slice data 0 (length - mod_)) ;;
  let words := sum ws in
  words <- (if negb (mod_ =? 0)
            then b <- getitem data (length - 1) ;; Ret (words + Z.shiftl (byte_to_Z b) 8)
            else Ret words) ;;
  pack_H (Z.land words 65535).


(** ** Strings and hexadecimal text *)

(** A Python [str] is a sequence of Unicode code points. *)
Definition char : Type := N.
Definition str : Type := list char.

(** A string literal, for the examples. *)
Definition str_of (s : String.string) : str :=
  map Ascii.N_of_ascii (String.list_ascii_of_string s).
Arguments str_of s%_string.

Definition in_range (lo hi c : N) : bool := ((lo <=? c) && (c <=? hi))%N.

Definition is_ascii (c : char) : bool := (c <? 128)%N.

Section Unicode.

(** [str.isalnum] beyond ASCII is decided by the Unicode character
    database, which is taken as given; on ASCII it accepts the digits
    and the letters. *)
Variable unicode_isalnum : char -> bool.

Definition isalnum (c : char) : bool :=
  if is_ascii c
  then in_range 48 57 c || in_range 65 90 c || in_range 97 122 c
  else unicode_isalnum c.

(** C's [Py_ISSPACE]: space, tab, line feed, vertical tab, form feed,
    carriage return. *)
Definition is_space (c : char) : bool := in_range 9 13 c || (c =? 32)%N.

(** CPython's digit table [_PyLong_DigitValue]: the value of a digit or
    letter in base 36, and 37 for any other character. *)
Definition digit_value (c : char) : Z :=
  if in_range 48 57 c then Z.of_N c - 48
  else if in_range 97 122 c then Z.of_N c - 97 + 10
  else if in_range 65 90 c then Z.of_N c - 65 + 10
  else 37.

(** The loop of [bytes.fromhex] over an ASCII string: white space is
    skipped before a pair of digits, never inside one; [top] holds the
    first digit of a pair that is being read. *)
Fixpoint fromhex_loop (top : option Z) (s : str) : result (list byte) :=
  match s with
  | [] =>
      match top with
      | None => Ret []
      | Some _ => Raise ValueError
      end
  | c :: rest =>
      match top with
      | None =>
          if is_space c then fromhex_loop None rest
          else if 16 <=? digit_value c then Raise ValueError
               else fromhex_loop (Some (digit_value c)) rest
      | Some t =>
          if 16 <=? digit_value c then Raise ValueError
          else bs <- fromhex_loop None rest ;;
               Ret (byte_of_Z (Z.shiftl t 4 + digit_value c) :: bs)
      end
  end.

(** [bytes.fromhex(s)] *)
Definition bytes_fromhex (s : str) : result (list byte) :=
  if forallb is_ascii s then fromhex_loop None s else Raise ValueError.

(** [hexstr_to_bytes(value)] *)
Definition hexstr_to_bytes (value : str) : result (list byte) :=
  bytes_fromhex (filter isalnum value).

(** An upper-case hexadecimal digit. *)
Definition hex_upper (d : Z) : char :=
  if d <? 10 then Z.to_N (48 + d) else Z.to_N (65 + d - 10).

(** ["{:02X}".format(byte)] *)
Definition format_02X (b : byte) : str :=
  [hex_upper (byte_to_Z b / 16); hex_upper (byte_to_Z b mod 16)].

(** [sep.join(parts)] *)
Fixpoint join (sep : str) (parts : list str) : str :=
  match parts with
  | [] => []
  | [p] => p
  | p :: more => p ++ sep ++ join sep more
  end.

(** [bytes_to_hexstr(value, start='', sep=' ')] *)
Definition bytes_to_hexstr (value : list byte) (start sep : str) : str :=
  start ++ join sep (map format_02X value).

End Unicode.

(** ** Numbers: Python's [int] and [float] *)

(** A number is an arbitrary-precision integer or a binary64 float. *)
Inductive num : Type :=
| Int (z : Z)
| Float (f : float).

(** A float that an operation may return: overflow to an infinity is
    [OverflowError] in the conversions and divisions that check for it. *)
Definition checked (f : float) : result float :=
  if is_finite f then Ret f else Raise OverflowError.

(** [float(z)]: the nearest double, ties to even; [OverflowError] when
    the integer is too large. *)
Definition float_of_int (z : Z) : result float :=
  checked (SF2Prim (binary_normalize prec emax z 0 false)).

(** [a / b] on two integers: the quotient correctly rounded to a double. *)
Definition int_truediv (a b : Z) : result float :=
  if b =? 0 then Raise ZeroDivisionError
  else if a =? 0 then Ret (if b <? 0 then neg_zero else zero)
  else
    checked (SF2Prim (SFdiv prec emax
                        (S754_finite (a <? 0) (Z.to_pos (Z.abs a)) 0)
                        (S754_finite (b <? 0) (Z.to_pos (Z.abs b)) 0))).

(** The operands of a mixed operation are converted to floats. *)
Definition as_float (a : num) : result float :=
  match a with
  | Int z => float_of_int z
  | Float f => Ret f
  end.

Definition num_sub (a b : num) : result num :=
  match a, b with
  | Int x, Int y => Ret (Int (x - y))
  | _, _ => x <- as_float a ;; y <- as_float b ;; Ret (Float (x - y)%float)
  end.

Definition num_add (a b : num) : result num :=
  match a, b with
  | Int x, Int y => Ret (Int (x + y))
  | _, _ => x <- as_float a ;; y <- as_float b ;; Ret (Float (x + y)%float)
  end.

Definition num_mul (a b : num) : result num :=
  match a, b with
  | Int x, Int y => Ret (Int (x * y))
  | _, _ => x <- as_float a ;; y <- as_float b ;; Ret (Float (x * y)%float)
  end.

(** [a / b]: true division always yields a float. *)
Definition num_truediv (a b : num) : result num :=
  match a, b with
  | Int x, Int y => q <- int_truediv x y ;; Ret (Float q)
  | _, _ =>
      x <- as_float a ;;
      y <- as_float b ;;
      if is_zero y then Raise ZeroDivisionError else Ret (Float (x / y)%float)
  end.

(** An integer against a float, compared exactly. *)
Definition compare_int_float (z : Z) (f : float) : option comparison :=
  match Prim2SF f with
  | S754_nan => None
  | S754_infinity s => Some (if s then Gt else Lt)
  | S754_zero _ => Some (z ?= 0)
  | S754_finite s m e =>
      let v := cond_Zopp s (Zpos m) in
      Some (if 0 <=? e then z ?= v * 2 ^ e else z * 2 ^ (- e) ?= v)
  end.

(** The order of two numbers; a NaN is not comparable to anything. *)
Definition num_compare (a b : num) : option comparison :=
  match a, b with
  | Int x, Int y => Some (x ?= y)
  | Int x, Float g => compare_int_float x g
  | Float f, Int y => option_map CompOpp (compare_int_float y f)
  | Float f, Float g =>
      match (f ?= g)%float with
      | FEq => Some Eq
      | FLt => Some Lt
      | FGt => Some Gt
      | FNotComparable => None
      end
  end.

(** [a < b], [a > b], [a <= b], [a == b] *)
Definition num_lt (a b : num) : bool :=
  match num_compare a b with Some Lt => true | _ => false end.
Definition num_gt (a b : num) : bool :=
  match num_compare a b with Some Gt => true | _ => false end.
Definition num_le (a b : num) : bool :=
  match num_compare a b with Some (Lt | Eq) => true | _ => false end.
Definition num_eq (a b : num) : bool :=
  match num_compare a b with Some Eq => true | _ => false end.

(** The integer nearest to [m * 2^e] for [e < 0], ties to even. *)
Definition round_half_even (m e : Z) : Z :=
  let d := 2 ^ (- e) in
  let q := m / d in
  match 2 * (m mod d) ?= d with
  | Lt => q
  | Gt => q + 1
  | Eq => if Z.even q then q else q + 1
  end.

(** [round(x)] without a number of digits: an integer, ties to even. *)
Definition float_round (f : float) : result Z :=
  match Prim2SF f with
  | S754_nan => Raise ValueError
  | S754_infinity _ => Raise OverflowError
  | S754_zero _ => Ret 0
  | S754_finite s m e =>
      Ret (cond_Zopp s (if 0 <=? e then Zpos m * 2 ^ e else round_half_even (Zpos m) e))
  end.

(** [int(x)] on a float: truncation towards zero. *)
Definition float_trunc (f : float) : result Z :=
  match Prim2SF f with
  | S754_nan => Raise ValueError
  | S754_infinity _ => Raise OverflowError
  | S754_zero _ => Ret 0
  | S754_finite s m e =>
      Ret (cond_Zopp s (if 0 <=? e then Zpos m * 2 ^ e else Zpos m / 2 ^ (- e)))
  end.

(** [round(x)] on what [linear_map] returns; [None] has no [__round__]. *)
Definition py_round (x : option num) : result Z :=
  match x with
  | None => Raise TypeError
  | Some (Int z) => Ret z
  | Some (Float f) => float_round f
  end.

(** ** Standard output *)

(** The lines that the module prints, by their format string; the
    numbers they show are kept as values. *)
Inductive message : Type :=
| ValueOutOfRange (v lo hi : num)
    (* "Value {v} out of range ({lo}, {hi})" *)
| DestinationOutOfRange (v lo hi : num)
    (* "Destination value {v} out of range ({lo}, {hi})" *)
| OriginalFloat (v : num)
    (* "Original float: {v}" *)
| MappedInt (v : option num) (b : list byte).
    (* "Mapped int: {v}, Byte representation: {b}" *)

(** A computation that prints: the lines printed, in order, and then
    the value returned or the exception raised. *)
Definition io (A : Type) : Type := list message * result A.

Definition io_ret {A : Type} (a : A) : io A := ([], Ret a).

Definition io_bind {A B : Type} (m : io A) (k : A -> io B) : io B :=
  match m with
  | (out, Ret a) => let (out', r) := k a in (out ++ out', r)
  | (out, Raise e) => (out, Raise e)
  end.

Definition print (m : message) : io unit := ([m], Ret tt).

Definition pure {A : Type} (r : result A) : io A := ([], r).

Notation "x <~ m ;; k" := (io_bind m (fun x => k))
  (at level 61, m at next level, right associativity).
Notation "m ;;; k" := (io_bind m (fun _ => k))
  (at level 61, right associativity).

(** What a printing computation returns or raises. *)
Definition outcome {A : Type} (m : io A) : result A := snd m.

(** ** Linear scaling codec *)

(** [linear_map(src_value, src_domain, dst_range)] *)
Definition linear_map (src_value : num) (src_domain dst_range : num * num)
  : io (option num) :=
  let '(src_min, src_max) := src_domain in
  let '(dst_min, dst_max) := dst_range in
  if num_lt src_value src_min || num_gt src_value src_max then io_ret None
  else
    (if negb (num_le src_min src_value && num_le src_value src_max)
     then print (ValueOutOfRange src_value src_min src_max)
     else io_ret tt) ;;;
    slope <~ pure (rise <- num_sub dst_max dst_min ;;
                   run <- num_sub src_max src_min ;;
                   num_truediv rise run) ;;
    dst_value <~ pure (offset <- num_sub src_value src_min ;;
                       scaled <- num_mul slope offset ;;
                       num_add scaled dst_min) ;;
    (if negb (num_le dst_min dst_value && num_le dst_value dst_max)
     then print (DestinationOutOfRange dst_value dst_min dst_max)
     else io_ret tt) ;;;
    io_ret (Some dst_value).

(** [min(pair)] *)
Definition num_min (p : num * num) : num :=
  let '(a, b) := p in if num_lt b a then b else a.

(** [bytes_to_float(value, _domain, _range)] *)
Definition bytes_to_float (value : list byte) (_domain _range : num * num)
  : io (option num) :=
  let src_value := int_from_bytes value (num_lt (num_min _domain) (Int 0)) in
  linear_map (Int src_value) _domain _range.

(** [x.bit_length()] exists on integers only. *)
Definition num_bit_length (x : num) : result Z :=
  match x with
  | Int z => Ret (bit_length z)
  | Float _ => Raise AttributeError
  end.

(** [float_to_bytes(value, _domain, _range)] *)
Definition float_to_bytes (value : num) (_domain _range : num * num)
  : io (list byte) :=
  print (OriginalFloat value) ;;;
  let src_domain := _range in
  let dst_range := _domain in
  let '(src_min, src_max) := src_domain in
  let '(dst_min, dst_max) := dst_range in
  length <~ pure (bits <- num_bit_length dst_max ;; Ret ((bits + 7) / 8)) ;;
  dst_value <~ linear_map value src_domain dst_range ;;
  byte_result <~ pure (rounded <- py_round dst_value ;;
                       int_to_bytes_method rounded length (num_lt dst_min (Int 0))) ;;
  print (MappedInt dst_value byte_result) ;;;
  io_ret byte_result.

(** ** Timestamp codec *)

(** An aware [datetime] in UTC is its number of microseconds since
    1970-01-01T00:00:00Z; [datetime.min] and [datetime.max] bound it. *)
Definition datetime : Type := Z.
Definition datetime_min : datetime := -62135596800000000.
Definition datetime_max : datetime := 253402300799999999.
Definition is_datetime (t : datetime) : Prop := datetime_min <= t <= datetime_max.

Definition e6 : float := 1000000%float.

(** [value.timestamp()]: the time since the epoch as seconds,
    [(value - epoch) / timedelta(seconds=1)]. *)
Definition timestamp (value : datetime) : result float :=
  int_truediv value 1000000.

(** [struct.pack(">Q", v)] *)
Definition pack_Q (v : Z) : result (list byte) :=
  if (0 <=? v) && (v <? 2 ^ 64) then Ret (be_bytes 8 v) else Raise StructError.

(** [datetime_to_bytes(value)] *)
Definition datetime_to_bytes (value : datetime) : result (list byte) :=
  seconds <- timestamp value ;;
  micros <- float_trunc (seconds * e6)%float ;;
  pack_Q micros.

(** [datetime.fromtimestamp(x, tz=timezone.utc)]: the whole seconds and
    the fraction of [x] are split, the fraction is rounded to a number of
    microseconds, ties to even, and carried into the seconds; the result
    must be a date between [datetime.min] and [datetime.max]. Out of that
    range the exception is the first of three: [OverflowError] when the
    seconds do not fit the 64-bit [time_t], [OSError] when [gmtime] cannot
    hold the year in an [int] (glibc's limits are the two constants), and
    [ValueError] for a year outside 1 to 9999. *)
Definition fromtimestamp (x : float) : result datetime :=
  whole <- float_trunc x ;;
  let frac := (x - SF2Prim (binary_normalize prec emax whole 0 false))%float in
  us <- float_round (frac * e6)%float ;;
  let '(sec, us) :=
    if 1000000 <=? us then (whole + 1, us - 1000000)
    else if us <? 0 then (whole - 1, us + 1000000)
    else (whole, us) in
  let t := sec * 1000000 + us in
  if (datetime_min <=? t) && (t <=? datetime_max) then Ret t
  else if (sec <? - 2 ^ 63) || (2 ^ 63 <=? sec) then Raise OverflowError
  else if (sec <? -67768040609740800) || (67767976233532799 <? sec)
       then Raise OSError
  else Raise ValueError.

(** [bytes_to_datetime(value)] *)
Definition bytes_to_datetime (value : list byte) : result datetime :=
  seconds <- num_truediv (Int (bytes_to_int value false)) (Float e6) ;;
  match seconds with
  | Float x => fromtimestamp x
  | Int _ => Raise TypeError
  end.

(** ** UTF-8 text *)

(** The two errors of the UTF-8 codec; both are kinds of [ValueError]. *)
Inductive unicode_error : Type :=
| UnicodeEncodeError
| UnicodeDecodeError.

(** A value, or the error raised instead of it. *)
Definition coded (A : Type) : Type := (A + unicode_error)%type.

Definition prepend {A : Type} (a : A) (r : coded (list A)) : coded (list A) :=
  match r with
  | inl l => inl (a :: l)
  | inr e => inr e
  end.

(** The UTF-8 bytes of one code point; a surrogate has none, and a Python
    [str] holds no code point above [0x10FFFF]. *)
Definition utf8_char (c : char) : option (list byte) :=
  let z := Z.of_N c in
  if z <? 128 then Some [byte_of_Z z]
  else if z <? 2048 then
    Some [byte_of_Z (192 + z / 64); byte_of_Z (128 + z mod 64)]
  else if z <? 65536 then
    if (55296 <=? z) && (z <=? 57343) then None
    else Some [byte_of_Z (224 + z / 4096); byte_of_Z (128 + (z / 64) mod 64);
               byte_of_Z (128 + z mod 64)]
  else if z <? 1114112 then
    Some [byte_of_Z (240 + z / 262144); byte_of_Z (128 + (z / 4096) mod 64);
          byte_of_Z (128 + (z / 64) mod 64); byte_of_Z (128 + z mod 64)]
  else None.

(** [s.encode('UTF-8')] with strict error handling *)
Fixpoint utf8_encode (s : str) : coded (list byte) :=
  match s with
  | [] => inl []
  | c :: rest =>
      match utf8_char c with
      | None => inr UnicodeEncodeError
      | Some bs =>
          match utf8_encode rest with
          | inl t => inl (bs ++ t)
          | inr e => inr e
          end
      end
  end.

(** A continuation byte, [80] to [BF]. *)
Definition continuation (b : byte) : bool :=
  (128 <=? byte_to_Z b) && (byte_to_Z b <=? 191).

(** The second byte of a three-byte sequence: [E0] excludes the overlong
    forms and [ED] the surrogates. *)
Definition second_of_three (lead : Z) (b : byte) : bool :=
  let z := byte_to_Z b in
  if lead =? 224 then (160 <=? z) && (z <=? 191)
  else if lead =? 237 then (128 <=? z) && (z <=? 159)
  else continuation b.

(** The second byte of a four-byte sequence: [F0] excludes the overlong
    forms and [F4] the code points above [0x10FFFF]. *)
Definition second_of_four (lead : Z) (b : byte) : bool :=
  let z := byte_to_Z b in
  if lead =? 240 then (144 <=? z) && (z <=? 191)
  else if lead =? 244 then (128 <=? z) && (z <=? 143)
  else continuation b.

(** [b.decode('UTF-8')] with strict error handling: only well-formed
    sequences are read. *)
Fixpoint utf8_decode (bs : list byte) : coded str :=
  match bs with
  | [] => inl []
  | b0 :: r0 =>
      let z0 := byte_to_Z b0 in
      if z0 <? 128 then prepend (Z.to_N z0) (utf8_decode r0)
      else if (194 <=? z0) && (z0 <=? 223) then
        match r0 with
        | b1 :: r1 =>
            if continuation b1
            then prepend (Z.to_N ((z0 - 192) * 64 + (byte_to_Z b1 - 128)))
                         (utf8_decode r1)
            else inr UnicodeDecodeError
        | _ => inr UnicodeDecodeError
        end
      else if (224 <=? z0) && (z0 <=? 239) then
        match r0 with
        | b1 :: b2 :: r2 =>
            if second_of_three z0 b1 && continuation b2
            then prepend (Z.to_N ((z0 - 224) * 4096 + (byte_to_Z b1 - 128) * 64
                                  + (byte_to_Z b2 - 128)))
                         (utf8_decode r2)
            else inr UnicodeDecodeError
        | _ => inr UnicodeDecodeError
        end
      else if (240 <=? z0) && (z0 <=? 244) then
        match r0 with
        | b1 :: b2 :: b3 :: r3 =>
            if second_of_four z0 b1 && continuation b2 && continuation b3
            then prepend (Z.to_N ((z0 - 240) * 262144 + (byte_to_Z b1 - 128) * 4096
                                  + (byte_to_Z b2 - 128) * 64 + (byte_to_Z b3 - 128)))
                         (utf8_decode r3)
            else inr UnicodeDecodeError
        | _ => inr UnicodeDecodeError
        end
      else inr UnicodeDecodeError
  end.

(** [bytes_to_str(value)] *)
Definition bytes_to_str (value : list byte) : coded str := utf8_decode value.

(** [str_to_bytes(value)], for a [value] that is a [str] *)
Definition str_to_bytes (value : str) : coded (list byte) := utf8_encode value.

(** ** Vocabulary of the specification *)

(** The ceiling of [a / b] for a positive [b], as the specification
    writes the width of the long form. *)
Definition ceil_div (a b : Z) : Z := - ((- a) / b).

(** The 16-bit words of a checksummed payload as the specification reads
    them: consecutive byte pairs, most significant byte first, and an odd
    trailing byte shifted into the high byte of a final word. *)
Fixpoint payload_words (payload : list byte) : list Z :=
  match payload with
  | hi :: lo :: rest => (byte_to_Z hi * 256 + byte_to_Z lo) :: payload_words rest
  | [b] => [byte_to_Z b * 256]
  | [] => []
  end.

(** The sum of those words modulo [2^16]. *)
Definition checksum_spec (payload : list byte) : Z :=
  fold_right Z.add 0 (payload_words payload) mod 2 ^ 16.

(** A 16-bit value as two bytes, most significant first. *)
Definition be16 (s : Z) : list byte := [byte_of_Z (s / 256); byte_of_Z (s mod 256)].

(** Lists of even length, built two elements at a time. *)
Inductive even_length {A : Type} : list A -> Prop :=
| even_nil : even_length []
| even_cons2 (a b : A) (l : list A) : even_length l -> even_length (a :: b :: l).

(** A hexadecimal digit: [0-9], [a-f] or [A-F]. *)
Definition is_hex_digit (c : char) : bool :=
  in_range 48 57 c || in_range 97 102 c || in_range 65 70 c.

(** The value of a hexadecimal digit. *)
Definition hex_value (c : char) : Z :=
  if in_range 48 57 c then Z.of_N c - 48
  else if in_range 97 102 c then Z.of_N c - 87
  else Z.of_N c - 55.

(** A string of hexadecimal digits read pair by pair; no result when a
    character is not a hexadecimal digit or a digit is left over. *)
Fixpoint hex_pairs (s : str) : option (list byte) :=
  match s with
  | [] => Some []
  | hi :: lo :: rest =>
      if is_hex_digit hi && is_hex_digit lo
      then option_map (cons (byte_of_Z (16 * hex_value hi + hex_value lo)))
                      (hex_pairs rest)
      else None
  | [_] => None
  end.

(** A number that is neither a NaN nor an infinity. *)
Definition num_finite (a : num) : bool :=
  match a with
  | Int _ => true
  | Float f => is_finite f
  end.

(** The slope of the linear map as the code computes it. *)
Definition slope_of (src_domain dst_range : num * num) : result num :=
  rise <- num_sub (snd dst_range) (fst dst_range) ;;
  run <- num_sub (snd src_domain) (fst src_domain) ;;
  num_truediv rise run.

(** An integer that [w] bytes can hold, in two's complement when
    [signed]. *)
Definition fits (n w : Z) (signed : bool) : Prop :=
  if signed then - 256 ^ w <= 2 * n < 256 ^ w else 0 <= n < 256 ^ w.

(** A number equal to zero: the integer 0 or one of the two float zeros. *)
Definition num_is_zero (a : num) : bool :=
  match a with
  | Int z => z =? 0
  | Float f => is_zero f
  end.

(** The microseconds since the epoch as [datetime_to_bytes] computes
    them: the float time stamp in seconds, scaled and truncated. *)
Definition float_micros (t : datetime) : result Z :=
  seconds <- timestamp t ;;
  float_trunc (seconds * e6)%float.

(** A surrogate code point, which UTF-8 does not encode. *)
Definition is_surrogate (c : char) : bool := in_range 55296 57343 c.

(** A code point that a Python [str] can hold. *)
Definition is_code_point (c : char) : bool := (c <? 1114112)%N.

(** ** The exact value of a float *)

(** The real number that a finite float stands for; the zeros stand for
    0, and so do, for want of a number, the infinities and NaN. *)
Definition SF2R (x : spec_float) : R :=
  match x with
  | S754_finite s m e => (IZR (cond_Zopp s (Zpos m)) * powerRZ 2 e)%R
  | _ => 0%R
  end.

Definition float_value (f : float) : R := SF2R (Prim2SF f).

(** A shift record locates the ratio [N / U] when its mantissa is the
    integer part of the ratio, its round bit tells whether the rest
    reaches one half, and its sticky bit whether anything is left beyond
    the mantissa and the round bit. *)
Definition locates (N U : Z) (r : shr_record) : Prop :=
  shr_m r * U <= N < (shr_m r + 1) * U /\
  (shr_r r = true <-> (2 * shr_m r + 1) * U <= 2 * N) /\
  (shr_s r = true <->
   2 * N <> (2 * shr_m r + (if shr_r r then 1 else 0)) * U).

(** An integer nearest to the ratio [N / U], the even one of two. *)
Definition nearest_even (N U n : Z) : Prop :=
  2 * Z.abs (n * U - N) <= U /\
  (2 * Z.abs (n * U - N) = U -> Z.even n = true).

(** A zero, or a finite float below [2^M] in absolute value. *)
Definition below (M : Z) (x : spec_float) : Prop :=
  match x with
  | S754_zero _ => True
  | S754_finite _ m e => Zpos (digits2_pos m) + e <= M
  | _ => False
  end.

(** A zero, or a normal float with an exponent of at least [L] and a
    magnitude of at most [2^M]. *)
Definition regular (L M : Z) (x : spec_float) : Prop :=
  match x with
  | S754_zero _ => True
  | S754_finite _ m e => 2 ^ 52 <= Zpos m < 2 ^ 53 /\ L <= e /\ e + 53 <= M
  | _ => False
  end.

(** * Properties *)

(** ** Bytes and big-endian integers *)

Lemma byte_to_Z_range (b : byte) : 0 <= byte_to_Z b < 256.
Proof.
  unfold byte_to_Z. pose proof (Byte.to_N_bounded b). lia.
Qed.

Lemma byte_of_to_Z (b : byte) : byte_of_Z (byte_to_Z b) = b.
Proof.
  unfold byte_of_Z, byte_to_Z. now rewrite N2Z.id, Byte.of_to_N.
Qed.

Lemma byte_to_of_Z (z : Z) : 0 <= z < 256 -> byte_to_Z (byte_of_Z z) = z.
Proof.
  intros Hz. unfold byte_of_Z, byte_to_Z.
  destruct (Byte.of_N (Z.to_N z)) as [b|] eqn:E.
  - apply Byte.to_of_N in E. rewrite E. lia.
  - apply Byte.of_N_None_iff in E. lia.
Qed.

Lemma byte_of_Z_zero (z : Z) : 0 <= z < 256 -> byte_of_Z z = x00 -> z = 0.
Proof.
  intros Hz E. rewrite <- (byte_to_of_Z z Hz), E. reflexivity.
Qed.

Lemma len_nonneg {A} (l : list A) : 0 <= len l.
Proof. unfold len. lia. Qed.

Lemma len_app {A} (l1 l2 : list A) : len (l1 ++ l2) = len l1 + len l2.
Proof. unfold len. rewrite length_app. lia. Qed.

Lemma len_cons {A} (a : A) (l : list A) : len (a :: l) = 1 + len l.
Proof. unfold len. cbn [length]. lia. Qed.

Lemma be_value_snoc (bs : list byte) (b : byte) :
  be_value (bs ++ [b]) = be_value bs * 256 + byte_to_Z b.
Proof. unfold be_value. now rewrite fold_left_app. Qed.

Lemma be_value_range (bs : list byte) : 0 <= be_value bs < 256 ^ len bs.
Proof.
  induction bs as [|b bs IH] using rev_ind.
  - cbn. lia.
  - rewrite be_value_snoc, len_app.
    change (len [b]) with 1.
    rewrite Z.pow_add_r by (pose proof (len_nonneg bs); lia).
    pose proof (byte_to_Z_range b). change (256 ^ 1) with 256. nia.
Qed.

Lemma be_value_app (l1 l2 : list byte) :
  be_value (l1 ++ l2) = be_value l1 * 256 ^ len l2 + be_value l2.
Proof.
  induction l2 as [|b l2 IH] using rev_ind.
  - rewrite app_nil_r. cbn. lia.
  - rewrite app_assoc, !be_value_snoc, IH, len_app.
    change (len [b]) with 1.
    rewrite Z.pow_add_r by (pose proof (len_nonneg l2); lia).
    change (256 ^ 1) with 256. ring.
Qed.

Lemma be_value_cons (b : byte) (bs : list byte) :
  be_value (b :: bs) = byte_to_Z b * 256 ^ len bs + be_value bs.
Proof.
  change (b :: bs) with ([b] ++ bs). rewrite be_value_app.
  f_equal.
Qed.

Lemma be_bytes_length (n : nat) (v : Z) : length (be_bytes n v) = n.
Proof.
  revert v. induction n as [|n IH]; intros v; cbn [be_bytes].
  - reflexivity.
  - rewrite length_app, IH. cbn. lia.
Qed.

Lemma be_value_be_bytes (n : nat) (v : Z) :
  0 <= v < 256 ^ Z.of_nat n -> be_value (be_bytes n v) = v.
Proof.
  revert v. induction n as [|n IH]; intros v Hv.
  - cbn in *. lia.
  - cbn [be_bytes]. rewrite be_value_snoc.
    rewrite Nat2Z.inj_succ, Z.pow_succ_r in Hv by lia.
    rewrite IH by (split; [apply Z.div_pos | apply Z.div_lt_upper_bound]; lia).
    rewrite byte_to_of_Z by (apply Z.mod_pos_bound; lia).
    pose proof (Z.div_mod v 256). lia.
Qed.

Lemma be_bytes_be_value (bs : list byte) :
  be_bytes (length bs) (be_value bs) = bs.
Proof.
  induction bs as [|b bs IH] using rev_ind.
  - reflexivity.
  - rewrite length_app. cbn [length]. rewrite Nat.add_1_r. cbn [be_bytes].
    rewrite be_value_snoc.
    pose proof (byte_to_Z_range b).
    replace ((be_value bs * 256 + byte_to_Z b) / 256) with (be_value bs)
      by (apply Z.div_unique with (r := byte_to_Z b); lia).
    replace ((be_value bs * 256 + byte_to_Z b) mod 256) with (byte_to_Z b)
      by (apply Z.mod_unique with (q := be_value bs); lia).
    now rewrite IH, byte_of_to_Z.
Qed.

(** The unsigned conversions are inverse to each other at every width. *)
Lemma int_to_bytes_bytes_to_int (b : list byte) :
  int_to_bytes (bytes_to_int b false) (len b) false = Ret b.
Proof.
  unfold int_to_bytes, int_to_bytes_method, bytes_to_int, int_from_bytes.
  cbn [andb].
  pose proof (len_nonneg b). pose proof (be_value_range b).
  destruct (len b <? 0) eqn:E; [lia|].
  replace (0 <=? be_value b) with true by lia.
  replace (be_value b <? 256 ^ len b) with true by lia.
  cbn [andb]. unfold len. rewrite Nat2Z.id. now rewrite be_bytes_be_value.
Qed.

Lemma bytes_to_int_int_to_bytes (v n : Z) (bs : list byte) :
  int_to_bytes v n false = Ret bs ->
  len bs = n /\ bytes_to_int bs false = v /\ 0 <= v < 256 ^ n.
Proof.
  unfold int_to_bytes, int_to_bytes_method, bytes_to_int, int_from_bytes.
  cbn [andb].
  destruct (n <? 0) eqn:En; [discriminate|].
  destruct ((0 <=? v) && (v <? 256 ^ n)) eqn:Ev; [|discriminate].
  intros [= <-]. unfold len. rewrite be_bytes_length.
  rewrite be_value_be_bytes by (rewrite Z2Nat.id; lia). lia.
Qed.

(** C6. For every byte buffer [b] of length 1 through 9,
    [int_to_bytes(bytes_to_int(b), length=len(b)) == b] with the default
    unsigned interpretation in both directions. *)
Theorem int_bytes_roundtrip (b : list byte) :
  1 <= len b <= 9 ->
  int_to_bytes (bytes_to_int b false) (len b) false = Ret b.
Proof.
  intros _. apply int_to_bytes_bytes_to_int.
Qed.

Lemma int_bytes_roundtrip_witness :
  1 <= len [x01; xff; x00] <= 9 /\
  int_to_bytes (bytes_to_int [x01; xff; x00] false) (len [x01; xff; x00]) false
  = Ret [x01; xff; x00].
Proof.
  split; [cbn; lia | apply (int_bytes_roundtrip [x01; xff; x00]); cbn; lia].
Defined.

(** ** BER length codec *)

Lemma bit_length_spec (v : Z) :
  0 < v -> 2 ^ (bit_length v - 1) <= v < 2 ^ bit_length v.
Proof.
  intros Hv. unfold bit_length.
  destruct (v =? 0) eqn:E; [lia|].
  rewrite Z.abs_eq by lia.
  replace (Z.log2 v + 1 - 1) with (Z.log2 v) by lia.
  apply (Z.log2_spec v Hv).
Qed.

Lemma pow256 (n : Z) : 0 <= n -> 256 ^ n = 2 ^ (8 * n).
Proof.
  intros Hn. change 256 with (2 ^ 8). now rewrite <- Z.pow_mul_r by lia.
Qed.

(** The width chosen by the long form is the least one that holds [v]. *)
Lemma long_form_width (v : Z) :
  128 <= v ->
  let w := (bit_length v - 1) / 8 + 1 in
  w = ceil_div (bit_length v) 8 /\ 1 <= w /\ 256 ^ (w - 1) <= v < 256 ^ w.
Proof.
  intros Hv w. subst w.
  pose proof (bit_length_spec v ltac:(lia)) as [Hlo Hhi].
  assert (Hbl : 8 <= bit_length v).
  { destruct (Z.lt_ge_cases (bit_length v) 8) as [Hlt|]; [|lia].
    assert (2 ^ bit_length v <= 2 ^ 7) by (apply Z.pow_le_mono_r; lia).
    change (2 ^ 7) with 128 in *. lia. }
  set (q := (bit_length v - 1) / 8).
  assert (Hq : 8 * q <= bit_length v - 1 < 8 * q + 8).
  { subst q. pose proof (Z.div_mod (bit_length v - 1) 8 ltac:(lia)).
    pose proof (Z.mod_pos_bound (bit_length v - 1) 8 ltac:(lia)). lia. }
  repeat split.
  - unfold ceil_div. symmetry.
    apply Z.opp_inj. rewrite Z.opp_involutive.
    symmetry. apply Z.div_unique with (r := 8 * q + 8 - bit_length v); lia.
  - lia.
  - rewrite pow256 by lia.
    apply Z.le_trans with (2 ^ (bit_length v - 1)); [|lia].
    apply Z.pow_le_mono_r; lia.
  - rewrite pow256 by lia.
    apply Z.lt_le_trans with (2 ^ bit_length v); [lia|].
    apply Z.pow_le_mono_r; lia.
Qed.

Lemma ber_encode_short (v : Z) :
  0 <= v < 128 -> ber_encode v = Ret [byte_of_Z v].
Proof.
  intros Hv. unfold ber_encode, int_to_bytes, int_to_bytes_method.
  replace (v <? 128) with true by lia.
  change (256 ^ 1) with 256.
  replace ((0 <=? v) && (v <? 256)) with true by lia.
  change (1 <? 0) with false. cbv iota.
  change (Z.to_nat 1) with 1%nat. cbn [be_bytes app].
  rewrite Z.mod_small by lia. reflexivity.
Qed.

Lemma ber_encode_long (v : Z) :
  128 <= v < 2 ^ 1016 ->
  let w := (bit_length v - 1) / 8 + 1 in
  ber_encode v = Ret (byte_of_Z (w + 128) :: be_bytes (Z.to_nat w) v) /\ w <= 127.
Proof.
  intros Hv w.
  pose proof (long_form_width v ltac:(lia)) as (_ & Hw1 & Hlo & Hhi).
  fold w in Hw1, Hlo, Hhi.
  assert (Hw : w <= 127).
  { destruct (Z.lt_ge_cases 127 w) as [Hgt|]; [|lia].
    assert (256 ^ 127 <= 256 ^ (w - 1)) by (apply Z.pow_le_mono_r; lia).
    rewrite (pow256 127) in H by lia. change (8 * 127) with 1016 in H. lia. }
  split; [|exact Hw].
  unfold ber_encode. fold w.
  replace (v <? 128) with false by lia.
  unfold int_to_bytes, int_to_bytes_method.
  change (1 <? 0) with false. change (256 ^ 1) with 256. cbv iota.
  replace ((0 <=? w + 128) && (w + 128 <? 256)) with true by lia.
  replace (w <? 0) with false by lia.
  replace ((0 <=? v) && (v <? 256 ^ w)) with true by lia.
  cbn [bind]. change (Z.to_nat 1) with 1%nat. cbn [be_bytes app].
  rewrite Z.mod_small by lia. reflexivity.
Qed.

(** Decoding a non-empty buffer: the first byte alone decides the form
    and the only admissible length. *)
Lemma ber_decode_cons (b0 : byte) (rest : list byte) :
  ber_decode (b0 :: rest) =
  if byte_to_Z b0 <? 128
  then match rest with
       | [] => Ret (byte_to_Z b0)
       | _ :: _ => Raise ValueError
       end
  else if len rest =? byte_to_Z b0 - 128
       then Ret (be_value rest)
       else Raise ValueError.
Proof.
  pose proof (byte_to_Z_range b0) as Hb.
  pose proof (be_value_range rest) as Hr.
  pose proof (len_nonneg rest) as Hn.
  assert (Hp : 1 <= 256 ^ len rest) by (pose proof (Z.pow_pos_nonneg 256 (len rest) ltac:(lia) Hn); lia).
  unfold ber_decode, bytes_to_int, int_from_bytes. cbn [andb].
  rewrite be_value_cons, len_cons.
  unfold getitem. rewrite len_cons. cbn -[Z.pow Z.mul Z.add len be_value].
  replace (1 + len rest <=? 0) with false by lia. cbn [nth_error bind].
  destruct (byte_to_Z b0 <? 128) eqn:Eb.
  - destruct rest as [|b1 rest].
    + cbn. replace (byte_to_Z b0 * 1 + 0) with (byte_to_Z b0) by lia.
      now rewrite Eb.
    + rewrite (len_cons b1 rest) in *. pose proof (len_nonneg rest).
      replace (1 <? 1 + (1 + len rest)) with true by lia.
      replace (1 + (1 + len rest) =? byte_to_Z b0 - 127) with false by lia.
      now destruct (_ + _ <? 128).
  - replace (byte_to_Z b0 * 256 ^ len rest + be_value rest <? 128) with false by nia.
    replace (1 + len rest =? byte_to_Z b0 - 127) with (len rest =? byte_to_Z b0 - 128)
      by lia.
    destruct (len rest =? byte_to_Z b0 - 128); [|reflexivity].
    cbn [negb]. unfold slice_from, slice_bound. rewrite len_cons.
    change (1 <? 0) with false. cbv iota.
    destruct rest as [|b1 rest].
    + reflexivity.
    + rewrite len_cons. pose proof (len_nonneg rest).
      replace (Z.max 0 (Z.min (1 + (1 + len rest)) 1)) with 1 by lia.
      reflexivity.
Qed.

(** C1 (amended). For every integer [v] with [0 <= v < 2^1016],
    [ber_decode(ber_encode(v)) == v], and [ber_encode(v)] is the minimal
    encoding: a single byte of value [v] when [v < 128], otherwise a marker
    byte [128 + w] followed by [w = ceil(bit_length(v)/8)] payload bytes
    whose first byte is not zero, [1 + w] bytes in all. *)
Theorem ber_roundtrip_minimal (v : Z) :
  0 <= v < 2 ^ 1016 ->
  exists bs,
    ber_encode v = Ret bs /\
    ber_decode bs = Ret v /\
    (v < 128 -> exists b, bs = [b] /\ byte_to_Z b = v) /\
    (128 <= v ->
     exists marker first payload,
       bs = marker :: first :: payload /\
       len bs = 1 + ceil_div (bit_length v) 8 /\
       byte_to_Z marker = 128 + ceil_div (bit_length v) 8 /\
       first <> x00 /\
       bytes_to_int (first :: payload) false = v).
Proof.
  intros Hv. destruct (Z.lt_ge_cases v 128) as [Hs|Hl].
  - exists [byte_of_Z v]. rewrite ber_encode_short by lia.
    rewrite ber_decode_cons, byte_to_of_Z by lia.
    replace (v <? 128) with true by lia.
    repeat split; [|lia].
    intros _. exists (byte_of_Z v). split; [reflexivity|].
    apply byte_to_of_Z; lia.
  - pose proof (ber_encode_long v ltac:(lia)) as [He Hw].
    pose proof (long_form_width v Hl) as (Hc & Hw1 & Hlo & Hhi).
    cbv zeta in He, Hw, Hc, Hw1, Hlo, Hhi.
    set (w := (bit_length v - 1) / 8 + 1) in *.
    assert (Hval : be_value (be_bytes (Z.to_nat w) v) = v)
      by (apply be_value_be_bytes; rewrite Z2Nat.id; lia).
    assert (Hlen : len (be_bytes (Z.to_nat w) v) = w)
      by (unfold len; rewrite be_bytes_length; lia).
    eexists. split; [exact He|].
    split; [|split; [lia|]].
    + rewrite ber_decode_cons, byte_to_of_Z by lia.
      replace (w + 128 <? 128) with false by lia.
      rewrite Hlen. replace (w =? w + 128 - 128) with true by lia.
      now rewrite Hval.
    + intros _.
      destruct (be_bytes (Z.to_nat w) v) as [|first payload] eqn:Eb.
      { cbn in Hlen. lia. }
      exists (byte_of_Z (w + 128)), first, payload.
      split; [reflexivity|].
      rewrite <- Hc.
      split; [rewrite len_cons; lia|].
      split; [rewrite byte_to_of_Z; lia|].
      split; [|exact Hval].
      intros ->. rewrite be_value_cons in Hval.
      rewrite len_cons in Hlen.
      pose proof (be_value_range payload).
      replace (len payload) with (w - 1) in * by lia.
      change (byte_to_Z x00) with 0 in Hval. lia.
Qed.

Lemma ber_roundtrip_minimal_witness :
  0 <= 300 < 2 ^ 1016 /\
  exists bs, ber_encode 300 = Ret bs /\ ber_decode bs = Ret 300.
Proof.
  split; [split; [lia | reflexivity]|].
  destruct (ber_roundtrip_minimal 300) as (bs & He & Hd & _).
  - split; [lia | reflexivity].
  - exists bs. split; assumption.
Defined.

(** The round trip stops at [2^1016]: the long-form marker byte cannot
    announce 128 payload bytes, and [ber_encode] raises. *)
Lemma ber_encode_overflow :
  0 <= 2 ^ 1016 /\
  ber_encode (2 ^ 1016) = Raise OverflowError /\
  (bs <- ber_encode (2 ^ 1016) ;; ber_decode bs) <> Ret (2 ^ 1016).
Proof.
  split; [discriminate|].
  assert (E : ber_encode (2 ^ 1016) = Raise OverflowError) by (vm_compute; reflexivity).
  split; [exact E|]. rewrite E. discriminate.
Qed.

(** C5. [ber_decode] on the empty buffer: the claim has it fail, the code
    returns 0. *)
Theorem ber_decode_empty : ber_decode [] = Ret 0.
Proof. reflexivity. Qed.

(** On every non-empty buffer [ber_decode] raises exactly when the length
    does not fit the form announced by the first byte. *)
Lemma ber_decode_nonempty_malformed (b0 : byte) (rest : list byte) :
  ber_decode (b0 :: rest) = Raise ValueError <->
  (byte_to_Z b0 < 128 /\ len (b0 :: rest) <> 1) \/
  (128 <= byte_to_Z b0 /\ len (b0 :: rest) <> 1 + (byte_to_Z b0 - 128)).
Proof.
  rewrite ber_decode_cons, len_cons. pose proof (len_nonneg rest).
  destruct (byte_to_Z b0 <? 128) eqn:Eb.
  - destruct rest as [|b1 rest].
    + cbn. split; [discriminate | lia].
    + split; [intros _; left; split; [lia|] | reflexivity].
      rewrite len_cons. pose proof (len_nonneg rest). lia.
  - destruct (len rest =? byte_to_Z b0 - 128) eqn:El.
    + split; [discriminate | lia].
    + split; [intros _; right; lia | reflexivity].
Qed.

(** ** Packet checksum *)

Lemma sum_acc (xs : list Z) (acc : Z) :
  fold_left Z.add xs acc = acc + sum xs.
Proof.
  unfold sum. revert acc. induction xs as [|x xs IH]; intros acc; cbn.
  - lia.
  - rewrite IH, (IH x). lia.
Qed.

Lemma sum_fold_right (xs : list Z) : sum xs = fold_right Z.add 0 xs.
Proof.
  induction xs as [|x xs IH]; [reflexivity|].
  unfold sum in *. cbn. rewrite sum_acc. unfold sum. lia.
Qed.

Lemma sum_snoc (xs : list Z) (x : Z) : sum (xs ++ [x]) = sum xs + x.
Proof. unfold sum. now rewrite fold_left_app. Qed.

Lemma even_length_cons {A : Type} (l : list A) :
  even_length l -> forall a, exists p t, a :: l = p ++ [t] /\ even_length p.
Proof.
  induction 1 as [|x y l He IHe]; intros a.
  - exists [], a. split; [reflexivity | constructor].
  - destruct (IHe y) as (p & t & E & Hp).
    exists (a :: x :: p), t. split.
    + cbn. now rewrite <- E.
    + now constructor.
Qed.

Lemma even_length_wrap {A : Type} (l : list A) :
  even_length l -> forall a t, even_length (a :: l ++ [t]).
Proof.
  induction 1 as [|x y l He IHe]; intros a t; cbn.
  - repeat constructor.
  - constructor. apply IHe.
Qed.

Lemma parity_split {A : Type} (l : list A) :
  even_length l \/ exists p t, l = p ++ [t] /\ even_length p.
Proof.
  induction l as [|a l IH].
  - left. constructor.
  - destruct IH as [He | (p & t & -> & He)].
    + right. now apply even_length_cons.
    + left. now apply even_length_wrap.
Qed.

Lemma even_length_len {A : Type} (l : list A) :
  even_length l -> len l mod 2 = 0 /\ len l = 2 * (len l / 2).
Proof.
  induction 1 as [|x y l He [IH1 IH2]].
  - split; reflexivity.
  - rewrite !len_cons.
    replace (1 + (1 + len l)) with (len l + 1 * 2) by lia.
    rewrite Z.mod_add, Z.div_add by lia. lia.
Qed.

Lemma payload_words_even (p : list byte) :
  even_length p -> payload_words p = be_words p.
Proof.
  induction 1 as [|x y l He IH]; cbn; [reflexivity | now rewrite IH].
Qed.

Lemma payload_words_odd (p : list byte) (t : byte) :
  even_length p -> payload_words (p ++ [t]) = be_words p ++ [byte_to_Z t * 256].
Proof.
  induction 1 as [|x y l He IH]; cbn; [reflexivity | now rewrite IH].
Qed.

Lemma slice_prefix {A : Type} (p q : list A) : slice (p ++ q) 0 (len p) = p.
Proof.
  unfold slice, slice_bound. rewrite len_app.
  pose proof (len_nonneg p). pose proof (len_nonneg q).
  change (0 <? 0) with false. cbv iota.
  replace (len p <? 0) with false by lia.
  replace (Z.max 0 (Z.min (len p + len q) 0)) with 0 by lia.
  replace (Z.max 0 (Z.min (len p + len q) (len p)) - 0) with (len p) by lia.
  cbn [Z.to_nat skipn]. unfold len. rewrite Nat2Z.id.
  rewrite firstn_app, Nat.sub_diag, firstn_all. cbn. apply app_nil_r.
Qed.

Lemma getitem_middle {A : Type} (p q : list A) (t : A) :
  getitem (p ++ t :: q) (len p) = Ret t.
Proof.
  unfold getitem. rewrite len_app, len_cons.
  pose proof (len_nonneg p). pose proof (len_nonneg q).
  replace (len p <? 0) with false by lia. cbv zeta iota.
  replace (len p <? 0) with false by lia.
  replace (len p + (1 + len q) <=? len p) with false by lia.
  cbn [orb]. unfold len. rewrite Nat2Z.id.
  rewrite nth_error_app2, Nat.sub_diag by lia. reflexivity.
Qed.

Lemma pack_H_mask (w : Z) :
  pack_H (Z.land w 65535) = Ret (be16 (w mod 2 ^ 16)).
Proof.
  change 65535 with (Z.ones 16). rewrite Z.land_ones by lia.
  pose proof (Z.mod_pos_bound w (2 ^ 16) ltac:(lia)) as Hb.
  change (2 ^ 16) with 65536 in *.
  unfold pack_H. replace ((0 <=? w mod 65536) && (w mod 65536 <=? 65535)) with true by lia.
  reflexivity.
Qed.

(** The checksum of a payload followed by two reserved bytes. *)
Lemma packet_checksum_payload (payload : list byte) (a b : byte) :
  packet_checksum (payload ++ [a; b]) = Ret (be16 (checksum_spec payload)).
Proof.
  unfold packet_checksum, checksum_spec.
  destruct (parity_split payload) as [He | (p & t & -> & He)].
  - pose proof (even_length_len payload He) as [Hm Hd].
    rewrite len_app. change (len [a; b]) with 2.
    replace (len payload + 2 - 2) with (len payload) by lia.
    rewrite Hm, Z.sub_0_r, slice_prefix.
    unfold unpack_H. pose proof (len_nonneg payload).
    replace (len payload / 2 <? 0) with false by lia.
    replace (len payload =? 2 * (len payload / 2)) with true by lia.
    cbn [negb bind]. change (0 =? 0) with true. cbn [negb bind].
    rewrite pack_H_mask, payload_words_even, sum_fold_right by assumption.
    reflexivity.
  - pose proof (even_length_len p He) as [Hm Hd].
    rewrite <- app_assoc. cbn [app].
    rewrite len_app, !len_cons. change (len (@nil byte)) with 0.
    replace (len p + (1 + (1 + (1 + 0))) - 2) with (len p + 1) by lia.
    assert (Hm1 : (len p + 1) mod 2 = 1).
    { rewrite Z.add_mod, Hm by lia. reflexivity. }
    assert (Hd1 : (len p + 1) / 2 = len p / 2).
    { symmetry. apply Z.div_unique with (r := 1); lia. }
    rewrite Hm1, Hd1.
    replace (len p + 1 - 1) with (len p) by lia.
    rewrite slice_prefix, getitem_middle.
    unfold unpack_H. pose proof (len_nonneg p).
    replace (len p / 2 <? 0) with false by lia.
    replace (len p =? 2 * (len p / 2)) with true by lia.
    cbn [negb bind]. change (1 =? 0) with false. cbn [negb bind].
    rewrite pack_H_mask, payload_words_odd, <- sum_fold_right, sum_snoc by assumption.
    rewrite Z.shiftl_mul_pow2 by lia. reflexivity.
Qed.

(** Every buffer of at least two bytes is a payload and two reserved bytes. *)
Lemma split_reserved (data : list byte) :
  2 <= len data ->
  exists a b, data = firstn (length data - 2) data ++ [a; b].
Proof.
  intros Hl. unfold len in Hl.
  pose proof (length_skipn (length data - 2) data) as Hs.
  destruct (skipn (length data - 2) data) as [|a [|b [|c r]]] eqn:E;
    cbn [length] in Hs; try lia.
  exists a, b. rewrite <- E. symmetry. apply firstn_skipn.
Qed.

(** C2. For every buffer of length at least 2, [packet_checksum] returns,
    without raising, the two big-endian bytes of the sum modulo [2^16] of
    the big-endian 16-bit words of all bytes but the last two, an odd
    trailing byte counting as the high byte of a final word; on
    [00 01 00 02] followed by two placeholder bytes it returns [00 03]. *)
Theorem packet_checksum_correct :
  (forall data : list byte,
      2 <= len data ->
      packet_checksum data
      = Ret (be16 (checksum_spec (firstn (length data - 2) data)))) /\
  (forall p q : byte,
      packet_checksum [x00; x01; x00; x02; p; q] = Ret [x00; x03]).
Proof.
  split.
  - intros data Hl. destruct (split_reserved data Hl) as (a & b & E).
    rewrite E at 1. apply packet_checksum_payload.
  - intros p q.
    apply (packet_checksum_payload [x00; x01; x00; x02] p q).
Qed.

Lemma packet_checksum_correct_witness :
  2 <= len [x12; x34; x56; xaa; xbb] /\
  packet_checksum [x12; x34; x56; xaa; xbb] = Ret [x68; x34].
Proof.
  split; [cbn; lia|].
  destruct packet_checksum_correct as [H _].
  apply (H [x12; x34; x56; xaa; xbb]). cbn; lia.
Defined.

(** C10. Two buffers of equal length at least 2 that agree on all bytes
    but the final two have the same checksum. *)
Theorem packet_checksum_ignores_trailer (d1 d2 : list byte) :
  len d1 = len d2 ->
  2 <= len d1 ->
  firstn (length d1 - 2) d1 = firstn (length d2 - 2) d2 ->
  packet_checksum d1 = packet_checksum d2.
Proof.
  intros Hl H2 Hp.
  destruct (split_reserved d1 H2) as (a1 & b1 & E1).
  destruct (split_reserved d2 ltac:(lia)) as (a2 & b2 & E2).
  rewrite E1, E2, !packet_checksum_payload. now rewrite Hp.
Qed.

Lemma packet_checksum_ignores_trailer_witness :
  packet_checksum [x12; x34; x56; x00; x00] = packet_checksum [x12; x34; x56; xde; xad].
Proof.
  apply (packet_checksum_ignores_trailer
           [x12; x34; x56; x00; x00] [x12; x34; x56; xde; xad]);
    [reflexivity | cbn; lia | reflexivity].
Defined.

(** ** Hexadecimal text *)

Lemma list_pair_ind {A : Type} (P : list A -> Prop) :
  P [] -> (forall a, P [a]) -> (forall a b l, P l -> P (a :: b :: l)) ->
  forall l, P l.
Proof.
  intros H0 H1 H2 l.
  enough (P l /\ forall a, P (a :: l)) by tauto.
  induction l as [|b l [IHl IHc]]; split; auto.
Qed.

Lemma in_range_spec (lo hi c : N) :
  in_range lo hi c = true <-> (lo <= c <= hi)%N.
Proof. unfold in_range. lia. Qed.

Ltac ranges :=
  unfold isalnum, is_hex_digit, is_space, digit_value, hex_value in *;
  unfold is_ascii, in_range in *.

Lemma hex_digit_value (c : char) :
  (16 <=? digit_value c) = negb (is_hex_digit c).
Proof.
  ranges.
  destruct (48 <=? c)%N eqn:E1, (c <=? 57)%N eqn:E2, (97 <=? c)%N eqn:E3,
    (c <=? 122)%N eqn:E4, (65 <=? c)%N eqn:E5, (c <=? 90)%N eqn:E6,
    (c <=? 102)%N eqn:E7, (c <=? 70)%N eqn:E8; cbn; lia.
Qed.

Lemma hex_digit_value_eq (c : char) :
  is_hex_digit c = true -> digit_value c = hex_value c.
Proof.
  ranges.
  destruct (48 <=? c)%N eqn:E1, (c <=? 57)%N eqn:E2, (97 <=? c)%N eqn:E3,
    (c <=? 122)%N eqn:E4, (65 <=? c)%N eqn:E5, (c <=? 90)%N eqn:E6,
    (c <=? 102)%N eqn:E7, (c <=? 70)%N eqn:E8; cbn; lia.
Qed.

Lemma hex_digit_ascii (c : char) : is_hex_digit c = true -> is_ascii c = true.
Proof. ranges. lia. Qed.

Lemma hex_digit_not_space (c : char) : is_hex_digit c = true -> is_space c = false.
Proof. ranges. lia. Qed.

Lemma hex_value_range (c : char) : is_hex_digit c = true -> 0 <= hex_value c < 16.
Proof.
  ranges.
  destruct (48 <=? c)%N eqn:E1, (c <=? 57)%N eqn:E2, (97 <=? c)%N eqn:E3,
    (c <=? 102)%N eqn:E7, (65 <=? c)%N eqn:E5, (c <=? 70)%N eqn:E8; cbn; lia.
Qed.

Section HexText.

Variable unicode_isalnum : char -> bool.

Lemma isalnum_not_space (c : char) :
  isalnum unicode_isalnum c = true -> is_space c = false.
Proof.
  ranges. destruct (c <? 128)%N eqn:E; intros H; lia.
Qed.

(** When [hex_pairs] reads the whole string, so does the loop of
    [bytes.fromhex], with the same bytes. *)
Lemma fromhex_loop_pairs (s : str) (bs : list byte) :
  hex_pairs s = Some bs -> fromhex_loop None s = Ret bs.
Proof.
  revert bs. induction s as [| c | hi lo rest IH] using list_pair_ind; intros bs.
  - now intros [= <-].
  - discriminate.
  - cbn [hex_pairs fromhex_loop].
    destruct (is_hex_digit hi) eqn:Hh; [|discriminate].
    destruct (is_hex_digit lo) eqn:Hl; [|discriminate].
    cbn [andb]. rewrite (hex_digit_not_space hi Hh), !hex_digit_value, Hh, Hl.
    cbn [negb].
    destruct (hex_pairs rest) as [bs'|]; [|discriminate].
    intros [= <-]. rewrite (IH bs' eq_refl). cbn [bind].
    rewrite !hex_digit_value_eq by assumption.
    rewrite Z.shiftl_mul_pow2 by lia. change (2 ^ 4) with 16.
    now rewrite (Z.mul_comm _ 16).
Qed.

(** When [hex_pairs] gives up on a string without white space, the
    loop raises. *)
Lemma fromhex_loop_fails (s : str) :
  forallb (fun c => negb (is_space c)) s = true ->
  hex_pairs s = None -> fromhex_loop None s = Raise ValueError.
Proof.
  induction s as [| c | hi lo rest IH] using list_pair_ind.
  - discriminate.
  - cbn. intros Hs _. destruct (is_space c); [discriminate|].
    rewrite hex_digit_value. now destruct (is_hex_digit c).
  - cbn [forallb hex_pairs fromhex_loop]. intros Hs.
    apply andb_prop in Hs as [Hhi Hs]. apply andb_prop in Hs as [Hlo Hs].
    destruct (is_space hi); [discriminate|].
    rewrite !hex_digit_value.
    destruct (is_hex_digit hi); [|reflexivity].
    destruct (is_hex_digit lo); [|reflexivity].
    cbn [andb negb].
    destruct (hex_pairs rest) as [bs'|]; [discriminate|].
    intros _. now rewrite IH.
Qed.

Lemma hex_pairs_ascii (s : str) (bs : list byte) :
  hex_pairs s = Some bs -> forallb is_ascii s = true.
Proof.
  revert bs. induction s as [| c | hi lo rest IH] using list_pair_ind; intros bs.
  - reflexivity.
  - discriminate.
  - cbn [hex_pairs forallb].
    destruct (is_hex_digit hi) eqn:Hh; [|discriminate].
    destruct (is_hex_digit lo) eqn:Hl; [|discriminate].
    cbn [andb].
    destruct (hex_pairs rest) as [bs'|]; [|discriminate].
    intros _. now rewrite !hex_digit_ascii, (IH bs').
Qed.

Lemma hex_pairs_none (s : str) :
  hex_pairs s = None <->
  Nat.odd (length s) = true \/ exists c, In c s /\ is_hex_digit c = false.
Proof.
  induction s as [| c | hi lo rest IH] using list_pair_ind.
  - cbn. split; [discriminate|]. intros [H | (c & [] & _)]. discriminate.
  - cbn. split; [now left | reflexivity].
  - cbn [hex_pairs length In]. change (Nat.odd (S (S (length rest)))) with (Nat.odd (length rest)).
    destruct (is_hex_digit hi) eqn:Hh; cbn [andb].
    2:{ split; [|reflexivity]. intros _. right. exists hi. auto. }
    destruct (is_hex_digit lo) eqn:Hl.
    2:{ split; [|reflexivity]. intros _. right. exists lo. auto. }
    destruct (hex_pairs rest) as [bs'|]; cbn [option_map].
    + split; [discriminate|]. intros H.
      destruct IH as [_ IH].
      assert (Some bs' = None) as Habs; [|discriminate].
      apply IH. destruct H as [H | (c & [<- | [<- | Hin]] & Hc)];
        [now left | congruence | congruence | right; eauto].
    + split; [|reflexivity]. intros _.
      destruct IH as [IH _]. destruct (IH eq_refl) as [H | (c & Hin & Hc)];
        [now left | right; exists c; auto].
Qed.

Lemma hexstr_to_bytes_pairs (value : str) :
  hexstr_to_bytes unicode_isalnum value =
  match hex_pairs (filter (isalnum unicode_isalnum) value) with
  | Some bs => Ret bs
  | None => Raise ValueError
  end.
Proof.
  unfold hexstr_to_bytes, bytes_fromhex.
  set (digits := filter (isalnum unicode_isalnum) value).
  destruct (hex_pairs digits) as [bs|] eqn:E.
  - rewrite (hex_pairs_ascii digits bs E). now apply fromhex_loop_pairs.
  - destruct (forallb is_ascii digits); [|reflexivity].
    apply fromhex_loop_fails; [|exact E].
    apply forallb_forall. intros c Hc.
    apply filter_In in Hc as [_ Hc].
    now rewrite (isalnum_not_space c Hc).
Qed.

End HexText.

(** C9. [hexstr_to_bytes] keeps the alphanumeric characters of its
    argument and reads them as pairs of hexadecimal digits; it raises
    [ValueError] exactly when their number is odd or one of them is not a
    hexadecimal digit; and
    [bytes_to_hexstr(hexstr_to_bytes("AB CD-EF")) == "AB CD EF"] with the
    empty prefix and the single-space separator. *)
Theorem hexstr_to_bytes_spec (unicode_isalnum : char -> bool) :
  (forall value : str,
      let digits := filter (isalnum unicode_isalnum) value in
      (hexstr_to_bytes unicode_isalnum value = Raise ValueError <->
       Nat.odd (length digits) = true \/
       exists c, In c digits /\ is_hex_digit c = false) /\
      (forall bs,
          hexstr_to_bytes unicode_isalnum value = Ret bs <->
          hex_pairs digits = Some bs) /\
      (forall e, hexstr_to_bytes unicode_isalnum value = Raise e -> e = ValueError)) /\
  (bs <- hexstr_to_bytes unicode_isalnum (str_of "AB CD-EF") ;;
   Ret (bytes_to_hexstr bs (str_of "") (str_of " ")))
  = Ret (str_of "AB CD EF").
Proof.
  split; [|reflexivity].
  intros value digits. rewrite hexstr_to_bytes_pairs. fold digits.
  rewrite <- hex_pairs_none.
  destruct (hex_pairs digits) as [bs|]; repeat split;
    try discriminate; try congruence.
Qed.

(** ** Floats *)

Lemma SFcompare_refl (x : spec_float) :
  x <> S754_nan -> SFcompare x x = Some Eq.
Proof.
  destruct x as [s | s | | s m e]; intros Hx; try congruence.
  - reflexivity.
  - now destruct s.
  - cbn. rewrite Z.compare_refl, Pos.compare_cont_refl. now destruct s.
Qed.

Lemma not_nan_spec (f : float) : is_nan f = false -> Prim2SF f <> S754_nan.
Proof.
  unfold is_nan. rewrite eqb_spec. intros H E. rewrite E in H. discriminate.
Qed.

Lemma finite_spec (f : float) :
  is_finite f = true ->
  match Prim2SF f with
  | S754_zero _ | S754_finite _ _ _ => True
  | _ => False
  end.
Proof.
  unfold is_finite, is_nan, is_infinity.
  rewrite !eqb_spec, abs_spec.
  destruct (Prim2SF f) as [s | s | | s m e]; cbn; auto.
  - destruct s; cbn; discriminate.
  - discriminate.
Qed.

Lemma finite_not_nan (f : float) : is_finite f = true -> is_nan f = false.
Proof.
  unfold is_finite. now destruct (is_nan f).
Qed.

Lemma checked_finite (f g : float) : checked f = Ret g -> g = f /\ is_finite f = true.
Proof.
  unfold checked. destruct (is_finite f); [intros [= <-]; auto | discriminate].
Qed.

Lemma float_of_int_finite (z : Z) (f : float) :
  float_of_int z = Ret f -> is_finite f = true.
Proof.
  intros H. apply checked_finite in H as [-> H]. exact H.
Qed.

Lemma int_truediv_finite (a b : Z) (f : float) :
  int_truediv a b = Ret f -> is_finite f = true.
Proof.
  unfold int_truediv.
  destruct (b =? 0); [discriminate|].
  destruct (a =? 0).
  - intros [= <-]. now destruct (b <? 0).
  - intros H. apply checked_finite in H as [-> H]. exact H.
Qed.

Lemma float_of_int_0 : float_of_int 0 = Ret zero.
Proof. reflexivity. Qed.

(** A finite float times zero is a zero. *)
Lemma mul_zero_r (f : float) :
  is_finite f = true -> exists s, Prim2SF (f * zero)%float = S754_zero s.
Proof.
  intros Hf. apply finite_spec in Hf. rewrite mul_spec.
  change (Prim2SF zero) with (S754_zero false).
  destruct (Prim2SF f) as [s | s | | s m e]; try contradiction; cbn; eauto.
Qed.

(** A zero plus a float that is not a NaN equals that float. *)
Lemma add_zero_l (z d : float) (s : bool) :
  Prim2SF z = S754_zero s -> is_nan d = false -> (z + d =? d)%float = true.
Proof.
  intros Hz Hd. apply not_nan_spec in Hd.
  rewrite eqb_spec, add_spec, Hz. unfold SFeqb.
  destruct (Prim2SF d) as [s' | s' | | s' m e] eqn:E; try congruence.
  - now destruct s, s'.
  - now destruct s'.
  - cbn [SF64add SFadd]. rewrite SFcompare_refl by discriminate. reflexivity.
Qed.

(** A finite float minus itself is zero. *)
Lemma sub_diag (f : float) : is_finite f = true -> is_zero (f - f)%float = true.
Proof.
  intros Hf. apply finite_spec in Hf. unfold is_zero.
  rewrite eqb_spec, sub_spec. change (Prim2SF zero) with (S754_zero false).
  destruct (Prim2SF f) as [s | s | | s m e]; try contradiction.
  - now destruct s.
  - cbn [SF64sub SFsub]. rewrite Z.sub_diag. reflexivity.
Qed.

(** ** The order of numbers *)

Lemma float_compare_refl (f : float) :
  (f ?= f)%float = FEq \/ (f ?= f)%float = FNotComparable.
Proof.
  rewrite compare_spec.
  destruct (Prim2SF f) as [s | s | | s m e] eqn:E;
    try (rewrite SFcompare_refl by discriminate); cbn; auto.
Qed.

Lemma num_lt_irrefl (a : num) : num_lt a a = false.
Proof.
  unfold num_lt. destruct a as [z | f]; cbn.
  - now rewrite Z.compare_refl.
  - now destruct (float_compare_refl f) as [-> | ->].
Qed.

Lemma num_lt_not_gt (a b : num) : num_lt a b = true -> num_gt a b = false.
Proof.
  unfold num_lt, num_gt. now destruct (num_compare a b) as [[]|].
Qed.

Lemma num_lt_le (a b : num) : num_lt a b = true -> num_le a b = true.
Proof.
  unfold num_lt, num_le. now destruct (num_compare a b) as [[]|].
Qed.

Lemma SFcompare_antisym (x y : spec_float) :
  SFcompare y x = option_map CompOpp (SFcompare x y).
Proof.
  destruct x as [s | s | | s m e], y as [s' | s' | | s' m' e']; cbn;
    try reflexivity; try (now destruct s); try (now destruct s');
    try (now destruct s, s').
  assert (Hm : Pos.compare_cont Eq m' m = CompOpp (Pos.compare_cont Eq m m'))
    by (now rewrite Pos.compare_cont_antisym).
  destruct s, s'; try reflexivity;
    rewrite (Z.compare_antisym e e'), Hm;
    destruct (e ?= e'); cbn; try reflexivity.
Qed.

Lemma num_compare_antisym (a b : num) :
  num_compare b a = option_map CompOpp (num_compare a b).
Proof.
  destruct a as [x | f], b as [y | g]; cbn.
  - now rewrite (Z.compare_antisym x y).
  - reflexivity.
  - destruct (compare_int_float y f) as [[]|]; reflexivity.
  - rewrite !compare_spec, (SFcompare_antisym (Prim2SF f) (Prim2SF g)).
    destruct (SFcompare (Prim2SF f) (Prim2SF g)) as [[]|]; reflexivity.
Qed.

Lemma num_le_not_lt (a b : num) : num_le a b = true -> num_lt b a = false.
Proof.
  unfold num_le, num_lt. rewrite (num_compare_antisym a b).
  now destruct (num_compare a b) as [[]|].
Qed.

Lemma num_le_not_gt (a b : num) : num_le a b = true -> num_gt a b = false.
Proof.
  unfold num_le, num_gt. now destruct (num_compare a b) as [[]|].
Qed.

Lemma num_gt_irrefl (a : num) : num_gt a a = false.
Proof.
  unfold num_gt. destruct a as [z | f]; cbn.
  - now rewrite Z.compare_refl.
  - now destruct (float_compare_refl f) as [-> | ->].
Qed.

Lemma num_lt_int (a b : Z) : num_lt (Int a) (Int b) = (a <? b).
Proof. reflexivity. Qed.

(** ** Rounding to binary64: magnitudes *)

(** The number of binary digits of a positive number. *)
Lemma digits2_pos_spec (p : positive) :
  2 ^ (Zpos (digits2_pos p) - 1) <= Zpos p < 2 ^ Zpos (digits2_pos p).
Proof.
  induction p as [p IH | p IH |]; cbn [digits2_pos].
  - rewrite Pos2Z.inj_succ.
    replace (Z.succ (Zpos (digits2_pos p)) - 1) with (Z.succ (Zpos (digits2_pos p) - 1)) by lia.
    rewrite !Z.pow_succ_r by lia. lia.
  - rewrite Pos2Z.inj_succ.
    replace (Z.succ (Zpos (digits2_pos p)) - 1) with (Z.succ (Zpos (digits2_pos p) - 1)) by lia.
    rewrite !Z.pow_succ_r by lia. lia.
  - cbn. lia.
Qed.

Lemma digits2_pos_unique (p : positive) (k : Z) :
  2 ^ (k - 1) <= Zpos p < 2 ^ k -> Zpos (digits2_pos p) = k.
Proof.
  intros [Hlo Hhi]. pose proof (digits2_pos_spec p) as [Dlo Dhi].
  set (d := Zpos (digits2_pos p)) in *.
  assert (0 < d) by (subst d; lia).
  assert (Hk : 0 < k).
  { destruct (Z.lt_ge_cases 0 k) as [|Hk]; [assumption|].
    destruct (Z.eq_dec k 0) as [->|]; [cbn in Hhi; lia|].
    rewrite (Z.pow_neg_r 2 k) in Hhi by lia. lia. }
  destruct (Z.lt_trichotomy d k) as [Hlt | [Heq | Hgt]]; [|exact Heq|].
  - assert (2 ^ d <= 2 ^ (k - 1)) by (apply Z.pow_le_mono_r; lia). lia.
  - assert (2 ^ k <= 2 ^ (d - 1)) by (apply Z.pow_le_mono_r; lia). lia.
Qed.

(** Shifting a record right by one bit halves its mantissa. *)
Lemma shr_1_m (r : shr_record) :
  0 <= shr_m r -> shr_m (shr_1 r) = shr_m r / 2.
Proof.
  destruct r as [m rb sb]. cbn [shr_m shr_1]. intros Hm.
  destruct m as [|[p|p|]|p]; cbn [shr_m]; try lia.
  - reflexivity.
  - rewrite Pos2Z.inj_xI. apply Z.div_unique with (r := 1); lia.
  - rewrite Pos2Z.inj_xO. apply Z.div_unique with (r := 0); lia.
  - reflexivity.
Qed.

Lemma iter_shr_1_m (p : positive) (r : shr_record) :
  0 <= shr_m r -> shr_m (iter_pos shr_1 p r) = shr_m r / 2 ^ Zpos p.
Proof.
  revert r. induction p as [p IH | p IH |]; intros r Hr; cbn [iter_pos].
  - assert (H1 : 0 <= shr_m (shr_1 r)) by (rewrite shr_1_m by lia; apply Z.div_pos; lia).
    assert (H2 : 0 <= shr_m (iter_pos shr_1 p (shr_1 r)))
      by (rewrite IH by lia; apply Z.div_pos; lia).
    assert (Hp : 0 < 2 ^ Zpos p) by (apply Z.pow_pos_nonneg; lia).
    rewrite IH, IH, shr_1_m by lia.
    rewrite !Z.div_div by lia. f_equal.
    rewrite Pos2Z.inj_xI.
    replace (2 * Zpos p + 1) with (1 + Zpos p + Zpos p) by lia.
    rewrite !Z.pow_add_r by lia. change (2 ^ 1) with 2. ring.
  - assert (H1 : 0 <= shr_m (iter_pos shr_1 p r))
      by (rewrite IH by lia; apply Z.div_pos; lia).
    assert (Hp : 0 < 2 ^ Zpos p) by (apply Z.pow_pos_nonneg; lia).
    rewrite IH, IH by lia.
    rewrite Z.div_div by lia. f_equal.
    rewrite <- Z.pow_add_r by lia. f_equal. lia.
  - rewrite shr_1_m by lia. reflexivity.
Qed.

Lemma round_nearest_even_range (m : Z) (l : location) :
  m <= round_nearest_even m l <= m + 1.
Proof.
  unfold round_nearest_even. destruct l as [|[]]; try lia.
  destruct (Z.even m); lia.
Qed.

(** The first shift of [binary_round_aux], on a mantissa of at least 53
    digits in the normal range: 53 digits are kept. *)
Lemma shr_fexp_normal (m : positive) (e : Z) (l : location) :
  53 <= Zpos (digits2_pos m) ->
  -1074 <= Zpos (digits2_pos m) + e - 53 ->
  let '(r, e') := shr_fexp prec emax (Zpos m) e l in
  e' = Zpos (digits2_pos m) + e - 53 /\
  2 ^ 52 <= shr_m r < 2 ^ 53.
Proof.
  intros Hd He.
  pose proof (digits2_pos_spec m) as [Hlo Hhi].
  set (d := Zpos (digits2_pos m)) in *.
  unfold shr_fexp, fexp, shr, Zdigits2. fold d.
  change (SpecFloat.emin prec emax) with (-1074). change prec with 53.
  replace (Z.max (d + e - 53) (-1074) - e) with (d - 53) by lia.
  destruct (d - 53) as [|p|p] eqn:Ep; try lia.
  - assert (d = 53) by lia.
    split; [lia|]. replace d with 53 in *.
    change (53 - 1) with 52 in Hlo.
    destruct l as [|[]]; cbn [shr_record_of_loc shr_m]; lia.
  - split; [lia|].
    rewrite iter_shr_1_m by (destruct l as [|[]]; cbn; lia).
    replace (shr_m (shr_record_of_loc (Zpos m) l)) with (Zpos m)
      by (destruct l as [|[]]; reflexivity).
    assert (Hp : 2 ^ (d - 1) = 2 ^ 52 * 2 ^ Zpos p)
      by (rewrite <- Z.pow_add_r by lia; f_equal; lia).
    assert (Hq : 2 ^ d = 2 ^ 53 * 2 ^ Zpos p)
      by (rewrite <- Z.pow_add_r by lia; f_equal; lia).
    assert (0 < 2 ^ Zpos p) by (apply Z.pow_pos_nonneg; lia).
    split.
    + apply Z.div_le_lower_bound; lia.
    + apply Z.div_lt_upper_bound; lia.
Qed.

(** Rounding a mantissa of at least 53 digits in the normal range: the
    result is a normal float whose magnitude is that of the argument, or
    one more after a carry. *)
Lemma binary_round_aux_normal (sx : bool) (mx : positive) (ex : Z) (lx : location) :
  53 <= Zpos (digits2_pos mx) ->
  -1074 <= Zpos (digits2_pos mx) + ex - 53 ->
  Zpos (digits2_pos mx) + ex <= 1023 ->
  exists m e,
    binary_round_aux prec emax sx (Zpos mx) ex lx = S754_finite sx m e /\
    Zpos (digits2_pos m) = 53 /\
    Zpos (digits2_pos mx) + ex <= 53 + e <= Zpos (digits2_pos mx) + ex + 1 /\
    valid_binary (S754_finite sx m e) = true.
Proof.
  intros Hd Hlo Hhi. unfold binary_round_aux.
  pose proof (shr_fexp_normal mx ex lx Hd Hlo) as H1.
  destruct (shr_fexp prec emax (Zpos mx) ex lx) as [r1 e1]. destruct H1 as [He1 Hm1].
  pose proof (round_nearest_even_range (shr_m r1) (loc_of_shr_record r1)) as Hr.
  destruct (round_nearest_even (shr_m r1) (loc_of_shr_record r1)) as [|q|q]; try lia.
  assert (Hq : Zpos (digits2_pos q) = 53 \/ Zpos (digits2_pos q) = 54).
  { destruct (Z.lt_ge_cases (Zpos q) (2 ^ 53)).
    - left. apply digits2_pos_unique. change (53 - 1) with 52. lia.
    - right. apply digits2_pos_unique. change (54 - 1) with 53. lia. }
  pose proof (shr_fexp_normal q e1 loc_Exact ltac:(lia) ltac:(lia)) as H2.
  destruct (shr_fexp prec emax (Zpos q) e1 loc_Exact) as [r2 e2]. destruct H2 as [He2 Hm2].
  destruct (shr_m r2) as [|m|m]; try lia.
  assert (Hm : Zpos (digits2_pos m) = 53)
    by (apply digits2_pos_unique; change (53 - 1) with 52; lia).
  change (emax - prec) with 971.
  replace (e2 <=? 971) with true by lia.
  exists m, e2. split; [reflexivity|]. split; [exact Hm|]. split; [lia|].
  cbn [SpecFloat.valid_binary]. unfold bounded, canonical_mantissa, fexp.
  rewrite Hm. change (SpecFloat.emin prec emax) with (-1074).
  change prec with 53. change (emax - 53) with 971.
  apply andb_true_intro. split; lia.
Qed.

(** The quotient of two positive integers, correctly rounded, is a normal
    float when the operands are of comparable size; its magnitude is the
    difference of theirs, up to two. *)
Lemma SFdiv_int_normal (sa sb : bool) (a b : positive) :
  let d1 := Zpos (digits2_pos a) in
  let d2 := Zpos (digits2_pos b) in
  -1021 <= d1 - d2 <= 53 ->
  exists m e,
    SFdiv prec emax (S754_finite sa a 0) (S754_finite sb b 0)
    = S754_finite (xorb sa sb) m e /\
    Zpos (digits2_pos m) = 53 /\
    d1 - d2 <= 53 + e <= d1 - d2 + 2 /\
    valid_binary (S754_finite (xorb sa sb) m e) = true.
Proof.
  intros d1 d2 Hd.
  pose proof (digits2_pos_spec a) as [Ha1 Ha2]. fold d1 in Ha1, Ha2.
  pose proof (digits2_pos_spec b) as [Hb1 Hb2]. fold d2 in Hb1, Hb2.
  assert (0 < d1 /\ 0 < d2) as [Hd1 Hd2] by (subst d1 d2; lia).
  unfold SFdiv, SFdiv_core_binary, Zdigits2, fexp. fold d1 d2.
  change (SpecFloat.emin prec emax) with (-1074). change prec with 53.
  replace (Z.min (Z.max (d1 + 0 - (d2 + 0) - 53) (-1074)) (0 - 0))
    with (d1 - d2 - 53) by lia.
  replace (0 - 0 - (d1 - d2 - 53)) with (53 + d2 - d1) by lia.
  set (s := 53 + d2 - d1).
  assert (Hs : 0 <= s) by (subst s; lia).
  assert (Hm' : match s with
                | Z0 => Zpos a
                | Zpos _ => Z.shiftl (Zpos a) s
                | Zneg _ => 0
                end = Zpos a * 2 ^ s).
  { destruct s as [|p|p] eqn:Es; [cbn; lia | | lia].
    now rewrite Z.shiftl_mul_pow2 by lia. }
  rewrite Hm'. clear Hm'.
  assert (Hps : 0 < 2 ^ s) by (apply Z.pow_pos_nonneg; lia).
  assert (Hlo : 2 ^ 52 * 2 ^ d2 <= Zpos a * 2 ^ s).
  { replace (2 ^ 52 * 2 ^ d2) with (2 ^ (d1 - 1) * 2 ^ s).
    - apply Z.mul_le_mono_nonneg_r; lia.
    - rewrite <- !Z.pow_add_r by lia. f_equal. subst s. lia. }
  assert (Hhi : Zpos a * 2 ^ s < 2 ^ 54 * 2 ^ (d2 - 1)).
  { replace (2 ^ 54 * 2 ^ (d2 - 1)) with (2 ^ d1 * 2 ^ s).
    - apply Z.mul_lt_mono_pos_r; lia.
    - rewrite <- !Z.pow_add_r by lia. f_equal. subst s. lia. }
  pose proof (Z.div_eucl_eq (Zpos a * 2 ^ s) (Zpos b) ltac:(lia)) as Hdiv.
  pose proof (Z.mod_pos_bound (Zpos a * 2 ^ s) (Zpos b) ltac:(lia)) as Hmod.
  unfold Z.modulo in Hmod.
  destruct (Z.div_eucl (Zpos a * 2 ^ s) (Zpos b)) as [q r].
  assert (Hq : 2 ^ 52 <= q < 2 ^ 54).
  { assert (0 < 2 ^ d2) by (apply Z.pow_pos_nonneg; lia).
    assert (0 < 2 ^ (d2 - 1)) by (apply Z.pow_pos_nonneg; lia).
    split; [|nia].
    destruct (Z.lt_ge_cases q (2 ^ 52)) as [Hlt|]; [|assumption].
    assert (Zpos b * q + r < Zpos b * 2 ^ 52) by nia. nia. }
  destruct q as [|q|q]; try lia.
  assert (Hdq : Zpos (digits2_pos q) = 53 \/ Zpos (digits2_pos q) = 54).
  { destruct (Z.lt_ge_cases (Zpos q) (2 ^ 53)).
    - left. apply digits2_pos_unique. change (53 - 1) with 52. lia.
    - right. apply digits2_pos_unique. change (54 - 1) with 53. lia. }
  destruct (binary_round_aux_normal (xorb sa sb) q (d1 - d2 - 53)
              (new_location (Zpos b) r) ltac:(lia) ltac:(lia) ltac:(lia))
    as (m & e & Hr & Hm & He & Hv).
  exists m, e. change prec with 53 in Hr. rewrite Hr.
  split; [reflexivity|]. split; [exact Hm|]. split; [lia | exact Hv].
Qed.

Lemma finite_is_finite (f : float) (s : bool) (m : positive) (e : Z) :
  Prim2SF f = S754_finite s m e -> is_finite f = true.
Proof.
  intros H. unfold is_finite, is_nan, is_infinity.
  rewrite !eqb_spec, abs_spec, H.
  change (Prim2SF infinity) with (S754_infinity false).
  unfold SFeqb. rewrite SFcompare_refl by discriminate. reflexivity.
Qed.

(** The constant [1e6] as a binary64 float. *)
Lemma e6_spec : Prim2SF e6 = S754_finite false 8589934592000000 (-33).
Proof. reflexivity. Qed.



(** A 53-digit mantissa in range is kept as it is. *)
Lemma binary_round_aux_exact (sx : bool) (m : positive) (e : Z) :
  Zpos (digits2_pos m) = 53 ->
  -1074 <= e <= 971 ->
  binary_round_aux prec emax sx (Zpos m) e loc_Exact = S754_finite sx m e /\
  valid_binary (S754_finite sx m e) = true.
Proof.
  intros Hm He. split.
  - unfold binary_round_aux, shr_fexp, fexp, Zdigits2.
    rewrite Hm. change (SpecFloat.emin prec emax) with (-1074). change prec with 53.
    replace (Z.max (53 + e - 53) (-1074) - e) with 0 by lia.
    cbn [shr shr_record_of_loc shr_m loc_of_shr_record round_nearest_even].
    rewrite Hm.
    replace (Z.max (53 + e - 53) (-1074) - e) with 0 by lia.
    cbn [shr shr_record_of_loc shr_m]. change (emax - 53) with 971.
    replace (e <=? 971) with true by lia. reflexivity.
  - cbn [SpecFloat.valid_binary]. unfold bounded, canonical_mantissa, fexp.
    rewrite Hm. change (SpecFloat.emin prec emax) with (-1074).
    change prec with 53. change (emax - 53) with 971.
    apply andb_true_intro. split; lia.
Qed.

Lemma iter_xO_spec (p d : positive) :
  Zpos (Pos.iter xO p d) = Zpos p * 2 ^ Zpos d.
Proof.
  change (Pos.iter xO p d) with (shift_pos d p).
  rewrite shift_pos_correct. change (Z.pow_pos 2 d) with (2 ^ Zpos d). lia.
Qed.

(** An integer below [2^53] converts to a float of the same value. *)
Lemma binary_round_int (s : bool) (p : positive) :
  Zpos p < 2 ^ 53 ->
  exists m e,
    binary_round prec emax s p 0 = S754_finite s m e /\
    valid_binary (S754_finite s m e) = true /\
    e <= 0 /\ Zpos m = Zpos p * 2 ^ (- e).
Proof.
  intros Hp. pose proof (digits2_pos_spec p) as [Hlo Hhi].
  set (d := Zpos (digits2_pos p)) in *.
  assert (Hd : 1 <= d <= 53).
  { split; [subst d; lia|].
    destruct (Z.lt_ge_cases 53 d) as [Hgt|]; [|lia].
    assert (2 ^ 53 <= 2 ^ (d - 1)) by (apply Z.pow_le_mono_r; lia). lia. }
  unfold binary_round, fexp, shl_align. fold d.
  change (SpecFloat.emin prec emax) with (-1074). change prec with 53.
  replace (Z.max (d + 0 - 53) (-1074) - 0) with (d - 53) by lia.
  replace (Z.max (d + 0 - 53) (-1074)) with (d - 53) by lia.
  destruct (d - 53) as [|k|k] eqn:Ek; try lia.
  - assert (Hm : Zpos (digits2_pos p) = 53) by (fold d; lia).
    destruct (binary_round_aux_exact s p 0 Hm ltac:(lia)) as [Hr Hv].
    exists p, 0. change prec with 53 in Hr. rewrite Hr.
    repeat split; try assumption; try lia.
  - assert (Hz : Zpos (Pos.iter xO p k) = Zpos p * 2 ^ Zpos k) by apply iter_xO_spec.
    assert (Hk : 0 < 2 ^ Zpos k) by (apply Z.pow_pos_nonneg; lia).
    assert (Hm : Zpos (digits2_pos (Pos.iter xO p k)) = 53).
    { apply digits2_pos_unique. rewrite Hz. change (53 - 1) with 52.
      replace (2 ^ 52) with (2 ^ (d - 1) * 2 ^ Zpos k)
        by (rewrite <- Z.pow_add_r by lia; f_equal; lia).
      replace (2 ^ 53) with (2 ^ d * 2 ^ Zpos k)
        by (rewrite <- Z.pow_add_r by lia; f_equal; lia).
      split; [apply Z.mul_le_mono_nonneg_r | apply Z.mul_lt_mono_pos_r]; lia. }
    destruct (binary_round_aux_exact s (Pos.iter xO p k) (Zneg k) Hm ltac:(lia))
      as [Hr Hv].
    exists (Pos.iter xO p k), (Zneg k). change prec with 53 in Hr.
    split; [exact Hr|]. split; [exact Hv|]. split; [lia|]. exact Hz.
Qed.

Lemma float_of_int_exact (z : Z) :
  Z.abs z < 2 ^ 53 ->
  exists d, float_of_int z = Ret d /\ compare_int_float z d = Some Eq.
Proof.
  intros Hz. unfold float_of_int, binary_normalize.
  destruct z as [|p|p].
  - exists zero. split; reflexivity.
  - destruct (binary_round_int false p Hz) as (m & e & Hr & Hv & He & Hm).
    rewrite Hr. pose proof (Prim2SF_SF2Prim _ Hv) as Hd.
    eexists. unfold checked. rewrite (finite_is_finite _ _ _ _ Hd).
    split; [reflexivity|].
    unfold compare_int_float. rewrite Hd. cbn [cond_Zopp].
    destruct (0 <=? e) eqn:E.
    + replace e with 0 in * by lia. rewrite Hm. f_equal. apply Z.compare_eq_iff. lia.
    + f_equal. apply Z.compare_eq_iff. lia.
  - destruct (binary_round_int true p Hz) as (m & e & Hr & Hv & He & Hm).
    rewrite Hr. pose proof (Prim2SF_SF2Prim _ Hv) as Hd.
    eexists. unfold checked. rewrite (finite_is_finite _ _ _ _ Hd).
    split; [reflexivity|].
    unfold compare_int_float. rewrite Hd. cbn [cond_Zopp].
    destruct (0 <=? e) eqn:E.
    + replace e with 0 in * by lia. f_equal. apply Z.compare_eq_iff. lia.
    + f_equal. apply Z.compare_eq_iff. lia.
Qed.

(** Floats that are equal compare alike with every integer. *)
Lemma compare_int_float_eqb (z : Z) (r d : float) :
  (r =? d)%float = true -> compare_int_float z r = compare_int_float z d.
Proof.
  rewrite eqb_spec. unfold SFeqb, compare_int_float.
  destruct (Prim2SF r) as [s | s | | s m e], (Prim2SF d) as [s' | s' | | s' m' e'];
    cbn; intros H; try discriminate H; try reflexivity.
  all: try (destruct s, s'; first [discriminate H | reflexivity]).
  all: try (destruct s; discriminate H).
  all: try (destruct s'; discriminate H).
  destruct s, s'; try discriminate H;
    destruct (e ?= e') eqn:Ee; try discriminate H;
    apply Z.compare_eq in Ee; subst e';
    destruct (Pos.compare_cont Eq m m') eqn:Em; try discriminate H;
    apply Pos.compare_eq in Em; subst m'; reflexivity.
Qed.

(** The quotient of two integers below [2^53] is a finite float. *)
Lemma int_truediv_small (a b : Z) :
  Z.abs a < 2 ^ 53 -> 0 < Z.abs b < 2 ^ 53 ->
  exists q, int_truediv a b = Ret q /\ is_finite q = true.
Proof.
  intros Ha Hb. unfold int_truediv.
  replace (b =? 0) with false by lia.
  destruct (a =? 0) eqn:Ea.
  - eexists. split; [reflexivity|]. now destruct (b <? 0).
  - set (pa := Z.to_pos (Z.abs a)). set (pb := Z.to_pos (Z.abs b)).
    assert (Hpa : Zpos pa = Z.abs a) by (subst pa; rewrite Z2Pos.id; lia).
    assert (Hpb : Zpos pb = Z.abs b) by (subst pb; rewrite Z2Pos.id; lia).
    pose proof (digits2_pos_spec pa) as [Ha1 Ha2].
    pose proof (digits2_pos_spec pb) as [Hb1 Hb2].
    assert (Hda : Zpos (digits2_pos pa) <= 53).
    { destruct (Z.lt_ge_cases 53 (Zpos (digits2_pos pa))) as [Hgt|]; [|lia].
      assert (2 ^ 53 <= 2 ^ (Zpos (digits2_pos pa) - 1)) by (apply Z.pow_le_mono_r; lia).
      lia. }
    assert (Hdb : Zpos (digits2_pos pb) <= 53).
    { destruct (Z.lt_ge_cases 53 (Zpos (digits2_pos pb))) as [Hgt|]; [|lia].
      assert (2 ^ 53 <= 2 ^ (Zpos (digits2_pos pb) - 1)) by (apply Z.pow_le_mono_r; lia).
      lia. }
    destruct (SFdiv_int_normal (a <? 0) (b <? 0) pa pb ltac:(lia))
      as (m & e & Hdiv & _ & _ & Hv).
    rewrite Hdiv. pose proof (Prim2SF_SF2Prim _ Hv) as Hq.
    eexists. unfold checked. rewrite (finite_is_finite _ _ _ _ Hq).
    split; [reflexivity | exact (finite_is_finite _ _ _ _ Hq)].
Qed.

(** ** Rounding to binary64: exact results *)

Lemma shr_1_exact (m : Z) :
  0 <= m ->
  shr_1 (Build_shr_record (m * 2) false false) = Build_shr_record m false false.
Proof.
  intros Hm. destruct m as [|p|p]; [reflexivity | | lia].
  replace (Zpos p * 2) with (Zpos (xO p)) by lia. reflexivity.
Qed.

(** Shifting out zero bits leaves no round bit and no sticky bit. *)
Lemma iter_shr_1_exact (p : positive) :
  forall m, 0 <= m ->
    iter_pos shr_1 p (Build_shr_record (m * 2 ^ Zpos p) false false)
    = Build_shr_record m false false.
Proof.
  induction p as [p IH | p IH |]; intros m Hm; cbn [iter_pos].
  - assert (Hp : 0 < 2 ^ Zpos p) by (apply Z.pow_pos_nonneg; lia).
    replace (m * 2 ^ Zpos p~1) with (m * 2 ^ Zpos p * 2 ^ Zpos p * 2).
    + rewrite shr_1_exact by nia. rewrite IH by nia. apply IH, Hm.
    + replace (Zpos p~1) with (Zpos p + Zpos p + 1) by lia.
      rewrite !Z.pow_add_r by lia. change (2 ^ 1) with 2. ring.
  - assert (Hp : 0 < 2 ^ Zpos p) by (apply Z.pow_pos_nonneg; lia).
    replace (m * 2 ^ Zpos p~0) with (m * 2 ^ Zpos p * 2 ^ Zpos p).
    + rewrite IH by nia. apply IH, Hm.
    + replace (Zpos p~0) with (Zpos p + Zpos p) by lia.
      rewrite !Z.pow_add_r by lia. ring.
  - change (2 ^ 1) with 2. apply shr_1_exact, Hm.
Qed.

(** A 53-digit mantissa followed by [t] zero bits rounds to itself. *)
Lemma binary_round_aux_shift (s : bool) (q m : positive) (e t : Z) :
  0 <= t -> Zpos q = Zpos m * 2 ^ t ->
  2 ^ 52 <= Zpos m < 2 ^ 53 ->
  -1074 <= e + t <= 971 ->
  binary_round_aux prec emax s (Zpos q) e loc_Exact = S754_finite s m (e + t) /\
  valid_binary (S754_finite s m (e + t)) = true.
Proof.
  intros Ht Hq Hm He.
  assert (Hdm : Zpos (digits2_pos m) = 53)
    by (apply digits2_pos_unique; change (53 - 1) with 52; lia).
  destruct (binary_round_aux_exact s m (e + t) Hdm He) as [Hr Hv].
  split; [|exact Hv]. rewrite <- Hr.
  assert (Hs : shr_fexp prec emax (Zpos q) e loc_Exact
               = shr_fexp prec emax (Zpos m) (e + t) loc_Exact).
  { assert (Hpt : 0 < 2 ^ t) by (apply Z.pow_pos_nonneg; lia).
    assert (Hdq : Zpos (digits2_pos q) = 53 + t).
    { apply digits2_pos_unique. rewrite Hq.
      replace (2 ^ (53 + t - 1)) with (2 ^ 52 * 2 ^ t)
        by (rewrite <- Z.pow_add_r by lia; f_equal; lia).
      replace (2 ^ (53 + t)) with (2 ^ 53 * 2 ^ t)
        by (rewrite <- Z.pow_add_r by lia; f_equal; lia).
      split; [apply Z.mul_le_mono_nonneg_r | apply Z.mul_lt_mono_pos_r]; lia. }
    unfold shr_fexp, fexp, Zdigits2. rewrite Hdq, Hdm.
    change (SpecFloat.emin prec emax) with (-1074). change prec with 53.
    replace (Z.max (53 + t + e - 53) (-1074) - e) with t by lia.
    replace (Z.max (53 + (e + t) - 53) (-1074) - (e + t)) with 0 by lia.
    cbn [shr_record_of_loc]. unfold shr at 2.
    destruct t as [|p|p]; [|  | lia].
    - cbn [shr]. rewrite Z.mul_1_r in Hq. rewrite Hq, Z.add_0_r. reflexivity.
    - cbn [shr]. rewrite Hq, iter_shr_1_exact by lia. reflexivity. }
  unfold binary_round_aux. rewrite Hs. reflexivity.
Qed.

Lemma div_eucl_exact (q b : positive) :
  Z.div_eucl (Zpos q * Zpos b) (Zpos b) = (Zpos q, 0).
Proof.
  pose proof (Z.div_mul (Zpos q) (Zpos b) ltac:(lia)) as D.
  pose proof (Z.mod_mul (Zpos q) (Zpos b) ltac:(lia)) as R.
  unfold Z.div in D. unfold Z.modulo in R.
  destruct (Z.div_eucl (Zpos q * Zpos b) (Zpos b)) as [q' r].
  cbn [fst snd] in *. congruence.
Qed.

(** A quotient that is exact after the alignment shift is rounded with
    nothing lost. *)
Lemma SFdiv_exact (sa sb : bool) (a b q : positive) (ea eb e' : Z) :
  e' = Z.min (Z.max (Zpos (digits2_pos a) + ea - (Zpos (digits2_pos b) + eb) - 53)
                    (-1074)) (ea - eb) ->
  Zpos a * 2 ^ (ea - eb - e') = Zpos q * Zpos b ->
  SFdiv prec emax (S754_finite sa a ea) (S754_finite sb b eb)
  = binary_round_aux prec emax (xorb sa sb) (Zpos q) e' loc_Exact.
Proof.
  intros He Hq. unfold SFdiv, SFdiv_core_binary, Zdigits2, fexp.
  change (SpecFloat.emin prec emax) with (-1074). change prec with 53.
  rewrite <- He.
  set (s := ea - eb - e') in *.
  assert (Hs : 0 <= s) by (subst s; lia).
  assert (Hm' : match s with
                | Z0 => Zpos a
                | Zpos _ => Z.shiftl (Zpos a) s
                | Zneg _ => 0
                end = Zpos a * 2 ^ s).
  { destruct s as [|p|p] eqn:Es; [cbn; lia | | lia].
    now rewrite Z.shiftl_mul_pow2 by lia. }
  rewrite Hm', Hq, div_eucl_exact.
  replace (new_location (Zpos b) 0) with loc_Exact; [reflexivity|].
  unfold new_location, new_location_even, new_location_odd.
  now destruct (Z.even (Zpos b)).
Qed.

(** The float of a positive integer with a 53-digit mantissa [m] and an
    exponent [e]. *)
Lemma binary_round_exact (s : bool) (p m : positive) (e : Z) :
  2 ^ 52 <= Zpos m < 2 ^ 53 -> -1074 <= e <= 971 ->
  (e <= 0 -> Zpos m = Zpos p * 2 ^ (- e)) ->
  (0 <= e -> Zpos p = Zpos m * 2 ^ e) ->
  binary_round prec emax s p 0 = S754_finite s m e.
Proof.
  intros Hm He Hneg Hpos.
  assert (Hdm : Zpos (digits2_pos m) = 53)
    by (apply digits2_pos_unique; change (53 - 1) with 52; lia).
  destruct (Z.lt_ge_cases 0 e) as [Hgt | Hle].
  - assert (Hpe : 0 < 2 ^ e) by (apply Z.pow_pos_nonneg; lia).
    assert (Hdp : Zpos (digits2_pos p) = 53 + e).
    { apply digits2_pos_unique. rewrite Hpos by lia.
      replace (2 ^ (53 + e - 1)) with (2 ^ 52 * 2 ^ e)
        by (rewrite <- Z.pow_add_r by lia; f_equal; lia).
      replace (2 ^ (53 + e)) with (2 ^ 53 * 2 ^ e)
        by (rewrite <- Z.pow_add_r by lia; f_equal; lia).
      split; [apply Z.mul_le_mono_nonneg_r | apply Z.mul_lt_mono_pos_r]; lia. }
    unfold binary_round, fexp, shl_align. rewrite Hdp.
    change (SpecFloat.emin prec emax) with (-1074). change prec with 53.
    replace (Z.max (53 + e + 0 - 53) (-1074) - 0) with e by lia.
    destruct e as [|pe|pe]; try lia.
    destruct (binary_round_aux_shift s p m 0 (Zpos pe) ltac:(lia)
                (Hpos ltac:(lia)) Hm ltac:(lia)) as [Hr _].
    exact Hr.
  - specialize (Hneg Hle).
    assert (Hpe : 0 < 2 ^ (- e)) by (apply Z.pow_pos_nonneg; lia).
    assert (Hsmall : - e < 53).
    { destruct (Z.lt_ge_cases (- e) 53) as [|Hbig]; [assumption|].
      assert (2 ^ 53 <= 2 ^ (- e)) by (apply Z.pow_le_mono_r; lia). nia. }
    assert (Hdp : Zpos (digits2_pos p) = 53 + e).
    { apply digits2_pos_unique.
      assert (E1 : 2 ^ 52 = 2 ^ (53 + e - 1) * 2 ^ (- e))
        by (rewrite <- Z.pow_add_r by lia; f_equal; lia).
      assert (E2 : 2 ^ 53 = 2 ^ (53 + e) * 2 ^ (- e))
        by (rewrite <- Z.pow_add_r by lia; f_equal; lia).
      split; nia. }
    unfold binary_round, fexp, shl_align. rewrite Hdp.
    change (SpecFloat.emin prec emax) with (-1074). change prec with 53.
    replace (Z.max (53 + e + 0 - 53) (-1074) - 0) with e by lia.
    replace (Z.max (53 + e + 0 - 53) (-1074)) with e by lia.
    destruct e as [|pe|pe]; try lia.
    + change (2 ^ (- 0)) with 1 in Hneg. rewrite Z.mul_1_r in Hneg.
      injection Hneg as <-.
      now destruct (binary_round_aux_exact s m 0 Hdm ltac:(lia)).
    + assert (Hz : Zpos (Pos.iter xO p pe) = Zpos m)
        by (rewrite iter_xO_spec; cbn [Z.opp] in Hneg; lia).
      injection Hz as ->.
      now destruct (binary_round_aux_exact s m (Zneg pe) Hdm ltac:(lia)).
Qed.

(** Every positive integer below [2^53] has a 53-digit mantissa. *)
Lemma normal_mantissa (j : positive) :
  Zpos j < 2 ^ 53 ->
  exists (m : positive) (t : Z),
    0 <= t < 53 /\ Zpos m = Zpos j * 2 ^ t /\ 2 ^ 52 <= Zpos m < 2 ^ 53.
Proof.
  intros Hj. pose proof (digits2_pos_spec j) as [Hlo Hhi].
  set (d := Zpos (digits2_pos j)) in *.
  assert (Hd : 1 <= d <= 53).
  { split; [subst d; lia|].
    destruct (Z.lt_ge_cases 53 d) as [Hgt|]; [|lia].
    assert (2 ^ 53 <= 2 ^ (d - 1)) by (apply Z.pow_le_mono_r; lia). lia. }
  assert (Hp : 0 < 2 ^ (53 - d)) by (apply Z.pow_pos_nonneg; lia).
  exists (Z.to_pos (Zpos j * 2 ^ (53 - d))), (53 - d).
  rewrite Z2Pos.id by nia.
  split; [lia|]. split; [reflexivity|].
  assert (E1 : 2 ^ 52 = 2 ^ (d - 1) * 2 ^ (53 - d))
    by (rewrite <- Z.pow_add_r by lia; f_equal; lia).
  assert (E2 : 2 ^ 53 = 2 ^ d * 2 ^ (53 - d))
    by (rewrite <- Z.pow_add_r by lia; f_equal; lia).
  split; nia.
Qed.

Lemma valid_normal (s : bool) (m : positive) (e : Z) :
  2 ^ 52 <= Zpos m < 2 ^ 53 -> -1074 <= e <= 971 ->
  valid_binary (S754_finite s m e) = true.
Proof.
  intros Hm He.
  assert (Hdm : Zpos (digits2_pos m) = 53)
    by (apply digits2_pos_unique; change (53 - 1) with 52; lia).
  now destruct (binary_round_aux_exact s m e Hdm He).
Qed.

(** A zero times [1e6] rounds to the integer 0. *)
Lemma float_round_zero_e6 (z : float) :
  is_zero z = true -> float_round (z * e6)%float = Ret 0.
Proof.
  unfold is_zero. rewrite eqb_spec. change (Prim2SF zero) with (S754_zero false).
  intros Hz. unfold float_round. rewrite mul_spec, e6_spec.
  destruct (Prim2SF z) as [s | s | | s m e]; try discriminate Hz;
    try (destruct s; discriminate Hz).
  reflexivity.
Qed.


(** ** Rounding to binary64: to nearest, ties to even *)

(** One shift to the right keeps the ratio located, in units twice as
    large. *)
Lemma shr_1_locates (N U : Z) (r : shr_record) :
  0 < U -> 0 <= shr_m r -> locates N U r ->
  locates N (2 * U) (shr_1 r) /\ 0 <= shr_m (shr_1 r).
Proof.
  intros HU Hm. destruct r as [m rb sb]. unfold locates. cbn [shr_m shr_r shr_s] in *.
  intros (Hin & Hr & Hs).
  destruct m as [|[p|p|]|p]; cbn [shr_1 shr_m shr_r shr_s orb]; lia.
Qed.

Lemma iter_shr_1_locates (N : Z) (p : positive) :
  forall (U : Z) (r : shr_record),
    0 < U -> 0 <= shr_m r -> locates N U r ->
    locates N (U * 2 ^ Zpos p) (iter_pos shr_1 p r) /\
    0 <= shr_m (iter_pos shr_1 p r).
Proof.
  induction p as [p IH | p IH |]; intros U r HU Hm Hl; cbn [iter_pos].
  - assert (Hp : 0 < 2 ^ Zpos p) by (apply Z.pow_pos_nonneg; lia).
    destruct (shr_1_locates N U r HU Hm Hl) as [H1 M1].
    destruct (IH (2 * U) _ ltac:(lia) M1 H1) as [H2 M2].
    destruct (IH (2 * U * 2 ^ Zpos p) _ ltac:(nia) M2 H2) as [H3 M3].
    split; [|exact M3].
    replace (U * 2 ^ Zpos p~1) with (2 * U * 2 ^ Zpos p * 2 ^ Zpos p); [exact H3|].
    replace (Zpos p~1) with (Zpos p + Zpos p + 1) by lia.
    rewrite !Z.pow_add_r by lia. change (2 ^ 1) with 2. ring.
  - assert (Hp : 0 < 2 ^ Zpos p) by (apply Z.pow_pos_nonneg; lia).
    destruct (IH U _ HU Hm Hl) as [H2 M2].
    destruct (IH (U * 2 ^ Zpos p) _ ltac:(nia) M2 H2) as [H3 M3].
    split; [|exact M3].
    replace (U * 2 ^ Zpos p~0) with (U * 2 ^ Zpos p * 2 ^ Zpos p); [exact H3|].
    replace (Zpos p~0) with (Zpos p + Zpos p) by lia.
    rewrite !Z.pow_add_r by lia. ring.
  - change (2 ^ 1) with 2. rewrite Z.mul_comm. now apply shr_1_locates.
Qed.

(** Rounding a located ratio gives a nearest integer, the even one of
    two. *)
Lemma round_nearest_even_locates (N U : Z) (r : shr_record) :
  0 < U -> locates N U r ->
  let n := round_nearest_even (shr_m r) (loc_of_shr_record r) in
  nearest_even N U n /\ shr_m r <= n <= shr_m r + 1.
Proof.
  intros HU. destruct r as [m rb sb]. unfold locates, nearest_even.
  cbn [shr_m shr_r shr_s]. intros (Hin & Hr & Hs).
  destruct rb, sb; cbn [loc_of_shr_record round_nearest_even].
  - lia.
  - destruct (Z.even m) eqn:E.
    + lia.
    + assert (Z.even (m + 1) = true)
        by (rewrite Z.even_add, E; reflexivity).
      lia.
  - lia.
  - lia.
Qed.

(** The record that [binary_round_aux] starts from, for an exact
    mantissa. *)
Lemma locates_exact (m : Z) : locates m 1 (shr_record_of_loc m loc_Exact).
Proof. unfold locates. cbn. lia. Qed.

(** The first shift of [binary_round_aux] in the normal range keeps the
    ratio located. *)
Lemma shr_fexp_locates (mx : positive) (ex : Z) (lx : location) (N U : Z) :
  0 < U ->
  locates N U (shr_record_of_loc (Zpos mx) lx) ->
  53 <= Zpos (digits2_pos mx) ->
  -1074 <= Zpos (digits2_pos mx) + ex - 53 ->
  exists r1,
    shr_fexp prec emax (Zpos mx) ex lx = (r1, Zpos (digits2_pos mx) + ex - 53) /\
    locates N (U * 2 ^ (Zpos (digits2_pos mx) - 53)) r1 /\
    2 ^ 52 <= shr_m r1 < 2 ^ 53.
Proof.
  intros HU Hl Hd He.
  pose proof (shr_fexp_normal mx ex lx Hd He) as Hn.
  set (d := Zpos (digits2_pos mx)) in *.
  unfold shr_fexp, fexp, shr, Zdigits2 in *. fold d in Hn |- *.
  change (SpecFloat.emin prec emax) with (-1074) in *. change prec with 53 in *.
  replace (Z.max (d + ex - 53) (-1074) - ex) with (d - 53) in * by lia.
  assert (Hm0 : 0 <= shr_m (shr_record_of_loc (Zpos mx) lx))
    by (destruct lx as [|[]]; cbn; lia).
  destruct (d - 53) as [|p|p] eqn:Ep; try lia.
  - eexists. split; [f_equal; lia|]. split; [|exact (proj2 Hn)].
    change (2 ^ 0) with 1. now rewrite Z.mul_1_r.
  - destruct (iter_shr_1_locates N p U _ HU Hm0 Hl) as [H1 _].
    eexists. split; [f_equal; lia|]. split; [exact H1 | exact (proj2 Hn)].
Qed.

(** The end of [binary_round_aux]: a rounded mantissa of 53 digits is
    kept, and [2^53], reached by a carry, becomes [2^52] one exponent
    higher. *)
Lemma round_tail (s : bool) (n e1 : Z) :
  2 ^ 52 <= n <= 2 ^ 53 -> -1074 <= e1 <= 970 ->
  exists (m : positive) (e : Z),
    (let '(r2, e2) := shr_fexp prec emax n e1 loc_Exact in
     match shr_m r2 with
     | Z0 => S754_zero s
     | Zpos m => if e2 <=? emax - prec then S754_finite s m e2 else S754_infinity s
     | Zneg _ => S754_nan
     end) = S754_finite s m e /\
    2 ^ 52 <= Zpos m < 2 ^ 53 /\
    (e = e1 \/ e = e1 + 1) /\
    Zpos m * 2 ^ (e - e1) = n.
Proof.
  intros Hn He. destruct n as [|q|q]; try lia.
  destruct (Z.eq_dec (Zpos q) (2 ^ 53)) as [E | Hne].
  - injection E as ->.
    unfold shr_fexp, fexp, Zdigits2.
    change (Zpos (digits2_pos 9007199254740992)) with 54.
    change (SpecFloat.emin prec emax) with (-1074). change prec with 53.
    replace (Z.max (54 + e1 - 53) (-1074) - e1) with 1 by lia.
    cbn [shr shr_record_of_loc iter_pos shr_1 shr_m]. change (emax - 53) with 971.
    replace (e1 + 1 <=? 971) with true by lia.
    exists 4503599627370496%positive, (e1 + 1).
    split; [reflexivity|]. split; [lia|]. split; [right; reflexivity|].
    replace (e1 + 1 - e1) with 1 by lia. reflexivity.
  - assert (Hd : Zpos (digits2_pos q) = 53)
      by (apply digits2_pos_unique; change (53 - 1) with 52; lia).
    unfold shr_fexp, fexp, Zdigits2. rewrite Hd.
    change (SpecFloat.emin prec emax) with (-1074). change prec with 53.
    replace (Z.max (53 + e1 - 53) (-1074) - e1) with 0 by lia.
    cbn [shr shr_record_of_loc shr_m]. change (emax - 53) with 971.
    replace (e1 <=? 971) with true by lia.
    exists q, e1. split; [reflexivity|]. split; [lia|]. split; [left; reflexivity|].
    rewrite Z.sub_diag. change (2 ^ 0) with 1. lia.
Qed.

(** Rounding a located ratio in the normal range: the mantissa of the
    result, at the exponent of the first shift, is a nearest integer, the
    even one of two. *)
Lemma binary_round_aux_nearest
  (s : bool) (mx : positive) (ex : Z) (lx : location) (N U : Z) :
  0 < U ->
  locates N U (shr_record_of_loc (Zpos mx) lx) ->
  let d := Zpos (digits2_pos mx) in
  53 <= d -> -1074 <= d + ex - 53 -> d + ex <= 1023 ->
  exists (m : positive) (e n : Z),
    binary_round_aux prec emax s (Zpos mx) ex lx = S754_finite s m e /\
    2 ^ 52 <= Zpos m < 2 ^ 53 /\
    -1074 <= e <= 971 /\
    (e = d + ex - 53 \/ e = d + ex - 52) /\
    Zpos m * 2 ^ (e - (d + ex - 53)) = n /\
    nearest_even N (U * 2 ^ (d - 53)) n /\
    2 ^ 52 * (U * 2 ^ (d - 53)) <= N.
Proof.
  intros HU Hl d Hd Hlo Hhi.
  destruct (shr_fexp_locates mx ex lx N U HU Hl Hd Hlo) as (r1 & Hs & Hl1 & Hm1).
  fold d in Hs, Hl1.
  assert (HU' : 0 < U * 2 ^ (d - 53))
    by (apply Z.mul_pos_pos; [exact HU | apply Z.pow_pos_nonneg; lia]).
  destruct (round_nearest_even_locates N _ r1 HU' Hl1) as [Hne Hn].
  set (n := round_nearest_even (shr_m r1) (loc_of_shr_record r1)) in *.
  destruct (round_tail s n (d + ex - 53) ltac:(lia) ltac:(lia))
    as (m & e & Ht & Hm & He & Hv).
  exists m, e, n. unfold binary_round_aux. rewrite Hs. fold n.
  split; [exact Ht|]. split; [exact Hm|]. split; [lia|].
  split; [lia|]. split; [exact Hv|]. split; [exact Hne|].
  destruct Hl1 as (Hin & _). nia.
Qed.

(** ** The value of a rounded float *)

Section RealValues.
Local Open Scope R_scope.

Lemma pow2_pos (e : Z) : 0 < powerRZ 2 e.
Proof. apply powerRZ_lt. lra. Qed.

Lemma pow2_add (a b : Z) : powerRZ 2 (a + b) = powerRZ 2 a * powerRZ 2 b.
Proof. apply powerRZ_add. lra. Qed.

Lemma pow2_IZR (k : Z) : (0 <= k)%Z -> IZR (2 ^ k) = powerRZ 2 k.
Proof.
  intros Hk. rewrite <- (Z2Nat.id k Hk) at 1.
  rewrite <- pow_IZR, pow_powerRZ, Z2Nat.id by exact Hk. reflexivity.
Qed.

Lemma pow2_sub (a b : Z) : powerRZ 2 (a - b) = powerRZ 2 a / powerRZ 2 b.
Proof.
  unfold Z.sub. rewrite pow2_add, powerRZ_neg'. reflexivity.
Qed.

Lemma pow2_le (a b : Z) : (a <= b)%Z -> powerRZ 2 a <= powerRZ 2 b.
Proof.
  intros H. replace b with (a + (b - a))%Z by lia. rewrite pow2_add.
  rewrite <- (pow2_IZR (b - a)) by lia.
  assert (1 <= IZR (2 ^ (b - a))).
  { apply IZR_le. pose proof (Z.pow_pos_nonneg 2 (b - a)). lia. }
  pose proof (pow2_pos a). nra.
Qed.

(** The value of the result of [binary_round_aux_nearest]: within half a
    unit in the last place, and within [2^-53] of the ratio, relatively. *)
Lemma nearest_value (m : positive) (e e1 ex n N U : Z) :
  (0 < U)%Z -> (ex <= e1 <= e)%Z ->
  (Zpos m * 2 ^ (e - e1) = n)%Z ->
  nearest_even N (U * 2 ^ (e1 - ex)) n ->
  (2 ^ 52 * (U * 2 ^ (e1 - ex)) <= N)%Z ->
  let X := IZR N / IZR U * powerRZ 2 ex in
  let V := IZR (Zpos m) * powerRZ 2 e in
  0 < X /\ Rabs (V - X) <= powerRZ 2 e1 / 2 /\ Rabs (V - X) <= X / IZR (2 ^ 53).
Proof.
  intros HU He Hv [Hne _] Hbig X V.
  assert (Pk : (0 < 2 ^ (e1 - ex))%Z) by (apply Z.pow_pos_nonneg; lia).
  set (U' := (U * 2 ^ (e1 - ex))%Z) in *.
  assert (HU' : (0 < U')%Z) by (subst U'; nia).
  assert (Hu : 0 < IZR U) by (apply IZR_lt; exact HU).
  assert (Hu' : 0 < IZR U') by (apply IZR_lt; exact HU').
  pose proof (pow2_pos e1) as P1. pose proof (pow2_pos ex) as Px.
  assert (EV : V = IZR n * powerRZ 2 e1).
  { subst V. rewrite <- Hv, mult_IZR, pow2_IZR by lia.
    rewrite Rmult_assoc, <- pow2_add. do 2 f_equal. lia. }
  assert (EX : X = IZR N / IZR U' * powerRZ 2 e1).
  { subst X U'. rewrite mult_IZR, pow2_IZR by lia.
    assert (E : powerRZ 2 e1 = powerRZ 2 ex * powerRZ 2 (e1 - ex))
      by (rewrite <- pow2_add; f_equal; lia).
    rewrite E. pose proof (pow2_pos (e1 - ex)). field. split; lra. }
  assert (Hd : - IZR U' <= 2 * (IZR n * IZR U' - IZR N) <= IZR U').
  { rewrite <- mult_IZR, <- minus_IZR, <- opp_IZR. change 2 with (IZR 2).
    rewrite <- mult_IZR. split; apply IZR_le; lia. }
  assert (Hb : IZR (2 ^ 52) * IZR U' <= IZR N)
    by (rewrite <- mult_IZR; apply IZR_le; exact Hbig).
  set (q := IZR N / IZR U') in *.
  assert (Eq : IZR N = q * IZR U') by (subst q; field; lra).
  rewrite Eq in Hd, Hb.
  assert (Hq : - (1 / 2) <= IZR n - q <= 1 / 2) by (split; nra).
  assert (Hq52 : IZR (2 ^ 52) <= q) by nra.
  assert (H52 : 0 < IZR (2 ^ 52)) by (apply IZR_lt; reflexivity).
  rewrite EV, EX.
  replace (IZR n * powerRZ 2 e1 - q * powerRZ 2 e1)
    with ((IZR n - q) * powerRZ 2 e1) by ring.
  assert (Hhalf : Rabs ((IZR n - q) * powerRZ 2 e1) <= powerRZ 2 e1 / 2).
  { apply Rabs_le. split; nra. }
  split; [nra|]. split; [exact Hhalf|].
  apply Rle_trans with (1 := Hhalf).
  replace (IZR (2 ^ 53)) with (2 * IZR (2 ^ 52))
    by (change 2 with (IZR 2) at 1; rewrite <- mult_IZR; reflexivity).
  apply Rmult_le_reg_r with (2 * IZR (2 ^ 52)); [lra|].
  field_simplify; [|lra]. nra.
Qed.

End RealValues.

(** ** Division *)

(** The location that the division computes from its remainder. *)
Lemma new_location_locates (N b q r : Z) :
  0 < b -> N = b * q + r -> 0 <= r < b ->
  locates N b (shr_record_of_loc q (new_location b r)).
Proof.
  intros Hb -> Hr. unfold new_location, new_location_even, new_location_odd.
  pose proof (Zmod_even b) as Hev.
  assert (E1 : (q + 1) * b = b * q + b) by ring.
  assert (E2 : (2 * q + 1) * b = 2 * (b * q) + b) by ring.
  assert (E3 : (2 * q + 0) * b = 2 * (b * q)) by ring.
  assert (E4 : q * b = b * q) by ring.
  destruct (Z.even b).
  - destruct (r =? 0) eqn:E0.
    + unfold locates. cbn [shr_record_of_loc shr_m shr_r shr_s]. rewrite E1, E2, E3, E4. lia.
    + destruct (Z.compare_spec (2 * r) b) as [E | E | E];
        unfold locates; cbn [shr_record_of_loc shr_m shr_r shr_s]; rewrite E1, E2, ?E3, E4; lia.
  - destruct (r =? 0) eqn:E0.
    + unfold locates. cbn [shr_record_of_loc shr_m shr_r shr_s]. rewrite E1, E2, E3, E4. lia.
    + assert (Hodd : b = 2 * (b / 2) + 1)
        by (pose proof (Z.div_mod b 2 ltac:(lia)); lia).
      destruct (Z.compare_spec (2 * r + 1) b) as [E | E | E];
        unfold locates; cbn [shr_record_of_loc shr_m shr_r shr_s]; rewrite E1, E2, ?E3, E4; lia.
Qed.

(** The quotient of two positive integers of comparable size is the
    ratio rounded to nearest: a normal float within [2^-53] of it,
    relatively. *)
Lemma SFdiv_int_nearest (sa sb : bool) (a b : positive) :
  let d1 := Zpos (digits2_pos a) in
  let d2 := Zpos (digits2_pos b) in
  -1021 <= d1 - d2 <= 53 ->
  exists m e,
    SFdiv prec emax (S754_finite sa a 0) (S754_finite sb b 0)
    = S754_finite (xorb sa sb) m e /\
    2 ^ 52 <= Zpos m < 2 ^ 53 /\
    d1 - d2 <= 53 + e <= d1 - d2 + 2 /\
    (Rabs (IZR (Zpos m) * powerRZ 2 e - IZR (Zpos a) / IZR (Zpos b))
     <= IZR (Zpos a) / IZR (Zpos b) / IZR (2 ^ 53))%R.
Proof.
  intros d1 d2 Hd.
  pose proof (digits2_pos_spec a) as [Ha1 Ha2]. fold d1 in Ha1, Ha2.
  pose proof (digits2_pos_spec b) as [Hb1 Hb2]. fold d2 in Hb1, Hb2.
  assert (0 < d1 /\ 0 < d2) as [Hd1 Hd2] by (subst d1 d2; lia).
  unfold SFdiv, SFdiv_core_binary, Zdigits2, fexp. fold d1 d2.
  change (SpecFloat.emin prec emax) with (-1074). change prec with 53.
  replace (Z.min (Z.max (d1 + 0 - (d2 + 0) - 53) (-1074)) (0 - 0))
    with (d1 - d2 - 53) by lia.
  replace (0 - 0 - (d1 - d2 - 53)) with (53 + d2 - d1) by lia.
  set (s := 53 + d2 - d1).
  assert (Hs : 0 <= s) by (subst s; lia).
  assert (Hm' : match s with
                | Z0 => Zpos a
                | Zpos _ => Z.shiftl (Zpos a) s
                | Zneg _ => 0
                end = Zpos a * 2 ^ s).
  { destruct s as [|p|p] eqn:Es; [cbn; lia | | lia].
    now rewrite Z.shiftl_mul_pow2 by lia. }
  rewrite Hm'. clear Hm'.
  assert (Hps : 0 < 2 ^ s) by (apply Z.pow_pos_nonneg; lia).
  assert (Hlo : 2 ^ 52 * 2 ^ d2 <= Zpos a * 2 ^ s).
  { replace (2 ^ 52 * 2 ^ d2) with (2 ^ (d1 - 1) * 2 ^ s).
    - apply Z.mul_le_mono_nonneg_r; lia.
    - rewrite <- !Z.pow_add_r by lia. f_equal. subst s. lia. }
  assert (Hhi : Zpos a * 2 ^ s < 2 ^ 54 * 2 ^ (d2 - 1)).
  { replace (2 ^ 54 * 2 ^ (d2 - 1)) with (2 ^ d1 * 2 ^ s).
    - apply Z.mul_lt_mono_pos_r; lia.
    - rewrite <- !Z.pow_add_r by lia. f_equal. subst s. lia. }
  pose proof (Z.div_eucl_eq (Zpos a * 2 ^ s) (Zpos b) ltac:(lia)) as Hdiv.
  pose proof (Z.mod_pos_bound (Zpos a * 2 ^ s) (Zpos b) ltac:(lia)) as Hmod.
  unfold Z.modulo in Hmod.
  destruct (Z.div_eucl (Zpos a * 2 ^ s) (Zpos b)) as [q r].
  assert (Hq : 2 ^ 52 <= q < 2 ^ 54).
  { assert (0 < 2 ^ d2) by (apply Z.pow_pos_nonneg; lia).
    assert (0 < 2 ^ (d2 - 1)) by (apply Z.pow_pos_nonneg; lia).
    split; [|nia].
    destruct (Z.lt_ge_cases q (2 ^ 52)) as [Hlt|]; [|assumption].
    assert (Zpos b * q + r < Zpos b * 2 ^ 52) by nia. nia. }
  destruct q as [|q|q]; try lia.
  assert (Hdq : Zpos (digits2_pos q) = 53 \/ Zpos (digits2_pos q) = 54).
  { destruct (Z.lt_ge_cases (Zpos q) (2 ^ 53)).
    - left. apply digits2_pos_unique. change (53 - 1) with 52. lia.
    - right. apply digits2_pos_unique. change (54 - 1) with 53. lia. }
  pose proof (new_location_locates _ (Zpos b) (Zpos q) r ltac:(lia) Hdiv Hmod) as Hloc.
  destruct (binary_round_aux_nearest (xorb sa sb) q (d1 - d2 - 53)
              (new_location (Zpos b) r) _ (Zpos b) ltac:(lia) Hloc
              ltac:(lia) ltac:(lia) ltac:(lia))
    as (m & e & n & Hr & Hm & He & Hee & Hv & Hne & Hbig).
  set (dq := Zpos (digits2_pos q)) in *.
  exists m, e. change prec with 53 in Hr. rewrite Hr.
  split; [reflexivity|]. split; [exact Hm|]. split; [lia|].
  destruct (nearest_value m e (dq + (d1 - d2 - 53) - 53) (d1 - d2 - 53) n
              (Zpos a * 2 ^ s) (Zpos b) ltac:(lia) ltac:(lia) Hv)
    as (_ & _ & Hrel).
  - replace (dq + (d1 - d2 - 53) - 53 - (d1 - d2 - 53)) with (dq - 53) by lia.
    exact Hne.
  - replace (dq + (d1 - d2 - 53) - 53 - (d1 - d2 - 53)) with (dq - 53) by lia.
    exact Hbig.
  - replace (IZR (Zpos a * 2 ^ s) / IZR (Zpos b) * powerRZ 2 (d1 - d2 - 53))%R
      with (IZR (Zpos a) / IZR (Zpos b))%R in Hrel; [exact Hrel|].
    rewrite mult_IZR, pow2_IZR by lia.
    replace (d1 - d2 - 53) with (- s) by (subst s; lia).
    rewrite powerRZ_neg'. pose proof (pow2_pos s).
    assert (0 < IZR (Zpos b))%R by (apply IZR_lt; lia).
    field. split; lra.
Qed.

(** ** Multiplication *)

(** The product of two normal floats is the exact product rounded to
    nearest, as long as it stays in the normal range. *)
Lemma SFmul_nearest (s1 s2 : bool) (m1 m2 : positive) (e1 e2 : Z) :
  2 ^ 52 <= Zpos m1 < 2 ^ 53 -> 2 ^ 52 <= Zpos m2 < 2 ^ 53 ->
  -1126 <= e1 + e2 <= 917 ->
  exists m e,
    SFmul prec emax (S754_finite s1 m1 e1) (S754_finite s2 m2 e2)
    = S754_finite (xorb s1 s2) m e /\
    2 ^ 52 <= Zpos m < 2 ^ 53 /\
    e1 + e2 + 52 <= e <= e1 + e2 + 54 /\
    (Rabs (IZR (Zpos m) * powerRZ 2 e
           - IZR (Zpos m1) * powerRZ 2 e1 * (IZR (Zpos m2) * powerRZ 2 e2))
     <= IZR (Zpos m1) * powerRZ 2 e1 * (IZR (Zpos m2) * powerRZ 2 e2) / IZR (2 ^ 53))%R.
Proof.
  intros H1 H2 He. unfold SFmul.
  set (p := (m1 * m2)%positive).
  assert (Hp : 2 ^ 104 <= Zpos p < 2 ^ 106).
  { subst p. rewrite Pos2Z.inj_mul.
    change (2 ^ 104) with (2 ^ 52 * 2 ^ 52). change (2 ^ 106) with (2 ^ 53 * 2 ^ 53).
    nia. }
  assert (Hdp : Zpos (digits2_pos p) = 105 \/ Zpos (digits2_pos p) = 106).
  { destruct (Z.lt_ge_cases (Zpos p) (2 ^ 105)).
    - left. apply digits2_pos_unique. change (105 - 1) with 104. lia.
    - right. apply digits2_pos_unique. change (106 - 1) with 105. lia. }
  destruct (binary_round_aux_nearest (xorb s1 s2) p (e1 + e2) loc_Exact
              (Zpos p) 1 ltac:(lia) (locates_exact _)
              ltac:(lia) ltac:(lia) ltac:(lia))
    as (m & e & n & Hr & Hm & Hev & Hee & Hv & Hne & Hbig).
  set (d := Zpos (digits2_pos p)) in *.
  exists m, e. rewrite Hr.
  split; [reflexivity|]. split; [exact Hm|]. split; [lia|].
  destruct (nearest_value m e (d + (e1 + e2) - 53) (e1 + e2) n
              (Zpos p) 1 ltac:(lia) ltac:(lia) Hv)
    as (_ & _ & Hrel).
  - replace (d + (e1 + e2) - 53 - (e1 + e2)) with (d - 53) by lia. exact Hne.
  - replace (d + (e1 + e2) - 53 - (e1 + e2)) with (d - 53) by lia. exact Hbig.
  - replace (IZR (Zpos p) / IZR 1 * powerRZ 2 (e1 + e2))%R
      with (IZR (Zpos m1) * powerRZ 2 e1 * (IZR (Zpos m2) * powerRZ 2 e2))%R in Hrel;
      [exact Hrel|].
    subst p. rewrite Pos2Z.inj_mul, mult_IZR, pow2_add. field.
Qed.

Section Signs.
Local Open Scope R_scope.

Lemma IZR_cond_Zopp (s : bool) (z : Z) :
  IZR (cond_Zopp s z) = (if s then -1 else 1) * IZR z.
Proof. destruct s; cbn [cond_Zopp]; [rewrite opp_IZR|]; ring. Qed.

(** Two numbers of the same sign are as far apart as their absolute
    values. *)
Lemma Rabs_signed (s : bool) (v x : R) :
  Rabs ((if s then -1 else 1) * v - (if s then -1 else 1) * x) = Rabs (v - x).
Proof.
  destruct s.
  - replace (-1 * v - -1 * x) with (- (v - x)) by ring. apply Rabs_Ropp.
  - f_equal. ring.
Qed.

Lemma Rabs_bounds (x y : R) : Rabs x <= y -> - y <= x <= y.
Proof. unfold Rabs. destruct (Rcase_abs x); lra. Qed.

End Signs.

(** The product of two regular floats: regular, and within [2^-53] of
    the exact product, relatively. *)
Lemma SFmul_regular (L1 M1 L2 M2 : Z) (x y : spec_float) :
  regular L1 M1 x -> regular L2 M2 y ->
  -1126 <= L1 + L2 -> M1 + M2 <= 1023 ->
  regular (L1 + L2 + 52) (M1 + M2 + 1) (SFmul prec emax x y) /\
  (Rabs (SF2R (SFmul prec emax x y) - SF2R x * SF2R y)
   <= Rabs (SF2R x * SF2R y) / IZR (2 ^ 53))%R.
Proof.
  intros Hx Hy HL HM.
  assert (H0 : (Rabs (0 - 0) <= Rabs 0 / IZR (2 ^ 53))%R).
  { replace (0 - 0)%R with 0%R by ring. rewrite Rabs_R0.
    unfold Rdiv. rewrite Rmult_0_l. apply Rle_refl. }
  destruct x as [s1 | s1 | | s1 m1 e1], y as [s2 | s2 | | s2 m2 e2];
    cbn [regular] in Hx, Hy; try contradiction.
  - cbn [SFmul regular SF2R]. rewrite Rmult_0_l. split; [exact I | exact H0].
  - cbn [SFmul regular SF2R]. rewrite Rmult_0_l. split; [exact I | exact H0].
  - cbn [SFmul regular SF2R]. rewrite Rmult_0_r. split; [exact I | exact H0].
  - destruct Hx as (Hm1 & Hl1 & Hh1), Hy as (Hm2 & Hl2 & Hh2).
    destruct (SFmul_nearest s1 s2 m1 m2 e1 e2 Hm1 Hm2 ltac:(lia))
      as (m & e & Hr & Hm & He & Hrel).
    rewrite Hr. cbn [regular SF2R]. split; [lia|].
    rewrite !IZR_cond_Zopp.
    set (v := (IZR (Zpos m) * powerRZ 2 e)%R) in *.
    set (p := (IZR (Zpos m1) * powerRZ 2 e1 * (IZR (Zpos m2) * powerRZ 2 e2))%R) in *.
    assert (Hp : (0 <= p)%R).
    { subst p. pose proof (pow2_pos e1). pose proof (pow2_pos e2).
      assert (0 < IZR (Zpos m1))%R by (apply IZR_lt; lia).
      assert (0 < IZR (Zpos m2))%R by (apply IZR_lt; lia).
      apply Rmult_le_pos; apply Rmult_le_pos; lra. }
    replace ((if xorb s1 s2 then -1 else 1) * IZR (Zpos m) * powerRZ 2 e)%R
      with ((if xorb s1 s2 then -1 else 1) * v)%R by (subst v; ring).
    replace ((if s1 then -1 else 1) * IZR (Zpos m1) * powerRZ 2 e1
             * ((if s2 then -1 else 1) * IZR (Zpos m2) * powerRZ 2 e2))%R
      with ((if xorb s1 s2 then -1 else 1) * p)%R
      by (subst p; destruct s1, s2; cbn [xorb]; ring).
    rewrite Rabs_signed.
    replace (Rabs ((if xorb s1 s2 then -1 else 1) * p)) with p; [exact Hrel|].
    destruct (xorb s1 s2).
    + replace (-1 * p)%R with (- p)%R by ring.
      rewrite Rabs_Ropp, Rabs_pos_eq; [reflexivity | exact Hp].
    + rewrite Rmult_1_l, Rabs_pos_eq; [reflexivity | exact Hp].
Qed.

(** ** Addition and subtraction *)

(** A canonical mantissa is not rounded. *)
Lemma binary_round_aux_canonical (s : bool) (m : positive) (e : Z) :
  canonical_mantissa prec emax m e = true -> e <= 971 ->
  binary_round_aux prec emax s (Zpos m) e loc_Exact = S754_finite s m e.
Proof.
  unfold canonical_mantissa. intros Hc He. apply Z.eqb_eq in Hc.
  unfold binary_round_aux, shr_fexp, Zdigits2. rewrite Hc, Z.sub_diag.
  cbn [shr shr_record_of_loc shr_m loc_of_shr_record round_nearest_even].
  rewrite Hc, Z.sub_diag. cbn [shr shr_m].
  change (emax - prec) with 971. now replace (e <=? 971) with true by lia.
Qed.

Lemma digits2_pos_le (m : positive) (k : Z) :
  0 <= k -> Zpos m < 2 ^ k -> Zpos (digits2_pos m) <= k.
Proof.
  intros Hk Hm. pose proof (digits2_pos_spec m) as [Hlo _].
  destruct (Z.le_gt_cases (Zpos (digits2_pos m)) k) as [|Hgt]; [assumption|].
  assert (2 ^ k <= 2 ^ (Zpos (digits2_pos m) - 1)) by (apply Z.pow_le_mono_r; lia).
  lia.
Qed.

Lemma digits2_pos_shift (m : positive) (k : positive) :
  Zpos (digits2_pos (Pos.iter xO m k)) = Zpos (digits2_pos m) + Zpos k.
Proof.
  pose proof (digits2_pos_spec m) as [Hlo Hhi].
  assert (Hk : 0 < 2 ^ Zpos k) by (apply Z.pow_pos_nonneg; lia).
  apply digits2_pos_unique. rewrite iter_xO_spec.
  replace (Zpos (digits2_pos m) + Zpos k - 1)
    with (Zpos (digits2_pos m) - 1 + Zpos k) by lia.
  rewrite !Z.pow_add_r by lia. nia.
Qed.

(** An integer mantissa at an exponent that a float can have is rounded
    to nearest, and not at all when it has 53 digits or less. *)
Lemma binary_round_nearest (s : bool) (M : positive) (ez : Z) :
  -1074 <= ez -> Zpos (digits2_pos M) + ez <= 1023 ->
  exists m e,
    binary_round prec emax s M ez = S754_finite s m e /\
    Zpos (digits2_pos m) + e <= Zpos (digits2_pos M) + ez + 1 /\
    (Rabs (IZR (Zpos m) * powerRZ 2 e - IZR (Zpos M) * powerRZ 2 ez)
     <= IZR (Zpos M) * powerRZ 2 ez / IZR (2 ^ 53))%R.
Proof.
  intros Hez Hmag. set (d := Zpos (digits2_pos M)) in *.
  assert (Hd : 1 <= d) by (subst d; lia).
  assert (Hpos : (0 <= IZR (Zpos M) * powerRZ 2 ez / IZR (2 ^ 53))%R).
  { pose proof (pow2_pos ez). assert (0 < IZR (Zpos M))%R by (apply IZR_lt; lia).
    assert (0 < IZR (2 ^ 53))%R by (apply IZR_lt; reflexivity).
    apply Rmult_le_pos; [apply Rmult_le_pos; lra|].
    apply Rlt_le, Rinv_0_lt_compat. assumption. }
  unfold binary_round. fold d.
  destruct (Z.le_gt_cases d 53) as [Hsmall | Hbig].
  - (* at most 53 digits: aligned, then kept *)
    set (f := fexp prec emax (d + ez)).
    assert (Hf : f = Z.max (d + ez - 53) (-1074)) by reflexivity.
    assert (Hfe : f <= ez) by lia.
    unfold shl_align.
    destruct (f - ez) as [|k|k] eqn:Ek; try lia.
    + assert (f = ez) by lia.
      rewrite binary_round_aux_canonical.
      * exists M, ez. split; [reflexivity|]. split; [fold d; lia|].
        replace (_ - _)%R with 0%R by ring. rewrite Rabs_R0. exact Hpos.
      * unfold canonical_mantissa. fold d. fold f. apply Z.eqb_eq. lia.
      * lia.
    + rewrite binary_round_aux_canonical.
      * exists (Pos.iter xO M k), f. split; [reflexivity|].
        rewrite digits2_pos_shift. fold d. split; [lia|].
        replace (IZR (Zpos (Pos.iter xO M k)) * powerRZ 2 f)%R
          with (IZR (Zpos M) * powerRZ 2 ez)%R.
        -- replace (_ - _)%R with 0%R by ring. rewrite Rabs_R0. exact Hpos.
        -- rewrite iter_xO_spec, mult_IZR, pow2_IZR by lia.
           rewrite Rmult_assoc, <- pow2_add. do 2 f_equal. lia.
      * unfold canonical_mantissa. rewrite digits2_pos_shift. fold d.
        replace (d + Zpos k + f) with (d + ez) by lia. fold f. apply Z.eqb_refl.
      * lia.
  - (* more than 53 digits: rounded *)
    assert (Hf : fexp prec emax (d + ez) = d + ez - 53)
      by (unfold fexp; change (SpecFloat.emin prec emax) with (-1074);
          change prec with 53; lia).
    rewrite Hf. unfold shl_align.
    destruct (d + ez - 53 - ez) as [|k|k] eqn:Ek; try lia.
    destruct (binary_round_aux_nearest s M ez loc_Exact (Zpos M) 1
                ltac:(lia) (locates_exact _)
                ltac:(fold d; lia) ltac:(fold d; lia) ltac:(fold d; lia))
      as (m & e & n & Hr & Hm & Hev & Hee & Hv & Hne & Hb).
    fold d in Hee, Hv, Hne, Hb.
    exists m, e. split; [exact Hr|].
    assert (Hdm : Zpos (digits2_pos m) = 53)
      by (apply digits2_pos_unique; change (53 - 1) with 52; lia).
    split; [lia|].
    destruct (nearest_value m e (d + ez - 53) ez n (Zpos M) 1
                ltac:(lia) ltac:(lia) Hv) as (_ & _ & Hrel).
    + replace (d + ez - 53 - ez) with (d - 53) by lia. exact Hne.
    + replace (d + ez - 53 - ez) with (d - 53) by lia. exact Hb.
    + replace (IZR (Zpos M) / IZR 1 * powerRZ 2 ez)%R
        with (IZR (Zpos M) * powerRZ 2 ez)%R in Hrel by field.
      exact Hrel.
Qed.

Lemma valid_finite (s : bool) (m : positive) (e : Z) :
  valid_binary (S754_finite s m e) = true ->
  -1074 <= e <= 971 /\ Zpos (digits2_pos m) <= 53.
Proof.
  cbn [SpecFloat.valid_binary]. unfold bounded, canonical_mantissa, fexp.
  change (SpecFloat.emin prec emax) with (-1074). change prec with 53.
  change (emax - 53) with 971. lia.
Qed.

Lemma shl_align_value (m : positive) (e ez : Z) :
  ez <= e -> Zpos (fst (shl_align m e ez)) = Zpos m * 2 ^ (e - ez).
Proof.
  intros He. unfold shl_align.
  destruct (ez - e) as [|k|k] eqn:Ek; try lia; cbn [fst].
  - replace (e - ez) with 0 by lia. change (2 ^ 0) with 1. lia.
  - rewrite iter_xO_spec. do 2 f_equal. lia.
Qed.

Lemma below_le (K K' : Z) (x : spec_float) : K <= K' -> below K x -> below K' x.
Proof. destruct x; cbn [below]; lia. Qed.

(** An integer at an exponent that a float can have, normalised: the
    result is that number rounded to nearest. *)
Lemma binary_normalize_nearest (M ez K : Z) :
  -1074 <= ez -> ez <= K -> Z.abs M < 2 ^ (K - ez) -> K <= 1023 ->
  below (K + 1) (binary_normalize prec emax M ez false) /\
  (Rabs (SF2R (binary_normalize prec emax M ez false) - IZR M * powerRZ 2 ez)
   <= Rabs (IZR M * powerRZ 2 ez) / IZR (2 ^ 53))%R.
Proof.
  intros Hez HK HM HK'.
  assert (H53 : (0 < IZR (2 ^ 53))%R) by (apply IZR_lt; reflexivity).
  destruct M as [|p|p]; cbn [binary_normalize].
  - cbn [below SF2R]. split; [exact I|].
    rewrite Rmult_0_l, Rminus_0_r, Rabs_R0. unfold Rdiv. rewrite Rmult_0_l. lra.
  - assert (Hd : Zpos (digits2_pos p) <= K - ez)
      by (apply digits2_pos_le; lia).
    destruct (binary_round_nearest false p ez Hez ltac:(lia))
      as (m & e & Hr & Hmag & Hrel).
    rewrite Hr. cbn [below SF2R cond_Zopp]. split; [lia|].
    rewrite (Rabs_pos_eq (IZR (Zpos p) * powerRZ 2 ez)); [exact Hrel|].
    pose proof (pow2_pos ez). assert (0 < IZR (Zpos p))%R by (apply IZR_lt; lia).
    apply Rmult_le_pos; lra.
  - assert (Hd : Zpos (digits2_pos p) <= K - ez)
      by (apply digits2_pos_le; lia).
    destruct (binary_round_nearest true p ez Hez ltac:(lia))
      as (m & e & Hr & Hmag & Hrel).
    rewrite Hr. cbn [below SF2R cond_Zopp]. split; [lia|].
    change (Zneg p) with (- Zpos p). change (Zneg m) with (- Zpos m).
    rewrite !opp_IZR.
    replace (- IZR (Zpos m) * powerRZ 2 e - - IZR (Zpos p) * powerRZ 2 ez)%R
      with (- (IZR (Zpos m) * powerRZ 2 e - IZR (Zpos p) * powerRZ 2 ez))%R by ring.
    replace (- IZR (Zpos p) * powerRZ 2 ez)%R
      with (- (IZR (Zpos p) * powerRZ 2 ez))%R by ring.
    rewrite !Rabs_Ropp. rewrite (Rabs_pos_eq (IZR (Zpos p) * powerRZ 2 ez)); [exact Hrel|].
    pose proof (pow2_pos ez). assert (0 < IZR (Zpos p))%R by (apply IZR_lt; lia).
    apply Rmult_le_pos; lra.
Qed.

Lemma Rabs_exact (v : R) : (Rabs (v - v) <= Rabs v / IZR (2 ^ 53))%R.
Proof.
  assert (H53 : (0 < IZR (2 ^ 53))%R) by (apply IZR_lt; reflexivity).
  replace (v - v)%R with 0%R by ring. rewrite Rabs_R0.
  apply Rmult_le_pos; [apply Rabs_pos | apply Rlt_le, Rinv_0_lt_compat, H53].
Qed.

(** The value of a mantissa aligned to a lower exponent. *)
Lemma aligned_value (s : bool) (m : positive) (e ez : Z) :
  ez <= e ->
  (IZR (cond_Zopp s (Zpos (fst (shl_align m e ez)))) * powerRZ 2 ez
   = IZR (cond_Zopp s (Zpos m)) * powerRZ 2 e)%R.
Proof.
  intros He. rewrite !IZR_cond_Zopp, shl_align_value by exact He.
  rewrite mult_IZR, pow2_IZR by lia.
  replace (powerRZ 2 e) with (powerRZ 2 (e - ez) * powerRZ 2 ez)%R
    by (rewrite <- pow2_add; f_equal; lia).
  ring.
Qed.

Lemma aligned_bound (s : bool) (m : positive) (e ez K : Z) :
  ez <= e -> Zpos (digits2_pos m) + e <= K ->
  Z.abs (cond_Zopp s (Zpos (fst (shl_align m e ez)))) < 2 ^ (K - ez).
Proof.
  intros He HK. rewrite shl_align_value by exact He.
  pose proof (digits2_pos_spec m) as [_ Hhi].
  assert (Hp : 0 < 2 ^ (e - ez)) by (apply Z.pow_pos_nonneg; lia).
  assert (Hle : 2 ^ (Zpos (digits2_pos m) + (e - ez)) <= 2 ^ (K - ez))
    by (apply Z.pow_le_mono_r; lia).
  rewrite Z.pow_add_r in Hle by lia.
  destruct s; cbn [cond_Zopp]; nia.
Qed.

(** The sum of two floats is the exact sum rounded to nearest. *)
Lemma SFadd_value (K : Z) (x y : spec_float) :
  valid_binary x = true -> valid_binary y = true ->
  below K x -> below K y -> K <= 1022 ->
  below (K + 2) (SFadd prec emax x y) /\
  (Rabs (SF2R (SFadd prec emax x y) - (SF2R x + SF2R y))
   <= Rabs (SF2R x + SF2R y) / IZR (2 ^ 53))%R.
Proof.
  intros Vx Vy Bx By HK.
  destruct x as [sx | sx | | sx mx ex], y as [sy | sy | | sy my ey];
    cbn [below] in Bx, By; try contradiction.
  - split; [destruct sx, sy; exact I|].
    replace (SF2R (SFadd prec emax (S754_zero sx) (S754_zero sy))) with 0%R
      by (destruct sx, sy; reflexivity).
    cbn [SF2R]. rewrite Rplus_0_l. apply Rabs_exact.
  - cbn [SFadd]. split; [cbn [below]; lia|].
    cbn [SF2R]. rewrite Rplus_0_l. apply Rabs_exact.
  - cbn [SFadd]. split; [cbn [below]; lia|].
    cbn [SF2R]. rewrite Rplus_0_r. apply Rabs_exact.
  - apply valid_finite in Vx as [Hex Hdx]. apply valid_finite in Vy as [Hey Hdy].
    cbn [SFadd]. set (ez := Z.min ex ey).
    assert (Hz1 : ez <= ex) by (subst ez; lia).
    assert (Hz2 : ez <= ey) by (subst ez; lia).
    pose proof (aligned_bound sx mx ex ez K Hz1 Bx) as B1.
    pose proof (aligned_bound sy my ey ez K Hz2 By) as B2.
    set (a := cond_Zopp sx (Zpos (fst (shl_align mx ex ez)))) in *.
    set (b := cond_Zopp sy (Zpos (fst (shl_align my ey ez)))) in *.
    assert (HKz : ez < K) by (subst ez; lia).
    assert (HM : Z.abs (a + b) < 2 ^ (K + 1 - ez)).
    { replace (K + 1 - ez) with (1 + (K - ez)) by lia.
      rewrite Z.pow_add_r by lia. change (2 ^ 1) with 2. lia. }
    destruct (binary_normalize_nearest (a + b) ez (K + 1)
                ltac:(subst ez; lia) ltac:(lia) HM ltac:(lia)) as [Hb Hrel].
    split; [replace (K + 2) with (K + 1 + 1) by lia; exact Hb|].
    replace (SF2R (S754_finite sx mx ex) + SF2R (S754_finite sy my ey))%R
      with (IZR (a + b) * powerRZ 2 ez)%R; [exact Hrel|].
    cbn [SF2R]. rewrite plus_IZR, Rmult_plus_distr_r. subst a b.
    now rewrite !aligned_value by assumption.
Qed.

Lemma SFsub_add_opp (x y : spec_float) :
  SFsub prec emax x y = SFadd prec emax x (SFopp y).
Proof.
  destruct x as [sx | sx | | sx mx ex], y as [sy | sy | | sy my ey];
    try reflexivity;
    try (destruct sx, sy; reflexivity).
Qed.

(** The difference of two floats is the exact difference rounded to
    nearest. *)
Lemma SFsub_value (K : Z) (x y : spec_float) :
  valid_binary x = true -> valid_binary y = true ->
  below K x -> below K y -> K <= 1022 ->
  below (K + 2) (SFsub prec emax x y) /\
  (Rabs (SF2R (SFsub prec emax x y) - (SF2R x - SF2R y))
   <= Rabs (SF2R x - SF2R y) / IZR (2 ^ 53))%R.
Proof.
  intros Vx Vy Bx By HK. rewrite SFsub_add_opp.
  assert (Vo : valid_binary (SFopp y) = true) by (destruct y; exact Vy).
  assert (Bo : below K (SFopp y)) by (destruct y; exact By).
  assert (Eo : SF2R (SFopp y) = (- SF2R y)%R).
  { destruct y as [s | s | | s m e]; cbn [SFopp SF2R]; try ring.
    rewrite !IZR_cond_Zopp. destruct s; cbn [negb]; ring. }
  destruct (SFadd_value K x (SFopp y) Vx Vo Bx Bo HK) as [Hb Hrel].
  split; [exact Hb|]. rewrite Eo in Hrel. exact Hrel.
Qed.

(** ** Magnitudes in the whole range, subnormal numbers included *)

(** Rounding a mantissa that needs no alignment to the left gives a zero
    or a finite float, one binary order above the argument at most. *)
Lemma binary_round_aux_below (s : bool) (mx : positive) (ex : Z) (lx : location) :
  let d := Zpos (digits2_pos mx) in
  ex <= fexp prec emax (d + ex) -> d + ex <= 1023 ->
  below (Z.max (d + ex) (-1074) + 1) (binary_round_aux prec emax s (Zpos mx) ex lx).
Proof.
  intros d Hn Hmag.
  pose proof (digits2_pos_spec mx) as [_ Hhi]. fold d in Hhi.
  assert (Hd : 1 <= d) by (subst d; lia).
  set (f := fexp prec emax (d + ex)) in *.
  assert (Hf : f = Z.max (d + ex - 53) (-1074)) by reflexivity.
  set (n := f - ex).
  assert (Hn0 : 0 <= n) by (subst n; lia).
  assert (Pn : 0 < 2 ^ n) by (apply Z.pow_pos_nonneg; lia).
  assert (Hm0 : 0 <= shr_m (shr_record_of_loc (Zpos mx) lx))
    by (destruct lx as [|[]]; cbn; lia).
  assert (Em0 : shr_m (shr_record_of_loc (Zpos mx) lx) = Zpos mx)
    by (destruct lx as [|[]]; reflexivity).
  assert (H1 : exists r1, shr_fexp prec emax (Zpos mx) ex lx = (r1, f) /\
                          shr_m r1 = Zpos mx / 2 ^ n).
  { unfold shr_fexp, Zdigits2. fold d. fold f. fold n. unfold shr.
    destruct n as [|p|p] eqn:En; try lia.
    - eexists. split; [f_equal; lia|]. rewrite Em0. change (2 ^ 0) with 1.
      now rewrite Z.div_1_r.
    - eexists. split; [f_equal; lia|]. now rewrite iter_shr_1_m, Em0 by exact Hm0. }
  destruct H1 as (r1 & Hs1 & Hm1).
  set (K := Z.max (d - n) 0).
  assert (HK : 0 <= K <= 53) by (subst K n; lia).
  assert (Hm1b : 0 <= shr_m r1 < 2 ^ K).
  { rewrite Hm1. split; [apply Z.div_pos; lia|].
    apply Z.div_lt_upper_bound; [exact Pn|].
    rewrite <- Z.pow_add_r by lia.
    apply Z.lt_le_trans with (1 := Hhi). apply Z.pow_le_mono_r; lia. }
  pose proof (round_nearest_even_range (shr_m r1) (loc_of_shr_record r1)) as Hr.
  set (m2 := round_nearest_even (shr_m r1) (loc_of_shr_record r1)) in *.
  assert (HKf : K + 1 + f <= Z.max (d + ex) (-1074) + 1) by (subst K n; lia).
  assert (H53 : 2 ^ K <= 2 ^ 53) by (apply Z.pow_le_mono_r; lia).
  unfold binary_round_aux. rewrite Hs1. fold m2.
  destruct (Z.eq_dec m2 (2 ^ 53)) as [E53 | N53].
  - destruct (round_tail s m2 f ltac:(lia) ltac:(lia)) as (m & e & Ht & Hm & He & Hv).
    rewrite Ht. cbn [below].
    assert (Hdm : Zpos (digits2_pos m) = 53)
      by (apply digits2_pos_unique; change (53 - 1) with 52; lia).
    assert (K = 53).
    { destruct (Z.eq_dec K 53) as [|Hne]; [assumption|].
      assert (2 ^ K <= 2 ^ 52) by (apply Z.pow_le_mono_r; lia).
      change (2 ^ 53) with (2 * 2 ^ 52) in *. lia. }
    lia.
  - destruct m2 as [|q|q] eqn:Em2; try lia.
    + (* rounded to zero *)
      unfold shr_fexp, Zdigits2, fexp.
      change (SpecFloat.emin prec emax) with (-1074). change prec with 53.
      destruct (Z.max (0 + f - 53) (-1074) - f) as [|p|p] eqn:Ep; try lia;
        cbn [shr shr_record_of_loc shr_m]; exact I.
    + assert (Hq : Zpos (digits2_pos q) <= K + 1).
      { apply digits2_pos_le; [lia|].
        rewrite Z.pow_add_r by lia. change (2 ^ 1) with 2. lia. }
      assert (Hq53 : Zpos (digits2_pos q) <= 53) by (apply digits2_pos_le; lia).
      unfold shr_fexp, Zdigits2, fexp.
      change (SpecFloat.emin prec emax) with (-1074). change prec with 53.
      destruct (Z.max (Zpos (digits2_pos q) + f - 53) (-1074) - f) as [|p|p] eqn:Ep;
        try lia; cbn [shr shr_record_of_loc shr_m]; change (emax - 53) with 971;
        replace (f <=? 971) with true by lia; cbn [below]; lia.
Qed.

Lemma digits2_pos_mul (a b : positive) :
  Zpos (digits2_pos a) + Zpos (digits2_pos b) - 1 <= Zpos (digits2_pos (a * b))
  <= Zpos (digits2_pos a) + Zpos (digits2_pos b).
Proof.
  pose proof (digits2_pos_spec a) as [A1 A2].
  pose proof (digits2_pos_spec b) as [B1 B2].
  pose proof (digits2_pos_spec (a * b)) as [C1 C2].
  rewrite Pos2Z.inj_mul in C1, C2.
  set (da := Zpos (digits2_pos a)) in *. set (db := Zpos (digits2_pos b)) in *.
  set (dc := Zpos (digits2_pos (a * b))) in *.
  assert (1 <= da /\ 1 <= db /\ 1 <= dc) as (Ha & Hb & Hc) by (subst da db dc; lia).
  assert (P1 : 0 < 2 ^ (da - 1)) by (apply Z.pow_pos_nonneg; lia).
  assert (P2 : 0 < 2 ^ (db - 1)) by (apply Z.pow_pos_nonneg; lia).
  split.
  - destruct (Z.le_gt_cases (da + db - 1) dc) as [|Hgt]; [assumption|].
    assert (H : 2 ^ dc <= 2 ^ (da - 1 + (db - 1))) by (apply Z.pow_le_mono_r; lia).
    rewrite Z.pow_add_r in H by lia. nia.
  - destruct (Z.le_gt_cases dc (da + db)) as [|Hgt]; [assumption|].
    assert (H : 2 ^ (da + db) <= 2 ^ (dc - 1)) by (apply Z.pow_le_mono_r; lia).
    rewrite Z.pow_add_r in H by lia. nia.
Qed.

(** A normal float times any finite one: a zero or a finite float. *)
Lemma SFmul_below (L M K : Z) (x y : spec_float) :
  regular L M x -> below K y -> M + K <= 1023 ->
  below (Z.max (M + K) (-1074) + 1) (SFmul prec emax x y).
Proof.
  intros Hx Hy HMK.
  destruct x as [s1 | s1 | | s1 m1 e1], y as [s2 | s2 | | s2 m2 e2];
    cbn [regular below] in Hx, Hy; try contradiction; try exact I.
  destruct Hx as (Hm1 & Hl1 & Hh1).
  assert (Hd1 : Zpos (digits2_pos m1) = 53)
    by (apply digits2_pos_unique; change (53 - 1) with 52; lia).
  pose proof (digits2_pos_mul m1 m2) as Hd.
  assert (1 <= Zpos (digits2_pos m2)) by lia.
  cbn [SFmul].
  eapply below_le; [|apply binary_round_aux_below].
  - lia.
  - unfold fexp. change (SpecFloat.emin prec emax) with (-1074).
    change prec with 53. lia.
  - lia.
Qed.

(** ** The operations of Python numbers *)

Lemma regular_below (L M : Z) (x : spec_float) : regular L M x -> below M x.
Proof.
  destruct x as [s | s | | s m e]; cbn [regular below]; try tauto.
  intros (Hm & _ & He).
  assert (Zpos (digits2_pos m) = 53)
    by (apply digits2_pos_unique; change (53 - 1) with 52; lia).
  lia.
Qed.

Lemma regular_le (L L' M M' : Z) (x : spec_float) :
  L' <= L -> M <= M' -> regular L M x -> regular L' M' x.
Proof. destruct x; cbn [regular]; lia. Qed.

(** A zero or a finite float is what [is_finite] accepts. *)
Lemma below_is_finite (K : Z) (f : float) :
  below K (Prim2SF f) -> is_finite f = true.
Proof.
  destruct (Prim2SF f) as [s | s | | s m e] eqn:E; cbn [below]; try contradiction.
  - intros _. unfold is_finite, is_nan, is_infinity.
    rewrite !eqb_spec, abs_spec, E. reflexivity.
  - intros _. exact (finite_is_finite f s m e E).
Qed.

(** An integer below [2^53] is converted to a float without rounding. *)
Lemma float_of_int_value (z : Z) :
  Z.abs z < 2 ^ 53 ->
  exists f, float_of_int z = Ret f /\
            regular (-52) 53 (Prim2SF f) /\ float_value f = IZR z.
Proof.
  intros Hz. unfold float_of_int, binary_normalize, float_value.
  assert (G : forall (s : bool) (p : positive),
             Zpos p < 2 ^ 53 ->
             exists f, checked (SF2Prim (binary_round prec emax s p 0)) = Ret f /\
                       regular (-52) 53 (Prim2SF f) /\
                       SF2R (Prim2SF f) = IZR (cond_Zopp s (Zpos p))).
  { intros s p Hp.
    destruct (normal_mantissa p Hp) as (m & t & Ht & Hm & Hmr).
    rewrite (binary_round_exact s p m (- t)); try lia.
    - pose proof (Prim2SF_SF2Prim _ (valid_normal s m (- t) Hmr ltac:(lia))) as Hx.
      eexists. unfold checked. rewrite (finite_is_finite _ _ _ _ Hx).
      split; [reflexivity|]. rewrite Hx. cbn [regular SF2R]. split; [lia|].
      rewrite !IZR_cond_Zopp, Hm, mult_IZR, pow2_IZR by lia.
      rewrite Rmult_assoc, (Rmult_assoc (IZR (Zpos p))), <- pow2_add.
      replace (t + - t) with 0 by lia. cbn [powerRZ]. ring.
    - intros _. rewrite Z.opp_involutive. exact Hm.
    - intros He. replace t with 0 in * by lia. change (2 ^ (- 0)) with 1.
      change (2 ^ 0) with 1 in Hm. lia. }
  destruct z as [|p|p].
  - exists zero. repeat split.
  - apply (G false p Hz).
  - apply (G true p Hz).
Qed.

(** The quotient of two integers is the ratio rounded to nearest: zero,
    or a normal float within [2^-53] of it, relatively. *)
Lemma int_truediv_value (a b : Z) :
  b <> 0 -> Z.abs b < 2 ^ 53 -> Z.abs a < 2 ^ 53 * Z.abs b ->
  exists q, int_truediv a b = Ret q /\
            regular (-105) 55 (Prim2SF q) /\
            (Rabs (float_value q - IZR a / IZR b)
             <= Rabs (IZR a / IZR b) / IZR (2 ^ 53))%R.
Proof.
  intros Hb Hbb Ha. unfold int_truediv, float_value.
  replace (b =? 0) with false by lia.
  destruct (a =? 0) eqn:Ea.
  - apply Z.eqb_eq in Ea as ->.
    exists (if b <? 0 then neg_zero else zero). split; [reflexivity|].
    replace (IZR 0 / IZR b)%R with 0%R by (unfold Rdiv; ring).
    destruct (b <? 0); cbn [regular SF2R]; (split; [exact I | apply Rabs_exact]).
  - set (pa := Z.to_pos (Z.abs a)). set (pb := Z.to_pos (Z.abs b)).
    assert (Hpa : Zpos pa = Z.abs a) by (subst pa; rewrite Z2Pos.id; lia).
    assert (Hpb : Zpos pb = Z.abs b) by (subst pb; rewrite Z2Pos.id; lia).
    pose proof (digits2_pos_spec pa) as [Ha1 Ha2].
    pose proof (digits2_pos_spec pb) as [Hb1 Hb2].
    set (d1 := Zpos (digits2_pos pa)) in *. set (d2 := Zpos (digits2_pos pb)) in *.
    assert (Hd2 : 1 <= d2 <= 53).
    { split; [subst d2; lia|]. apply digits2_pos_le; lia. }
    assert (Hd1 : 1 <= d1 <= 53 + d2).
    { split; [subst d1; lia|].
      destruct (Z.le_gt_cases d1 (53 + d2)) as [|Hgt]; [assumption|].
      assert (H : 2 ^ (53 + d2) <= 2 ^ (d1 - 1)) by (apply Z.pow_le_mono_r; lia).
      rewrite Z.pow_add_r in H by lia. nia. }
    destruct (SFdiv_int_nearest (a <? 0) (b <? 0) pa pb ltac:(fold d1 d2; lia))
      as (m & e & Hdiv & Hm & He & Hrel).
    fold d1 d2 in He. rewrite Hdiv.
    pose proof (Prim2SF_SF2Prim _
                  (valid_normal (xorb (a <? 0) (b <? 0)) m e Hm ltac:(lia))) as Hq.
    eexists. unfold checked. rewrite (finite_is_finite _ _ _ _ Hq).
    split; [reflexivity|]. rewrite Hq. cbn [regular SF2R]. split; [lia|].
    rewrite Hpa, Hpb in Hrel.
    assert (Hbp : (0 < IZR (Z.abs b))%R) by (apply IZR_lt; lia).
    assert (Hap : (0 < IZR (Z.abs a))%R) by (apply IZR_lt; lia).
    set (v := (IZR (Zpos m) * powerRZ 2 e)%R) in *.
    set (x := (IZR (Z.abs a) / IZR (Z.abs b))%R) in *.
    assert (Hx : (0 <= x)%R)
      by (subst x; apply Rmult_le_pos; [lra | apply Rlt_le, Rinv_0_lt_compat; lra]).
    assert (Ex : (IZR a / IZR b = (if xorb (a <? 0) (b <? 0) then -1 else 1) * x)%R).
    { subst x.
      destruct (a <? 0) eqn:Sa, (b <? 0) eqn:Sb; cbn [xorb].
      - rewrite (Z.abs_neq a), (Z.abs_neq b) by lia. rewrite !opp_IZR.
        assert (IZR b <> 0)%R by (apply not_0_IZR; lia). field. lra.
      - rewrite (Z.abs_neq a), (Z.abs_eq b) by lia. rewrite !opp_IZR.
        assert (IZR b <> 0)%R by (apply not_0_IZR; lia). field. lra.
      - rewrite (Z.abs_eq a), (Z.abs_neq b) by lia. rewrite !opp_IZR.
        assert (IZR b <> 0)%R by (apply not_0_IZR; lia). field. lra.
      - rewrite (Z.abs_eq a), (Z.abs_eq b) by lia.
        assert (IZR b <> 0)%R by (apply not_0_IZR; lia). field. lra. }
    rewrite Ex, IZR_cond_Zopp.
    replace ((if xorb (a <? 0) (b <? 0) then -1 else 1) * IZR (Zpos m) * powerRZ 2 e)%R
      with ((if xorb (a <? 0) (b <? 0) then -1 else 1) * v)%R by (subst v; ring).
    rewrite Rabs_signed.
    replace (Rabs ((if xorb (a <? 0) (b <? 0) then -1 else 1) * x)) with x;
      [exact Hrel|].
    destruct (xorb (a <? 0) (b <? 0)).
    + replace (-1 * x)%R with (- x)%R by ring.
      rewrite Rabs_Ropp, Rabs_pos_eq; [reflexivity | exact Hx].
    + rewrite Rmult_1_l, Rabs_pos_eq; [reflexivity | exact Hx].
Qed.

(** ** Rounding to an integer *)

(** [round(x)] is an integer nearest to [x], the even one of two. *)
Lemma float_round_nearest (K : Z) (f : float) :
  below K (Prim2SF f) ->
  exists n, float_round f = Ret n /\
            (Rabs (IZR n - float_value f) <= 1 / 2)%R /\
            ((Rabs (IZR n - float_value f) = 1 / 2)%R -> Z.even n = true).
Proof.
  unfold float_round, float_value.
  destruct (Prim2SF f) as [s | s | | s m e]; cbn [below]; try contradiction; intros _.
  - exists 0. split; [reflexivity|]. cbn [SF2R].
    replace (IZR 0 - 0)%R with 0%R by ring. rewrite Rabs_R0. split; lra.
  - eexists. split; [reflexivity|]. cbn [SF2R].
    destruct (0 <=? e) eqn:E.
    + replace (IZR (cond_Zopp s (Zpos m * 2 ^ e))
               - IZR (cond_Zopp s (Zpos m)) * powerRZ 2 e)%R with 0%R
        by (rewrite !IZR_cond_Zopp, mult_IZR, pow2_IZR by lia; ring).
      rewrite Rabs_R0. split; lra.
    + unfold round_half_even.
      set (k := - e). assert (Hk : 0 < k) by (subst k; lia).
      assert (Pk : 0 < 2 ^ k) by (apply Z.pow_pos_nonneg; lia).
      pose proof (Z.div_mod (Zpos m) (2 ^ k) ltac:(lia)) as Hdm.
      pose proof (Z.mod_pos_bound (Zpos m) (2 ^ k) Pk) as Hr.
      set (q := Zpos m / 2 ^ k) in *. set (r := Zpos m mod 2 ^ k) in *.
      assert (Pr : (0 < IZR (2 ^ k))%R) by (apply IZR_lt; exact Pk).
      assert (Ep : powerRZ 2 e = (/ IZR (2 ^ k))%R).
      { replace e with (- k) by (subst k; lia).
        now rewrite powerRZ_neg', pow2_IZR by lia. }
      set (x := (IZR r * / IZR (2 ^ k))%R).
      assert (Em : (IZR (Zpos m) * / IZR (2 ^ k) = IZR q + x)%R).
      { subst x. rewrite Hdm at 1. rewrite plus_IZR, mult_IZR. field. lra. }
      assert (Ex : (2 * x * IZR (2 ^ k) = IZR (2 * r))%R).
      { subst x. rewrite mult_IZR. field. lra. }
      assert (Ev : forall n0 : Z,
                 Rabs (IZR (cond_Zopp s n0)
                       - IZR (cond_Zopp s (Zpos m)) * powerRZ 2 e)
                 = Rabs (IZR n0 - (IZR q + x))).
      { intros n0. rewrite !IZR_cond_Zopp, Ep, Rmult_assoc, Em. apply Rabs_signed. }
      assert (Eev : forall n0 : Z, Z.even (cond_Zopp s n0) = Z.even n0)
        by (intros n0; destruct s; cbn [cond_Zopp]; [apply Z.even_opp | reflexivity]).
      destruct (Z.compare_spec (2 * r) (2 ^ k)) as [Heq | Hlt | Hgt].
      * (* a tie *)
        assert (Hx : x = (1 / 2)%R).
        { rewrite Heq in Ex. apply Rmult_eq_reg_r with (IZR (2 ^ k)); lra. }
        destruct (Z.even q) eqn:Eq.
        -- rewrite Ev, Eev. split; [|intros _; exact Eq].
           replace (IZR q - (IZR q + x))%R with (- (1 / 2))%R by lra.
           rewrite Rabs_Ropp, Rabs_pos_eq; lra.
        -- rewrite Ev, Eev. split.
           ++ rewrite plus_IZR.
              replace (IZR q + 1 - (IZR q + x))%R with (1 / 2)%R by lra.
              rewrite Rabs_pos_eq; lra.
           ++ intros _. rewrite Z.even_add, Eq. reflexivity.
      * (* below one half *)
        assert (Hx : (0 <= x < 1 / 2)%R).
        { assert (0 <= IZR (2 * r) < IZR (2 ^ k))%R
            by (split; [apply IZR_le | apply IZR_lt]; lia).
          split; [|nra].
          subst x. apply Rmult_le_pos; [apply IZR_le; lia|].
          apply Rlt_le, Rinv_0_lt_compat. exact Pr. }
        rewrite Ev.
        replace (IZR q - (IZR q + x))%R with (- x)%R by ring.
        rewrite Rabs_Ropp, Rabs_pos_eq by lra. split; lra.
      * (* above one half *)
        assert (Hx : (1 / 2 < x < 1)%R).
        { assert (IZR (2 ^ k) < IZR (2 * r) < IZR (2 * 2 ^ k))%R
            by (split; apply IZR_lt; lia).
          rewrite (mult_IZR 2 (2 ^ k)) in H. split; nra. }
        rewrite Ev, plus_IZR.
        replace (IZR q + 1 - (IZR q + x))%R with (1 - x)%R by ring.
        rewrite Rabs_pos_eq by lra. split; lra.
Qed.

(** A float between two integers below [2^52] is a zero or a finite
    float below [2^53]. *)
Lemma between_ints_below (lo hi : Z) (f : float) :
  Z.abs lo < 2 ^ 52 -> Z.abs hi < 2 ^ 52 ->
  num_le (Int lo) (Float f) = true -> num_le (Float f) (Int hi) = true ->
  below 53 (Prim2SF f).
Proof.
  intros Hlo Hhi. unfold num_le. cbn [num_compare]. unfold compare_int_float.
  destruct (Prim2SF f) as [s | s | | s m e]; cbn [below option_map].
  - trivial.
  - destruct s; cbn; discriminate.
  - discriminate.
  - intros H1 H2.
    set (v := cond_Zopp s (Zpos m)) in *.
    assert (Hv : Z.abs v = Zpos m) by (subst v; destruct s; cbn; lia).
    destruct (0 <=? e) eqn:E.
    + assert (Pe : 0 < 2 ^ e) by (apply Z.pow_pos_nonneg; lia).
      assert (B1 : lo <= v * 2 ^ e)
        by (destruct (Z.compare_spec lo (v * 2 ^ e)); cbn in H1; [lia | lia | discriminate]).
      assert (B2 : v * 2 ^ e <= hi)
        by (destruct (Z.compare_spec hi (v * 2 ^ e)); cbn in H2; [lia | discriminate | lia]).
      assert (Hb : Zpos m * 2 ^ e < 2 ^ 52) by nia.
      assert (He : e < 52).
      { destruct (Z.lt_ge_cases e 52) as [|Hge]; [assumption|].
        assert (2 ^ 52 <= 2 ^ e) by (apply Z.pow_le_mono_r; lia). nia. }
      assert (Zpos (digits2_pos m) <= 52 - e); [|lia].
      apply digits2_pos_le; [lia|].
      assert (E52 : 2 ^ 52 = 2 ^ (52 - e) * 2 ^ e)
        by (rewrite <- Z.pow_add_r by lia; f_equal; lia).
      nia.
    + set (k := - e) in *. assert (Hk : 0 < k) by (subst k; lia).
      assert (Pk : 0 < 2 ^ k) by (apply Z.pow_pos_nonneg; lia).
      assert (B1 : lo * 2 ^ k <= v)
        by (destruct (Z.compare_spec (lo * 2 ^ k) v); cbn in H1; [lia | lia | discriminate]).
      assert (B2 : v <= hi * 2 ^ k)
        by (destruct (Z.compare_spec (hi * 2 ^ k) v); cbn in H2; [lia | discriminate | lia]).
      assert (Zpos (digits2_pos m) <= 52 + k); [|lia].
      apply digits2_pos_le; [lia|].
      rewrite Z.pow_add_r by lia. nia.
Qed.

(** ** Division of floats *)

(** The quotient of two normal floats is the exact quotient rounded to
    nearest, as long as it stays in the normal range. *)
Lemma SFdiv_nearest (s1 s2 : bool) (m1 m2 : positive) (e1 e2 : Z) :
  2 ^ 52 <= Zpos m1 < 2 ^ 53 -> 2 ^ 52 <= Zpos m2 < 2 ^ 53 ->
  -1021 <= e1 - e2 <= 1022 ->
  exists m e,
    SFdiv prec emax (S754_finite s1 m1 e1) (S754_finite s2 m2 e2)
    = S754_finite (xorb s1 s2) m e /\
    2 ^ 52 <= Zpos m < 2 ^ 53 /\
    e1 - e2 - 53 <= e <= e1 - e2 - 51 /\
    (Rabs (IZR (Zpos m) * powerRZ 2 e
           - IZR (Zpos m1) * powerRZ 2 e1 / (IZR (Zpos m2) * powerRZ 2 e2))
     <= IZR (Zpos m1) * powerRZ 2 e1 / (IZR (Zpos m2) * powerRZ 2 e2)
        / IZR (2 ^ 53))%R.
Proof.
  intros H1 H2 He.
  assert (Hd1 : Zpos (digits2_pos m1) = 53)
    by (apply digits2_pos_unique; change (53 - 1) with 52; lia).
  assert (Hd2 : Zpos (digits2_pos m2) = 53)
    by (apply digits2_pos_unique; change (53 - 1) with 52; lia).
  unfold SFdiv, SFdiv_core_binary, Zdigits2, fexp. rewrite Hd1, Hd2.
  change (SpecFloat.emin prec emax) with (-1074). change prec with 53.
  replace (Z.min (Z.max (53 + e1 - (53 + e2) - 53) (-1074)) (e1 - e2))
    with (e1 - e2 - 53) by lia.
  replace (e1 - e2 - (e1 - e2 - 53)) with 53 by lia.
  cbv iota. rewrite Z.shiftl_mul_pow2 by lia.
  pose proof (Z.div_eucl_eq (Zpos m1 * 2 ^ 53) (Zpos m2) ltac:(lia)) as Hdiv.
  pose proof (Z.mod_pos_bound (Zpos m1 * 2 ^ 53) (Zpos m2) ltac:(lia)) as Hmod.
  unfold Z.modulo in Hmod.
  destruct (Z.div_eucl (Zpos m1 * 2 ^ 53) (Zpos m2)) as [q r].
  assert (Hq : 2 ^ 52 <= q < 2 ^ 54).
  { change (2 ^ 54) with (2 * 2 ^ 53). split; [|nia].
    destruct (Z.lt_ge_cases q (2 ^ 52)) as [Hlt|]; [|assumption].
    assert (Zpos m2 * q + r < Zpos m2 * 2 ^ 52) by nia.
    change (2 ^ 53) with (2 * 2 ^ 52) in *. nia. }
  destruct q as [|q|q]; try lia.
  assert (Hdq : Zpos (digits2_pos q) = 53 \/ Zpos (digits2_pos q) = 54).
  { destruct (Z.lt_ge_cases (Zpos q) (2 ^ 53)).
    - left. apply digits2_pos_unique. change (53 - 1) with 52. lia.
    - right. apply digits2_pos_unique. change (54 - 1) with 53. lia. }
  pose proof (new_location_locates _ (Zpos m2) (Zpos q) r ltac:(lia) Hdiv Hmod) as Hloc.
  destruct (binary_round_aux_nearest (xorb s1 s2) q (e1 - e2 - 53)
              (new_location (Zpos m2) r) _ (Zpos m2) ltac:(lia) Hloc
              ltac:(lia) ltac:(lia) ltac:(lia))
    as (m & e & n & Hr & Hm & Hev & Hee & Hv & Hne & Hbig).
  set (dq := Zpos (digits2_pos q)) in *.
  exists m, e. change prec with 53 in Hr. rewrite Hr.
  split; [reflexivity|]. split; [exact Hm|]. split; [lia|].
  destruct (nearest_value m e (dq + (e1 - e2 - 53) - 53) (e1 - e2 - 53) n
              (Zpos m1 * 2 ^ 53) (Zpos m2) ltac:(lia) ltac:(lia) Hv)
    as (_ & _ & Hrel).
  - replace (dq + (e1 - e2 - 53) - 53 - (e1 - e2 - 53)) with (dq - 53) by lia.
    exact Hne.
  - replace (dq + (e1 - e2 - 53) - 53 - (e1 - e2 - 53)) with (dq - 53) by lia.
    exact Hbig.
  - replace (IZR (Zpos m1 * 2 ^ 53) / IZR (Zpos m2) * powerRZ 2 (e1 - e2 - 53))%R
      with (IZR (Zpos m1) * powerRZ 2 e1 / (IZR (Zpos m2) * powerRZ 2 e2))%R in Hrel;
      [exact Hrel|].
    rewrite mult_IZR, pow2_IZR by lia.
    replace (e1 - e2 - 53) with (e1 + (- e2 + - (53))) by lia.
    rewrite !pow2_add, !powerRZ_neg'.
    pose proof (pow2_pos e2). pose proof (pow2_pos 53).
    assert (0 < IZR (Zpos m2))%R by (apply IZR_lt; lia).
    field. repeat split; lra.
Qed.

(** ** Numbers that need no rounding *)

(** A mantissa of at most 53 bits is aligned and kept. *)
Lemma binary_round_small (s : bool) (M : positive) (ez : Z) :
  -1074 <= ez -> Zpos (digits2_pos M) <= 53 -> Zpos (digits2_pos M) + ez <= 1023 ->
  exists m e,
    binary_round prec emax s M ez = S754_finite s m e /\
    e = Z.max (Zpos (digits2_pos M) + ez - 53) (-1074) /\
    Zpos m = Zpos M * 2 ^ (ez - e).
Proof.
  intros Hez Hsmall Hmag. set (d := Zpos (digits2_pos M)) in *.
  assert (Hd : 1 <= d) by (subst d; lia).
  unfold binary_round. fold d.
  set (f := fexp prec emax (d + ez)).
  assert (Hf : f = Z.max (d + ez - 53) (-1074)) by reflexivity.
  assert (Hfe : f <= ez) by lia.
  unfold shl_align.
  destruct (f - ez) as [|k|k] eqn:Ek; try lia.
  - assert (f = ez) by lia.
    rewrite binary_round_aux_canonical.
    + exists M, ez. split; [reflexivity|]. split; [lia|].
      rewrite Z.sub_diag. change (2 ^ 0) with 1. lia.
    + unfold canonical_mantissa. fold d. fold f. apply Z.eqb_eq. lia.
    + lia.
  - rewrite binary_round_aux_canonical.
    + exists (Pos.iter xO M k), f. split; [reflexivity|]. split; [exact Hf|].
      rewrite iter_xO_spec. do 2 f_equal. lia.
    + unfold canonical_mantissa. rewrite digits2_pos_shift. fold d.
      replace (d + Zpos k + f) with (d + ez) by lia. fold f. apply Z.eqb_refl.
    + lia.
Qed.

(** A nonnegative integer below [2^52], scaled by a power of two between
    [2^-52] and 1: the float is regular and exact. *)
Lemma binary_normalize_fraction (r k : Z) :
  0 < k <= 52 -> 0 <= r < 2 ^ k ->
  regular (-104) 0 (binary_normalize prec emax r (- k) false) /\
  SF2R (binary_normalize prec emax r (- k) false) = (IZR r * powerRZ 2 (- k))%R.
Proof.
  intros Hk Hr. destruct r as [|p|p]; [| |lia]; cbn [binary_normalize].
  - cbn [regular SF2R]. split; [exact I | ring].
  - pose proof (digits2_pos_spec p) as [Hlo Hhi].
    set (d := Zpos (digits2_pos p)) in *.
    assert (Hd : 1 <= d) by (subst d; lia).
    assert (Hdk : d <= k).
    { destruct (Z.le_gt_cases d k) as [|Hbig]; [assumption|].
      assert (2 ^ k <= 2 ^ (d - 1)) by (apply Z.pow_le_mono_r; lia). lia. }
    destruct (binary_round_small false p (- k) ltac:(lia) ltac:(fold d; lia)
                ltac:(fold d; lia)) as (m & e & Hb & He & Hm).
    fold d in He. rewrite Hb.
    assert (Ee : e = d - k - 53) by lia.
    replace (- k - e) with (53 - d) in Hm by lia.
    assert (Pd : 0 < 2 ^ (53 - d)) by (apply Z.pow_pos_nonneg; lia).
    assert (E52 : 2 ^ 52 = 2 ^ (d - 1) * 2 ^ (53 - d))
      by (rewrite <- Z.pow_add_r by lia; f_equal; lia).
    assert (E53 : 2 ^ 53 = 2 ^ d * 2 ^ (53 - d))
      by (rewrite <- Z.pow_add_r by lia; f_equal; lia).
    cbn [regular SF2R cond_Zopp]. split; [nia|].
    rewrite Hm, mult_IZR, pow2_IZR by lia.
    rewrite Rmult_assoc, <- pow2_add. do 2 f_equal. lia.
Qed.

(** ** Linear scaling codec *)

(** What [linear_map] returns or raises, apart from what it prints. *)
Lemma linear_map_outcome (v src_min src_max dst_min dst_max : num) :
  outcome (linear_map v (src_min, src_max) (dst_min, dst_max)) =
  if num_lt v src_min || num_gt v src_max then Ret None
  else
    slope <- slope_of (src_min, src_max) (dst_min, dst_max) ;;
    offset <- num_sub v src_min ;;
    scaled <- num_mul slope offset ;;
    mapped <- num_add scaled dst_min ;;
    Ret (Some mapped).
Proof.
  unfold linear_map, slope_of, outcome. cbn [fst snd].
  destruct (num_lt v src_min || num_gt v src_max); [reflexivity|].
  destruct (negb (num_le src_min v && num_le v src_max)); cbn [io_bind print io_ret pure];
    (destruct (num_sub dst_max dst_min) as [rise|]; cbn [bind snd]; [|reflexivity];
     destruct (num_sub src_max src_min) as [run|]; cbn [bind snd]; [|reflexivity];
     destruct (num_truediv rise run) as [slope|]; cbn [bind snd]; [|reflexivity];
     destruct (num_sub v src_min) as [offset|]; cbn [bind snd]; [|reflexivity];
     destruct (num_mul slope offset) as [scaled|]; cbn [bind snd]; [|reflexivity];
     destruct (num_add scaled dst_min) as [mapped|]; cbn [bind snd]; [|reflexivity];
     now destruct (negb (num_le dst_min mapped && num_le mapped dst_max))).
Qed.

(** Outside the domain nothing is computed and nothing is printed. *)
Lemma linear_map_out_of_domain (v src_min src_max dst_min dst_max : num) :
  num_lt v src_min = true \/ num_gt v src_max = true ->
  linear_map v (src_min, src_max) (dst_min, dst_max) = io_ret None.
Proof.
  intros H. unfold linear_map.
  replace (num_lt v src_min || num_gt v src_max) with true; [reflexivity|].
  symmetry. apply orb_true_iff. exact H.
Qed.

Lemma num_sub_diag (a : num) :
  num_finite a = true -> exists z, num_sub a a = Ret z /\ num_is_zero z = true.
Proof.
  destruct a as [x | f]; cbn; intros Hf.
  - exists (Int (x - x)). rewrite Z.sub_diag. split; reflexivity.
  - exists (Float (f - f)). split; [reflexivity | now apply sub_diag].
Qed.

Lemma as_float_zero (z : num) :
  num_is_zero z = true -> exists w, as_float z = Ret w /\ is_zero w = true.
Proof.
  destruct z as [x | f]; cbn; intros Hz.
  - apply Z.eqb_eq in Hz as ->. exists zero. split; reflexivity.
  - exists f. split; [reflexivity | exact Hz].
Qed.

Lemma is_zero_spec (f : float) :
  is_zero f = true -> exists s, Prim2SF f = S754_zero s.
Proof.
  unfold is_zero. rewrite eqb_spec. change (Prim2SF zero) with (S754_zero false).
  destruct (Prim2SF f) as [s | s | | s m e]; cbn; try discriminate; eauto.
  - now destruct s.
  - now destruct s.
Qed.

Lemma mul_is_zero (f z : float) :
  is_finite f = true -> is_zero z = true ->
  exists s, Prim2SF (f * z)%float = S754_zero s.
Proof.
  intros Hf Hz. apply finite_spec in Hf. apply is_zero_spec in Hz as [s Hz].
  rewrite mul_spec, Hz.
  destruct (Prim2SF f) as [s' | s' | | s' m e]; try contradiction; cbn; eauto.
Qed.

Lemma num_mul_float (x : float) (b : num) (w : float) :
  as_float b = Ret w -> num_mul (Float x) b = Ret (Float (x * w)%float).
Proof.
  destruct b as [y | g]; cbn; [intros -> | intros [= ->]]; reflexivity.
Qed.

Lemma num_add_float (x : float) (b : num) (d : float) :
  as_float b = Ret d -> num_add (Float x) b = Ret (Float (x + d)%float).
Proof.
  destruct b as [y | g]; cbn; [intros -> | intros [= ->]]; reflexivity.
Qed.

(** At the lower boundary the map returns [float(dst_min)]. *)
Lemma linear_map_lower_boundary (src_min src_max dst_min dst_max : num)
  (slope d : float) :
  num_lt src_min src_max = true ->
  num_finite src_min = true ->
  slope_of (src_min, src_max) (dst_min, dst_max) = Ret (Float slope) ->
  is_finite slope = true ->
  as_float dst_min = Ret d ->
  is_nan d = false ->
  exists r,
    outcome (linear_map src_min (src_min, src_max) (dst_min, dst_max))
    = Ret (Some (Float r)) /\
    (r =? d)%float = true.
Proof.
  intros Hlt Hfin Hslope Hsf Hd Hnan.
  rewrite linear_map_outcome, num_lt_irrefl, (num_lt_not_gt _ _ Hlt), Hslope.
  cbn [orb bind].
  destruct (num_sub_diag src_min Hfin) as (z & -> & Hzero). cbn [bind].
  destruct (as_float_zero z Hzero) as (w & Hz & Hw).
  destruct (mul_is_zero slope w Hsf Hw) as [s Hs].
  exists (slope * w + d)%float.
  split; [|now apply add_zero_l with s].
  rewrite (num_mul_float _ _ _ Hz). cbn [bind].
  now rewrite (num_add_float _ _ _ Hd).
Qed.

(** At the upper boundary the map returns the double
    [slope * (src_max - src_min) + dst_min]. *)
Lemma linear_map_upper_boundary (src_min src_max dst_min dst_max : num)
  (slope width d : float) :
  num_lt src_min src_max = true ->
  slope_of (src_min, src_max) (dst_min, dst_max) = Ret (Float slope) ->
  (w <- num_sub src_max src_min ;; as_float w) = Ret width ->
  as_float dst_min = Ret d ->
  outcome (linear_map src_max (src_min, src_max) (dst_min, dst_max))
  = Ret (Some (Float (slope * width + d)%float)).
Proof.
  intros Hlt Hslope Hw Hd.
  rewrite linear_map_outcome, num_gt_irrefl.
  rewrite (num_le_not_lt _ _ (num_lt_le _ _ Hlt)), Hslope. cbn [orb bind].
  destruct (num_sub src_max src_min) as [w|]; [|discriminate]. cbn [bind] in Hw |- *.
  rewrite (num_mul_float _ _ _ Hw). cbn [bind].
  now rewrite (num_add_float _ _ _ Hd).
Qed.

(** On integer bounds below [2^52] the lower boundary is exact. *)
Lemma linear_map_lower_boundary_int (a b c d : Z) :
  a < b ->
  Z.abs a < 2 ^ 52 -> Z.abs b < 2 ^ 52 -> Z.abs c < 2 ^ 52 -> Z.abs d < 2 ^ 52 ->
  exists r,
    outcome (linear_map (Int a) (Int a, Int b) (Int c, Int d)) = Ret (Some (Float r)) /\
    num_eq (Float r) (Int c) = true.
Proof.
  intros Hab Ha Hb Hc Hd.
  assert (H53 : 2 ^ 53 = 2 * 2 ^ 52) by reflexivity.
  destruct (int_truediv_small (d - c) (b - a) ltac:(lia) ltac:(lia)) as (q & Hq & Hqf).
  destruct (float_of_int_exact c ltac:(lia)) as (fc & Hfc & Hcmp).
  destruct (linear_map_lower_boundary (Int a) (Int b) (Int c) (Int d) q fc)
    as (r & Hr & Heq).
  - rewrite num_lt_int. lia.
  - reflexivity.
  - unfold slope_of. cbn [fst snd num_sub bind num_truediv]. now rewrite Hq.
  - exact Hqf.
  - exact Hfc.
  - apply finite_not_nan. exact (float_of_int_finite _ _ Hfc).
  - exists r. split; [exact Hr|].
    unfold num_eq. cbn [num_compare].
    now rewrite (compare_int_float_eqb c r fc Heq), Hcmp.
Qed.

(** Three roundings: a quotient, its product with the divisor, and the
    sum with an offset. *)
Lemma linear_error (h w c Q P S u : R) :
  (0 < w)%R -> (0 <= u <= 1 / 4)%R ->
  (Rabs (Q - h / w) <= Rabs (h / w) * u)%R ->
  (Rabs (P - Q * w) <= Rabs (Q * w) * u)%R ->
  (Rabs (S - (P + c)) <= Rabs (P + c) * u)%R ->
  (Rabs (S - (h + c)) <= (3 * Rabs h + Rabs (h + c)) * u)%R.
Proof.
  intros Hw Hu A1 A2 A3.
  pose proof (Rabs_pos h) as Ph. pose proof (Rabs_pos (h + c)%R) as Pd.
  assert (Eh : (Rabs h = Rabs (h / w) * w)%R).
  { rewrite <- (Rabs_pos_eq w) at 2 by lra. rewrite <- Rabs_mult.
    f_equal. field. lra. }
  assert (B1 : (Rabs (Q * w - h) <= Rabs h * u)%R).
  { replace (Q * w - h)%R with ((Q - h / w) * w)%R by (field; lra).
    rewrite Rabs_mult, (Rabs_pos_eq w), Eh by lra. nra. }
  assert (B2 : (Rabs (Q * w) <= Rabs h * (1 + u))%R).
  { replace (Q * w)%R with (h + (Q * w - h))%R by ring.
    eapply Rle_trans; [apply Rabs_triang|]. lra. }
  assert (B3 : (Rabs (P - h) <= Rabs h * (2 * u + u * u))%R).
  { replace (P - h)%R with ((P - Q * w) + (Q * w - h))%R by ring.
    eapply Rle_trans; [apply Rabs_triang|]. nra. }
  assert (B4 : (Rabs (P + c) <= Rabs (h + c) + Rabs h * (2 * u + u * u))%R).
  { replace (P + c)%R with ((h + c) + (P - h))%R by ring.
    eapply Rle_trans; [apply Rabs_triang|]. lra. }
  assert (Hc : ((2 * u + u * u) * (1 + u) <= 3 * u)%R) by nra.
  replace (S - (h + c))%R with ((S - (P + c)) + (P - h))%R by ring.
  eapply Rle_trans; [apply Rabs_triang|]. nra.
Qed.

(** On integer bounds below [2^52] the upper boundary is reached up to
    three roundings. *)
Lemma linear_map_upper_boundary_int (a b c d : Z) :
  a < b ->
  Z.abs a < 2 ^ 52 -> Z.abs b < 2 ^ 52 -> Z.abs c < 2 ^ 52 -> Z.abs d < 2 ^ 52 ->
  exists r,
    outcome (linear_map (Int b) (Int a, Int b) (Int c, Int d)) = Ret (Some (Float r)) /\
    is_finite r = true /\
    (Rabs (float_value r - IZR d)
     <= (3 * Rabs (IZR d - IZR c) + Rabs (IZR d)) / IZR (2 ^ 53))%R.
Proof.
  intros Hab Ha Hb Hc Hd.
  assert (H53 : 2 ^ 53 = 2 * 2 ^ 52) by reflexivity.
  destruct (int_truediv_value (d - c) (b - a) ltac:(lia) ltac:(lia) ltac:(lia))
    as (q & Hq & Rq & Vq).
  destruct (float_of_int_value (b - a) ltac:(lia)) as (w & Hw & Rw & Vw).
  destruct (float_of_int_value c ltac:(lia)) as (fc & Hfc & Rc & Vc).
  exists (q * w + fc)%float. split.
  { apply (linear_map_upper_boundary (Int a) (Int b) (Int c) (Int d) q w fc).
    - rewrite num_lt_int. lia.
    - unfold slope_of. cbn [fst snd num_sub bind num_truediv]. now rewrite Hq.
    - cbn [num_sub bind as_float]. exact Hw.
    - exact Hfc. }
  destruct (SFmul_regular (-105) 55 (-52) 53 _ _ Rq Rw ltac:(lia) ltac:(lia))
    as [Rp Vp].
  fold SF64mul in Rp, Vp. rewrite <- mul_spec in Rp, Vp.
  destruct (SFadd_value 109 (Prim2SF (q * w)) (Prim2SF fc)
              (Prim2SF_valid _) (Prim2SF_valid _)) as [Bs Vs].
  { apply regular_below in Rp. eapply below_le; [|exact Rp]. lia. }
  { apply regular_below in Rc. eapply below_le; [|exact Rc]. lia. }
  { lia. }
  fold SF64add in Bs, Vs. rewrite <- add_spec in Bs, Vs.
  split; [exact (below_is_finite _ _ Bs)|].
  fold (float_value (q * w + fc)) in Vs. fold (float_value (q * w)) in Vs, Vp.
  fold (float_value fc) in Vs. fold (float_value q) in Vp.
  fold (float_value w) in Vp.
  rewrite Vw in Vp. rewrite Vc in Vs. rewrite !minus_IZR in *.
  assert (Hw0 : (0 < IZR b - IZR a)%R)
    by (rewrite <- minus_IZR; apply IZR_lt; lia).
  assert (Hu : (0 <= / IZR (2 ^ 53) <= 1 / 4)%R).
  { change (IZR (2 ^ 53)) with 9007199254740992%R. lra. }
  replace (IZR d) with ((IZR d - IZR c) + IZR c)%R at 1 3 by ring.
  unfold Rdiv in *.
  apply (linear_error (IZR d - IZR c) (IZR b - IZR a) (IZR c)
           (float_value q) (float_value (q * w)) (float_value (q * w + fc)));
    assumption.
Qed.

(** C3 (amended). A value below [src_min] or above [src_max] has no
    result, whatever the domain and the range. On integer bounds below
    [2^52] with [src_min < src_max], [linear_map(src_min, ...) == dst_min]
    exactly, and [linear_map(src_max, ...)] is a finite double within
    [(3 * |dst_max - dst_min| + |dst_max|) * 2^-53] of [dst_max]: the slope,
    its product with the width of the domain and the sum with [dst_min]
    are rounded once each. On any bounds with [src_min < src_max],
    [linear_map(src_min, ...)] equals [float(dst_min)] when [src_min] and
    the slope are finite. *)
Theorem linear_map_boundaries :
  (forall v src_min src_max dst_min dst_max,
      num_lt v src_min = true \/ num_gt v src_max = true ->
      linear_map v (src_min, src_max) (dst_min, dst_max) = io_ret None) /\
  (forall a b c d : Z,
      a < b ->
      Z.abs a < 2 ^ 52 -> Z.abs b < 2 ^ 52 -> Z.abs c < 2 ^ 52 -> Z.abs d < 2 ^ 52 ->
      exists r,
        outcome (linear_map (Int a) (Int a, Int b) (Int c, Int d))
        = Ret (Some (Float r)) /\
        num_eq (Float r) (Int c) = true) /\
  (forall src_min src_max dst_min dst_max slope d,
      num_lt src_min src_max = true ->
      num_finite src_min = true ->
      slope_of (src_min, src_max) (dst_min, dst_max) = Ret (Float slope) ->
      is_finite slope = true ->
      as_float dst_min = Ret d ->
      is_nan d = false ->
      exists r,
        outcome (linear_map src_min (src_min, src_max) (dst_min, dst_max))
        = Ret (Some (Float r)) /\
        (r =? d)%float = true) /\
  (forall a b c d : Z,
      a < b ->
      Z.abs a < 2 ^ 52 -> Z.abs b < 2 ^ 52 -> Z.abs c < 2 ^ 52 -> Z.abs d < 2 ^ 52 ->
      exists r,
        outcome (linear_map (Int b) (Int a, Int b) (Int c, Int d))
        = Ret (Some (Float r)) /\
        is_finite r = true /\
        (Rabs (float_value r - IZR d)
         <= (3 * Rabs (IZR d - IZR c) + Rabs (IZR d)) / IZR (2 ^ 53))%R).
Proof.
  split; [|split; [|split]].
  - intros v src_min src_max dst_min dst_max. apply linear_map_out_of_domain.
  - exact linear_map_lower_boundary_int.
  - intros src_min src_max dst_min dst_max slope d.
    apply linear_map_lower_boundary.
  - exact linear_map_upper_boundary_int.
Qed.

Lemma linear_map_boundaries_witness :
  num_lt (Int 0) (Int 49) = true /\
  linear_map (Int 50) (Int 0, Int 49) (Int 0, Int 1) = io_ret None /\
  (exists r,
      outcome (linear_map (Int 0) (Int 0, Int 49) (Int 0, Int 1)) = Ret (Some (Float r)) /\
      num_eq (Float r) (Int 0) = true) /\
  (exists r,
      outcome (linear_map (Int 49) (Int 0, Int 49) (Int 0, Int 1)) = Ret (Some (Float r)) /\
      is_finite r = true /\
      (Rabs (float_value r - IZR 1)
       <= (3 * Rabs (IZR 1 - IZR 0) + Rabs (IZR 1)) / IZR (2 ^ 53))%R).
Proof.
  destruct linear_map_boundaries as (Hout & Hint & _ & Hmax).
  split; [reflexivity|]. split; [|split].
  - apply Hout. right. reflexivity.
  - apply (Hint 0 49 0 1); [lia | | | |]; reflexivity.
  - apply (Hmax 0 49 0 1); [lia | | | |]; reflexivity.
Defined.

(** The upper boundary is missed by one unit in the last place on the
    domain (0, 49) and the range (0, 1). *)
Lemma linear_map_upper_boundary_inexact :
  num_lt (Int 0) (Int 49) = true /\
  outcome (linear_map (Int 49) (Int 0, Int 49) (Int 0, Int 1))
  = Ret (Some (Float 0x1.fffffffffffffp-1)) /\
  num_eq (Float 0x1.fffffffffffffp-1) (Int 1) = false.
Proof.
  repeat split; vm_compute; reflexivity.
Qed.

Lemma num_sub_raises (a b : num) (e : exn) :
  num_sub a b = Raise e -> e = OverflowError.
Proof.
  unfold num_sub, as_float, float_of_int, checked.
  destruct a as [x | f], b as [y | g]; cbn; try discriminate;
    repeat match goal with
      | |- context [if ?c then _ else _] => destruct c; cbn
      end; congruence.
Qed.

Lemma truediv_by_zero (rise run : num) :
  num_is_zero run = true ->
  num_truediv rise run = Raise ZeroDivisionError \/
  num_truediv rise run = Raise OverflowError.
Proof.
  destruct rise as [x | g], run as [y | f]; cbn [num_is_zero]; intros Hz.
  - apply Z.eqb_eq in Hz as ->. now left.
  - cbn [num_truediv as_float].
    destruct (float_of_int x) as [w | e] eqn:E; cbn [bind].
    + rewrite Hz. now left.
    + right. unfold float_of_int, checked in E.
      destruct (is_finite _); congruence.
  - apply Z.eqb_eq in Hz as ->. now left.
  - cbn [num_truediv as_float bind]. rewrite Hz. now left.
Qed.

(** C4 (amended). On a degenerate domain [(s, s)] with [s] finite,
    [linear_map] never returns a number: below or above [s] it returns no
    result, and otherwise it raises, [ZeroDivisionError] from the division
    or [OverflowError] from the subtraction before it. *)
Theorem linear_map_degenerate (v s dst_min dst_max : num) :
  num_finite s = true ->
  let r := outcome (linear_map v (s, s) (dst_min, dst_max)) in
  (num_lt v s = true \/ num_gt v s = true ->
   linear_map v (s, s) (dst_min, dst_max) = io_ret None) /\
  (num_lt v s = false -> num_gt v s = false ->
   r = Raise ZeroDivisionError \/ r = Raise OverflowError) /\
  (forall x, r <> Ret (Some x)).
Proof.
  intros Hs r.
  assert (Hin : num_lt v s = false -> num_gt v s = false ->
                r = Raise ZeroDivisionError \/ r = Raise OverflowError).
  { intros H1 H2. subst r. rewrite linear_map_outcome, H1, H2.
    cbn [orb]. unfold slope_of. cbn [fst snd].
    destruct (num_sub dst_max dst_min) as [rise | e] eqn:Er; cbn [bind].
    2:{ right. now rewrite (num_sub_raises _ _ _ Er). }
    destruct (num_sub_diag s Hs) as (z & -> & Hz). cbn [bind].
    destruct (truediv_by_zero rise z Hz) as [-> | ->]; auto. }
  split; [apply linear_map_out_of_domain|]. split; [exact Hin|].
  intros x. subst r.
  destruct (num_lt v s) eqn:H1.
  - rewrite linear_map_outcome, H1. discriminate.
  - destruct (num_gt v s) eqn:H2.
    + rewrite linear_map_outcome, H1, H2. discriminate.
    + destruct (Hin eq_refl eq_refl) as [-> | ->]; discriminate.
Qed.

Lemma linear_map_degenerate_witness :
  num_finite (Int 0) = true /\
  linear_map (Int 5) (Int 0, Int 0) (Int 0, Int 1) = io_ret None /\
  forall x, outcome (linear_map (Int 0) (Int 0, Int 0) (Int 0, Int 1)) <> Ret (Some x).
Proof.
  split; [reflexivity|]. split.
  - apply (linear_map_degenerate (Int 5) (Int 0) (Int 0) (Int 1) eq_refl).
    right. reflexivity.
  - apply (linear_map_degenerate (Int 0) (Int 0) (Int 0) (Int 1) eq_refl).
Defined.

(** On the degenerate domain (0, 0) a value off the domain silently has no
    result, and the value 0 reaches the division, which raises Python's
    own [ZeroDivisionError]. *)
Lemma linear_map_degenerate_unguarded :
  num_eq (Int 0) (Int 0) = true /\
  linear_map (Int 5) (Int 0, Int 0) (Int 0, Int 1) = ([], Ret None) /\
  linear_map (Int 0) (Int 0, Int 0) (Int 0, Int 1) = ([], Raise ZeroDivisionError).
Proof.
  repeat split.
Qed.

(** ** Fixed-point encoding *)

Lemma outcome_bind {A B : Type} (m : io A) (k : A -> io B) :
  outcome (io_bind m k) = (a <- outcome m ;; outcome (k a)).
Proof.
  unfold outcome, io_bind. destruct m as [out [a | e]]; cbn; [|reflexivity].
  now destruct (k a).
Qed.

Lemma ceil_div_8 (n : Z) : (n + 7) / 8 = ceil_div n 8.
Proof.
  unfold ceil_div.
  pose proof (Z.div_mod (n + 7) 8 ltac:(lia)).
  pose proof (Z.mod_pos_bound (n + 7) 8 ltac:(lia)).
  pose proof (Z.div_mod (- n) 8 ltac:(lia)).
  pose proof (Z.mod_pos_bound (- n) 8 ltac:(lia)).
  lia.
Qed.

Lemma bit_length_nonneg (v : Z) : 0 <= bit_length v.
Proof.
  unfold bit_length. destruct (v =? 0); [lia|].
  pose proof (Z.log2_nonneg (Z.abs v)). lia.
Qed.

(** Bytes written by [to_bytes] read back as the integer they hold. *)
Lemma int_to_bytes_fits (n w : Z) (signed : bool) :
  0 <= w -> fits n w signed ->
  exists bs, int_to_bytes n w signed = Ret bs /\
             len bs = w /\ bytes_to_int bs signed = n.
Proof.
  intros Hw Hf.
  assert (Hp : 0 < 256 ^ w) by (apply Z.pow_pos_nonneg; lia).
  unfold int_to_bytes, int_to_bytes_method, fits in *.
  replace (w <? 0) with false by lia.
  destruct signed.
  - replace ((- 256 ^ w <=? 2 * n) && (2 * n <? 256 ^ w)) with true by lia.
    eexists. split; [reflexivity|].
    assert (Hl : len (be_bytes (Z.to_nat w) (n mod 256 ^ w)) = w)
      by (unfold len; rewrite be_bytes_length; lia).
    split; [exact Hl|].
    unfold bytes_to_int, int_from_bytes. rewrite Hl.
    pose proof (Z.mod_pos_bound n (256 ^ w) Hp) as Hm.
    rewrite be_value_be_bytes by (rewrite Z2Nat.id; lia).
    cbn [andb].
    destruct (Z.lt_ge_cases n 0) as [Hneg | Hpos].
    + assert (E : n mod 256 ^ w = n + 256 ^ w).
      { symmetry. apply Z.mod_unique with (q := -1); lia. }
      rewrite E. replace (256 ^ w <=? 2 * (n + 256 ^ w)) with true by lia. lia.
    + rewrite Z.mod_small by lia.
      replace (256 ^ w <=? 2 * n) with false by lia. reflexivity.
  - replace ((0 <=? n) && (n <? 256 ^ w)) with true by lia.
    eexists. split; [reflexivity|].
    split; [unfold len; rewrite be_bytes_length; lia|].
    unfold bytes_to_int, int_from_bytes. cbn [andb].
    apply be_value_be_bytes. rewrite Z2Nat.id; lia.
Qed.

Lemma float_to_bytes_outcome (value : num) (dmin dmax rmin rmax : num) :
  outcome (float_to_bytes value (dmin, dmax) (rmin, rmax)) =
  (bits <- num_bit_length dmax ;;
   mapped <- outcome (linear_map value (rmin, rmax) (dmin, dmax)) ;;
   rounded <- py_round mapped ;;
   int_to_bytes rounded ((bits + 7) / 8) (num_lt dmin (Int 0))).
Proof.
  unfold float_to_bytes. rewrite outcome_bind. cbn [outcome print snd bind].
  rewrite outcome_bind. cbn [outcome pure snd].
  destruct (num_bit_length dmax) as [bits|]; cbn [bind]; [|reflexivity].
  rewrite outcome_bind. fold (outcome (linear_map value (rmin, rmax) (dmin, dmax))).
  destruct (outcome (linear_map value (rmin, rmax) (dmin, dmax))) as [mapped|];
    cbn [bind]; [|reflexivity].
  rewrite outcome_bind. cbn [outcome pure snd].
  destruct (py_round mapped) as [rounded|]; cbn [bind]; [|reflexivity].
  unfold int_to_bytes.
  destruct (int_to_bytes_method _ _ _); reflexivity.
Qed.

Lemma finite_below (f : float) :
  is_finite f = true -> exists K, below K (Prim2SF f).
Proof.
  intros Hf. apply finite_spec in Hf.
  destruct (Prim2SF f) as [s | s | | s m e]; try contradiction.
  - exists 0. exact I.
  - exists (Zpos (digits2_pos m) + e). cbn [below]. lia.
Qed.

Lemma num_le_int (a b : Z) : num_le (Int a) (Int b) = (a <=? b).
Proof.
  unfold num_le, Z.leb. cbn [num_compare]. now destruct (a ?= b).
Qed.

(** On integer tables below [2^52], every value of the source domain is
    mapped to a finite float. *)
Lemma linear_map_in_range_finite (value : num) (a b c d : Z) :
  a < b ->
  Z.abs a < 2 ^ 52 -> Z.abs b < 2 ^ 52 -> Z.abs c < 2 ^ 52 -> Z.abs d < 2 ^ 52 ->
  num_le (Int a) value = true -> num_le value (Int b) = true ->
  exists m,
    outcome (linear_map value (Int a, Int b) (Int c, Int d)) = Ret (Some (Float m)) /\
    is_finite m = true.
Proof.
  intros Hab Ha Hb Hc Hd Hlo Hhi.
  assert (H53 : 2 ^ 53 = 2 * 2 ^ 52) by reflexivity.
  rewrite linear_map_outcome, (num_le_not_lt _ _ Hlo), (num_le_not_gt _ _ Hhi).
  cbn [orb]. unfold slope_of. cbn [fst snd num_sub bind num_truediv].
  destruct (int_truediv_value (d - c) (b - a) ltac:(lia) ltac:(lia) ltac:(lia))
    as (q & Hq & Rq & _).
  rewrite Hq. cbn [bind].
  destruct (float_of_int_value c ltac:(lia)) as (fc & Hfc & Rc & _).
  assert (Bc : below 111 (Prim2SF fc))
    by (apply regular_below in Rc; eapply below_le; [|exact Rc]; lia).
  destruct value as [v | f].
  - rewrite num_le_int in Hlo, Hhi.
    destruct (float_of_int_value (v - a) ltac:(lia)) as (w & Hw & Rw & _).
    cbn [num_sub bind]. rewrite (num_mul_float q (Int (v - a)) w Hw). cbn [bind].
    rewrite (num_add_float _ (Int c) fc Hfc). cbn [bind].
    eexists. split; [reflexivity|].
    pose proof (SFmul_below (-105) 55 53 _ _ Rq (regular_below _ _ _ Rw) ltac:(lia))
      as Bp.
    fold SF64mul in Bp. rewrite <- mul_spec in Bp.
    change (Z.max (55 + 53) (-1074) + 1) with 109 in Bp.
    destruct (SFadd_value 111 (Prim2SF (q * w)) (Prim2SF fc)
                (Prim2SF_valid _) (Prim2SF_valid _)
                ltac:(eapply below_le; [|exact Bp]; lia) Bc ltac:(lia)) as [Bs _].
    fold SF64add in Bs. rewrite <- add_spec in Bs.
    exact (below_is_finite _ _ Bs).
  - destruct (float_of_int_value a ltac:(lia)) as (fa & Hfa & Ra & _).
    cbn [num_sub as_float bind]. rewrite Hfa. cbn [bind num_mul as_float].
    rewrite (num_add_float _ (Int c) fc Hfc). cbn [bind].
    eexists. split; [reflexivity|].
    pose proof (between_ints_below a b f Ha Hb Hlo Hhi) as Bf.
    destruct (SFsub_value 53 (Prim2SF f) (Prim2SF fa)
                (Prim2SF_valid _) (Prim2SF_valid _) Bf
                (regular_below _ _ _ Ra) ltac:(lia)) as [Bo _].
    fold SF64sub in Bo. rewrite <- sub_spec in Bo.
    pose proof (SFmul_below (-105) 55 55 _ _ Rq Bo ltac:(lia)) as Bp.
    fold SF64mul in Bp. rewrite <- mul_spec in Bp.
    change (Z.max (55 + 55) (-1074) + 1) with 111 in Bp.
    destruct (SFadd_value 111 (Prim2SF (q * (f - fa))) (Prim2SF fc)
                (Prim2SF_valid _) (Prim2SF_valid _) Bp Bc ltac:(lia)) as [Bs _].
    fold SF64add in Bs. rewrite <- add_spec in Bs.
    exact (below_is_finite _ _ Bs).
Qed.

(** C8 (amended). [float_to_bytes] maps the value by [linear_map] from
    the physical range to the integer domain. Whenever the mapped value is
    a finite float, it is rounded to an integer nearest to it, the even one
    of two, and when that integer fits [ceil(bit_length(domain_max)/8)]
    bytes, signed exactly when [domain_min < 0], the result is exactly that
    many bytes holding it big-endian. On integer tables below [2^52] with
    [range_min < range_max], every value inside the physical range is
    mapped to a finite float. *)
Theorem float_to_bytes_spec
  (value range_min range_max : num) (domain_min domain_max : Z) :
  let width := ceil_div (bit_length domain_max) 8 in
  let signed := domain_min <? 0 in
  let mapped :=
    outcome (linear_map value (range_min, range_max) (Int domain_min, Int domain_max)) in
  let encoded :=
    outcome (float_to_bytes value (Int domain_min, Int domain_max) (range_min, range_max)) in
  (forall m,
      mapped = Ret (Some (Float m)) -> is_finite m = true ->
      exists n,
        py_round (Some (Float m)) = Ret n /\
        (Rabs (IZR n - float_value m) <= 1 / 2)%R /\
        ((Rabs (IZR n - float_value m) = 1 / 2)%R -> Z.even n = true) /\
        (fits n width signed ->
         exists bs, encoded = Ret bs /\ len bs = width /\ bytes_to_int bs signed = n)) /\
  (forall a b : Z,
      range_min = Int a -> range_max = Int b -> a < b ->
      Z.abs a < 2 ^ 52 -> Z.abs b < 2 ^ 52 ->
      Z.abs domain_min < 2 ^ 52 -> Z.abs domain_max < 2 ^ 52 ->
      num_le range_min value = true -> num_le value range_max = true ->
      exists m, mapped = Ret (Some (Float m)) /\ is_finite m = true).
Proof.
  intros width signed mapped encoded. split.
  - intros m Hm Hfin.
    destruct (finite_below m Hfin) as [K HK].
    destruct (float_round_nearest K m HK) as (n & Hn & Hnear & Htie).
    exists n. split; [exact Hn|]. split; [exact Hnear|]. split; [exact Htie|].
    intros Hfit. subst encoded. rewrite float_to_bytes_outcome.
    cbn [num_bit_length bind]. fold mapped. rewrite Hm. cbn [bind].
    cbn [py_round] in Hn |- *. rewrite Hn. cbn [bind].
    rewrite ceil_div_8, num_lt_int.
    apply int_to_bytes_fits; [|exact Hfit].
    subst width. rewrite <- ceil_div_8.
    pose proof (bit_length_nonneg domain_max).
    apply Z.div_pos; lia.
  - intros a b -> -> Hab Ha Hb Hc Hd Hlo Hhi.
    apply (linear_map_in_range_finite value a b domain_min domain_max);
      assumption.
Qed.

Lemma float_to_bytes_spec_witness :
  exists m,
    outcome (linear_map (Float 45) (Int (-90), Int 90)
                        (Int (- (2 ^ 31 - 1)), Int (2 ^ 31 - 1)))
    = Ret (Some (Float m)) /\
    is_finite m = true /\
    outcome (float_to_bytes (Float 45) (Int (- (2 ^ 31 - 1)), Int (2 ^ 31 - 1))
                            (Int (-90), Int 90))
    = Ret [x40; x00; x00; x00].
Proof.
  destruct (float_to_bytes_spec (Float 45) (Int (-90)) (Int 90)
              (- (2 ^ 31 - 1)) (2 ^ 31 - 1)) as [HA HB].
  destruct (HB (-90) 90 eq_refl eq_refl ltac:(lia) eq_refl eq_refl eq_refl eq_refl
               eq_refl eq_refl) as (m & Hm & Hfin).
  destruct (HA m Hm Hfin) as (n & Hn & _ & _ & Hfit).
  exists m. split; [exact Hm|]. split; [exact Hfin|].
  assert (E : Ret (Some (Float m)) = Ret (Some (Float 0x1.fffffffcp29)))
    by (rewrite <- Hm; vm_compute; reflexivity).
  injection E as ->.
  assert (En : n = 1073741824) by (vm_compute in Hn; now injection Hn).
  subst n.
  destruct Hfit as (bs & Hbs & _ & _); [cbn; lia|].
  rewrite Hbs. f_equal. vm_compute in Hbs. now injection Hbs.
Defined.

(** Inside the range (-1, 1) the value 1 maps to 255 on the domain
    (-255, 255), which one signed byte cannot hold: [to_bytes] raises. *)
Lemma float_to_bytes_sign_overflow :
  num_le (Int (-1)) (Float 1) = true /\
  num_le (Float 1) (Int 1) = true /\
  outcome (linear_map (Float 1) (Int (-1), Int 1) (Int (-255), Int 255))
  = Ret (Some (Float 255)) /\
  ceil_div (bit_length 255) 8 = 1 /\
  outcome (float_to_bytes (Float 1) (Int (-255), Int 255) (Int (-1), Int 1))
  = Raise OverflowError.
Proof.
  repeat split.
Qed.

(** With the domain (-10, 0) the width is 0 bytes: the value 0.9 of the
    range (0, 1) maps to -1, which [to_bytes] writes as the empty string. *)
Lemma float_to_bytes_empty :
  outcome (linear_map (Float 0x1.ccccccccccccdp-1) (Int 0, Int 1) (Int (-10), Int 0))
  = Ret (Some (Float (-1))) /\
  outcome (float_to_bytes (Float 0x1.ccccccccccccdp-1) (Int (-10), Int 0) (Int 0, Int 1)) = Ret [].
Proof.
  split; vm_compute; reflexivity.
Qed.

(** ** Timestamp codec *)

Lemma pack_Q_spec (n : Z) :
  0 <= n < 2 ^ 64 ->
  pack_Q n = Ret (be_bytes 8 n) /\
  len (be_bytes 8 n) = 8 /\ bytes_to_int (be_bytes 8 n) false = n.
Proof.
  intros Hn. unfold pack_Q.
  replace ((0 <=? n) && (n <? 2 ^ 64)) with true by lia.
  split; [reflexivity|]. split; [reflexivity|].
  apply be_value_be_bytes. change (256 ^ Z.of_nat 8) with (2 ^ 64). lia.
Qed.

Lemma bytes_to_datetime_value (bs : list byte) :
  bytes_to_datetime bs =
  (x <- float_of_int (bytes_to_int bs false) ;; fromtimestamp (x / e6)%float).
Proof.
  unfold bytes_to_datetime. cbn [num_truediv as_float].
  destruct (float_of_int _); reflexivity.
Qed.


(** ** Whole seconds *)

Lemma mantissa_shift_bound (j m : positive) (t : Z) :
  0 <= t -> Zpos m = Zpos j * 2 ^ t -> Zpos m < 2 ^ 53 -> t < 53.
Proof.
  intros Ht Hm Hlt.
  destruct (Z.lt_ge_cases t 53) as [|Hbig]; [assumption|].
  assert (2 ^ 53 <= 2 ^ t) by (apply Z.pow_le_mono_r; lia). nia.
Qed.

(** [k * 10^6 / 10^6] on integers is the float [k], of mantissa [m]. *)
Lemma seconds_div (k m : positive) (t : Z) :
  0 <= t -> Zpos m = Zpos k * 2 ^ t -> 2 ^ 52 <= Zpos m < 2 ^ 53 ->
  SFdiv prec emax (S754_finite false (k * 1000000) 0) (S754_finite false 1000000 0)
  = S754_finite false m (- t).
Proof.
  intros Ht Hm Hmr.
  pose proof (mantissa_shift_bound k m t Ht Hm ltac:(lia)) as Bt.
  pose proof (digits2_pos_spec (k * 1000000)) as [Hlo Hhi].
  set (d1 := Zpos (digits2_pos (k * 1000000))) in *.
  assert (Hd1 : 1 <= d1) by (subst d1; lia).
  assert (Pt : 0 < 2 ^ t) by (apply Z.pow_pos_nonneg; lia).
  assert (Hd : d1 + t <= 73).
  { destruct (Z.le_gt_cases (d1 + t) 73) as [|Hbig]; [assumption|].
    assert (H : 2 ^ 73 <= 2 ^ (d1 - 1 + t)) by (apply Z.pow_le_mono_r; lia).
    rewrite Z.pow_add_r in H by lia.
    rewrite Pos2Z.inj_mul in Hlo.
    assert (2 ^ 73 <= Zpos m * 1000000) by nia.
    change (2 ^ 73) with (2 ^ 53 * 2 ^ 20) in *. change (2 ^ 20) with 1048576 in *.
    nia. }
  assert (Ps : 0 < 2 ^ (73 - d1)) by (apply Z.pow_pos_nonneg; lia).
  set (Q := Z.to_pos (Zpos k * 2 ^ (73 - d1))).
  assert (HQ : Zpos Q = Zpos k * 2 ^ (73 - d1)) by (subst Q; rewrite Z2Pos.id; nia).
  rewrite (SFdiv_exact false false (k * 1000000) 1000000 Q 0 0 (d1 - 73)).
  - cbn [xorb].
    destruct (binary_round_aux_shift false Q m (d1 - 73) (73 - d1 - t))
      as [Hr _]; try lia.
    + rewrite HQ, Hm, <- Z.mul_assoc, <- Z.pow_add_r by lia. do 2 f_equal. lia.
    + rewrite Hr. f_equal. lia.
  - fold d1. change (Zpos (digits2_pos 1000000)) with 20. lia.
  - replace (0 - 0 - (d1 - 73)) with (73 - d1) by lia.
    rewrite HQ, Pos2Z.inj_mul. ring.
Qed.

(** The integer part of the float [k * 10^6], of mantissa [mn]. *)
Lemma trunc_micros (k mn : positive) (tn : Z) (x : float) :
  0 <= tn -> Zpos mn = Zpos k * 15625 * 2 ^ tn ->
  Prim2SF x = S754_finite false mn (6 - tn) ->
  float_trunc x = Ret (Zpos k * 1000000).
Proof.
  intros Htn Hmn Hx. unfold float_trunc. rewrite Hx. cbn [cond_Zopp]. f_equal.
  rewrite Hmn. destruct (0 <=? 6 - tn) eqn:E.
  - replace (Zpos k * 15625 * 2 ^ tn * 2 ^ (6 - tn))
      with (Zpos k * 15625 * (2 ^ tn * 2 ^ (6 - tn))) by ring.
    rewrite <- Z.pow_add_r by lia.
    replace (tn + (6 - tn)) with 6 by lia. change (2 ^ 6) with 64. lia.
  - replace tn with (6 + (- (6 - tn))) at 1 by lia.
    rewrite Z.pow_add_r by lia. change (2 ^ 6) with 64.
    replace (Zpos k * 15625 * (64 * 2 ^ (- (6 - tn))))
      with (Zpos k * 1000000 * 2 ^ (- (6 - tn))) by ring.
    apply Z.div_mul.
    assert (0 < 2 ^ (- (6 - tn))) by (apply Z.pow_pos_nonneg; lia). lia.
Qed.

(** The integer [k * 10^6] converts to a float without rounding. *)
Lemma float_of_micros (k mn : positive) (tn : Z) :
  0 <= tn -> Zpos mn = Zpos k * 15625 * 2 ^ tn -> 2 ^ 52 <= Zpos mn < 2 ^ 53 ->
  exists x, float_of_int (Zpos k * 1000000) = Ret x /\
            Prim2SF x = S754_finite false mn (6 - tn).
Proof.
  intros Htn Hmn Hmnr.
  pose proof (mantissa_shift_bound (k * 15625) mn tn Htn
                ltac:(rewrite Pos2Z.inj_mul; exact Hmn) ltac:(lia)) as Btn.
  unfold float_of_int. change (Zpos k * 1000000) with (Zpos (k * 1000000)).
  cbn [binary_normalize].
  rewrite (binary_round_exact false (k * 1000000) mn (6 - tn)); try lia.
  - pose proof (Prim2SF_SF2Prim _ (valid_normal false mn (6 - tn) Hmnr ltac:(lia))) as Hx.
    eexists. unfold checked. rewrite (finite_is_finite _ _ _ _ Hx).
    split; [reflexivity | exact Hx].
  - intros He. rewrite Pos2Z.inj_mul, Hmn.
    replace tn with (6 + (- (6 - tn))) at 1 by lia.
    rewrite Z.pow_add_r by lia. change (2 ^ 6) with 64. ring.
  - intros He. rewrite Pos2Z.inj_mul, Hmn.
    replace (Zpos k * 15625 * 2 ^ tn * 2 ^ (6 - tn))
      with (Zpos k * 15625 * (2 ^ tn * 2 ^ (6 - tn))) by ring.
    rewrite <- Z.pow_add_r by lia.
    replace (tn + (6 - tn)) with 6 by lia. change (2 ^ 6) with 64. lia.
Qed.

(** [fromtimestamp] on the float [k] is the instant [k] seconds after the
    epoch. *)
Lemma fromtimestamp_whole (k m : positive) (t : Z) (x : float) :
  Zpos k < 253402300800 ->
  0 <= t -> Zpos m = Zpos k * 2 ^ t -> 2 ^ 52 <= Zpos m < 2 ^ 53 ->
  Prim2SF x = S754_finite false m (- t) ->
  fromtimestamp x = Ret (Zpos k * 1000000).
Proof.
  intros Hk Ht Hm Hmr Hx.
  pose proof (mantissa_shift_bound k m t Ht Hm ltac:(lia)) as Bt.
  assert (Pt : 0 < 2 ^ t) by (apply Z.pow_pos_nonneg; lia).
  unfold fromtimestamp.
  assert (Htr : float_trunc x = Ret (Zpos k)).
  { unfold float_trunc. rewrite Hx. cbn [cond_Zopp]. f_equal.
    destruct (0 <=? - t) eqn:E.
    - replace t with 0 in * by lia. change (2 ^ (- 0)) with 1.
      change (2 ^ 0) with 1 in Hm. lia.
    - rewrite Z.opp_involutive, Hm. apply Z.div_mul. lia. }
  rewrite Htr. cbn [bind binary_normalize].
  rewrite (binary_round_exact false k m (- t)); try lia.
  - rewrite <- Hx, SF2Prim_Prim2SF.
    rewrite float_round_zero_e6
      by (apply sub_diag; exact (finite_is_finite _ _ _ _ Hx)).
    cbn [bind]. change (1000000 <=? 0) with false. change (0 <? 0) with false.
    cbv iota beta.
    replace ((datetime_min <=? Zpos k * 1000000 + 0)
             && (Zpos k * 1000000 + 0 <=? datetime_max)) with true
      by (unfold datetime_min, datetime_max; lia).
    f_equal; lia.
  - intros _. rewrite Z.opp_involutive. exact Hm.
  - intros He. replace t with 0 in * by lia. change (2 ^ (- 0)) with 1.
    change (2 ^ 0) with 1 in Hm. lia.
Qed.

Section WholeSeconds.

(** [k] seconds, with the mantissas [m] of the float [k] and [mn] of the
    float [k * 10^6]. *)
Variables (k m mn : positive) (t tn : Z).
Hypothesis Ht : 0 <= t.
Hypothesis Hm : Zpos m = Zpos k * 2 ^ t.
Hypothesis Hmr : 2 ^ 52 <= Zpos m < 2 ^ 53.
Hypothesis Htn : 0 <= tn.
Hypothesis Hmn : Zpos mn = Zpos k * 15625 * 2 ^ tn.
Hypothesis Hmnr : 2 ^ 52 <= Zpos mn < 2 ^ 53.

Lemma whole_bounds : t < 53 /\ tn < 53 /\ t <= tn + 14 /\ tn <= t + 39.
Proof.
  assert (Pt : 0 < 2 ^ t) by (apply Z.pow_pos_nonneg; lia).
  assert (Ptn : 0 < 2 ^ tn) by (apply Z.pow_pos_nonneg; lia).
  repeat split.
  - apply (mantissa_shift_bound k m t Ht Hm). lia.
  - apply (mantissa_shift_bound (k * 15625) mn tn Htn); [|lia].
    rewrite Pos2Z.inj_mul. exact Hmn.
  - destruct (Z.le_gt_cases t (tn + 14)) as [|Hbig]; [assumption|].
    assert (H : 2 ^ (tn + 15) <= 2 ^ t) by (apply Z.pow_le_mono_r; lia).
    rewrite Z.pow_add_r in H by lia. change (2 ^ 15) with 32768 in H.
    set (P := Zpos k * 2 ^ tn) in *.
    assert (32768 * P <= Zpos m) by (subst P; nia).
    assert (Zpos mn = 15625 * P) by (subst P; lia). lia.
  - destruct (Z.le_gt_cases tn (t + 39)) as [|Hbig]; [assumption|].
    assert (H : 2 ^ (t + 40) <= 2 ^ tn) by (apply Z.pow_le_mono_r; lia).
    rewrite Z.pow_add_r in H by lia. change (2 ^ 40) with 1099511627776 in H.
    assert (1099511627776 * Zpos m <= Zpos k * 2 ^ tn) by nia. lia.
Qed.

(** The float [k] times [1e6] is the float [k * 10^6]. *)
Lemma mul_e6_whole (x : float) :
  Prim2SF x = S754_finite false m (- t) ->
  Prim2SF (x * e6)%float = S754_finite false mn (6 - tn).
Proof.
  pose proof whole_bounds as (Bt & Btn & B1 & B2).
  intros Hx. rewrite mul_spec, Hx, e6_spec. unfold SF64mul, SFmul. cbn [xorb].
  destruct (binary_round_aux_shift false (m * 8589934592000000) mn
              (- t + -33) (t + 39 - tn)) as [Hr _]; try lia.
  - rewrite Pos2Z.inj_mul, Hm, Hmn.
    replace (Zpos k * 15625 * 2 ^ tn * 2 ^ (t + 39 - tn))
      with (Zpos k * 15625 * (2 ^ tn * 2 ^ (t + 39 - tn))) by ring.
    rewrite <- Z.pow_add_r by lia.
    replace (tn + (t + 39 - tn)) with (t + 39) by lia.
    rewrite Z.pow_add_r by lia. change (2 ^ 39) with 549755813888. lia.
  - rewrite Hr. f_equal. lia.
Qed.

(** The float [k * 10^6] divided by [1e6] is the float [k]. *)
Lemma div_e6_whole (x : float) :
  Prim2SF x = S754_finite false mn (6 - tn) ->
  Prim2SF (x / e6)%float = S754_finite false m (- t).
Proof.
  pose proof whole_bounds as (Bt & Btn & B1 & B2).
  intros Hx. rewrite div_spec, Hx, e6_spec. unfold SF64div.
  assert (Ps : 0 < 2 ^ (tn + 14)) by (apply Z.pow_pos_nonneg; lia).
  set (Q := Z.to_pos (Zpos k * 2 ^ (tn + 14))).
  assert (HQ : Zpos Q = Zpos k * 2 ^ (tn + 14)) by (subst Q; rewrite Z2Pos.id; nia).
  assert (Hdm : Zpos (digits2_pos mn) = 53)
    by (apply digits2_pos_unique; change (53 - 1) with 52; lia).
  rewrite (SFdiv_exact false false mn 8589934592000000 Q (6 - tn) (-33) (-14 - tn)).
  - cbn [xorb].
    destruct (binary_round_aux_shift false Q m (-14 - tn) (tn + 14 - t))
      as [Hr _]; try lia.
    + rewrite HQ, Hm, <- Z.mul_assoc, <- Z.pow_add_r by lia. do 2 f_equal. lia.
    + rewrite Hr. f_equal. lia.
  - rewrite Hdm. change (Zpos (digits2_pos 8589934592000000)) with 53. lia.
  - replace (6 - tn - -33 - (-14 - tn)) with 53 by lia.
    rewrite HQ, Hmn, Z.pow_add_r by lia.
    change (2 ^ 14) with 16384. change (2 ^ 53) with 9007199254740992. lia.
Qed.

End WholeSeconds.

(** The microseconds the code computes for [k] whole seconds. *)
Lemma float_micros_seconds (k : Z) :
  0 <= k < 253402300800 -> float_micros (k * 1000000) = Ret (k * 1000000).
Proof.
  intros Hk. destruct k as [|k|k]; [reflexivity | | lia].
  destruct (normal_mantissa k) as (m & t & Ht & Hm & Hmr).
  { apply Z.lt_trans with 253402300800; [lia | reflexivity]. }
  destruct (normal_mantissa (k * 15625)) as (mn & tn & Htn & Hmn & Hmnr).
  { rewrite Pos2Z.inj_mul.
    apply Z.lt_trans with (253402300800 * 15625); [lia | reflexivity]. }
  rewrite Pos2Z.inj_mul in Hmn.
  unfold float_micros, timestamp, int_truediv.
  change (Zpos k * 1000000) with (Zpos (k * 1000000)).
  cbn [Z.eqb Z.ltb Z.compare Z.abs Z.to_pos].
  rewrite (seconds_div k m t) by (assumption || lia).
  pose proof (Prim2SF_SF2Prim _ (valid_normal false m (- t) Hmr ltac:(lia))) as Hx.
  unfold checked. rewrite (finite_is_finite _ _ _ _ Hx). cbn [bind].
  apply (trunc_micros k mn tn); try (assumption || lia).
  apply (mul_e6_whole k m mn t tn); (assumption || lia).
Qed.

(** A buffer that holds [k] whole seconds in microseconds is read as that
    instant. *)
Lemma bytes_to_datetime_seconds (k : Z) (bs : list byte) :
  0 <= k < 253402300800 ->
  bytes_to_int bs false = k * 1000000 ->
  bytes_to_datetime bs = Ret (k * 1000000).
Proof.
  intros Hk Hv. rewrite bytes_to_datetime_value, Hv.
  destruct k as [|k|k]; [vm_compute; reflexivity | | lia].
  destruct (normal_mantissa k) as (m & t & Ht & Hm & Hmr).
  { apply Z.lt_trans with 253402300800; [lia | reflexivity]. }
  destruct (normal_mantissa (k * 15625)) as (mn & tn & Htn & Hmn & Hmnr).
  { rewrite Pos2Z.inj_mul.
    apply Z.lt_trans with (253402300800 * 15625); [lia | reflexivity]. }
  rewrite Pos2Z.inj_mul in Hmn.
  destruct (float_of_micros k mn tn) as (x & Hx & Hpx); try (assumption || lia).
  rewrite Hx. cbn [bind].
  apply (fromtimestamp_whole k m t); try (assumption || lia).
  apply (div_e6_whole k m mn t tn); (assumption || lia).
Qed.

Lemma whole_seconds (t : datetime) :
  is_datetime t -> 0 <= t -> t mod 1000000 = 0 ->
  exists k, t = k * 1000000 /\ 0 <= k < 253402300800.
Proof.
  unfold is_datetime, datetime_min, datetime_max. intros Ht H0 Hmod.
  exists (t / 1000000). pose proof (Z.div_mod t 1000000 ltac:(lia)). lia.
Qed.


(** ** Microseconds in double precision *)


(** The constant [1e6] denotes one million. *)
Lemma e6_value : float_value e6 = 1000000%R /\ regular (-33) 20 (Prim2SF e6).
Proof.
  unfold float_value. rewrite e6_spec. cbn [SF2R cond_Zopp regular]. split; [|lia].
  change (-33) with (- (33)). rewrite (powerRZ_neg' 2 33), <- pow2_IZR by lia.
  change (2 ^ 33) with 8589934592. lra.
Qed.


(** ** Reading microseconds *)

(** A positive integer below [2^53] converts to a float without rounding. *)
Lemma float_of_pos (p : positive) :
  Zpos p < 2 ^ 53 ->
  exists (x : float) (m : positive) (t : Z),
    float_of_int (Zpos p) = Ret x /\ Prim2SF x = S754_finite false m (- t) /\
    0 <= t < 53 /\ Zpos m = Zpos p * 2 ^ t /\ 2 ^ 52 <= Zpos m < 2 ^ 53.
Proof.
  intros Hp. destruct (normal_mantissa p Hp) as (m & t & Ht & Hm & Hmr).
  unfold float_of_int. cbn [binary_normalize].
  rewrite (binary_round_exact false p m (- t)); try lia.
  - pose proof (Prim2SF_SF2Prim _ (valid_normal false m (- t) Hmr ltac:(lia))) as Hx.
    eexists _, m, t. unfold checked. rewrite (finite_is_finite _ _ _ _ Hx).
    split; [reflexivity|]. split; [exact Hx|]. split; [exact Ht|]. split; assumption.
  - intros _. rewrite Z.opp_involutive. exact Hm.
  - intros He. replace t with 0 in * by lia. change (2 ^ (- 0)) with 1.
    change (2 ^ 0) with 1 in Hm. lia.
Qed.

(** The fraction that [fromtimestamp] splits off is exact. *)
Lemma fraction_exact (mx : positive) (k : Z) (x : float) :
  2 ^ 52 <= Zpos mx < 2 ^ 53 -> 0 < k <= 104 ->
  Prim2SF x = S754_finite false mx (- k) ->
  let frac :=
    (x - SF2Prim (binary_normalize prec emax (Zpos mx / 2 ^ k) 0 false))%float in
  regular (-104) 0 (Prim2SF frac) /\
  float_value frac = (IZR (Zpos mx mod 2 ^ k) * powerRZ 2 (- k))%R.
Proof.
  intros Hmx Hk Hx frac. subst frac. unfold float_value.
  rewrite sub_spec, Hx. unfold SF64sub.
  assert (Pk : 0 < 2 ^ k) by (apply Z.pow_pos_nonneg; lia).
  destruct (Z.le_gt_cases 53 k) as [Hbig | Hsmall].
  - assert (H53 : 2 ^ 53 <= 2 ^ k) by (apply Z.pow_le_mono_r; lia).
    rewrite Z.div_small, Z.mod_small by lia. cbn [binary_normalize].
    rewrite Prim2SF_SF2Prim by reflexivity.
    cbn [SFsub regular SF2R cond_Zopp]. split; [lia | reflexivity].
  - pose proof (Z.div_mod (Zpos mx) (2 ^ k) ltac:(lia)) as Hdm.
    pose proof (Z.mod_pos_bound (Zpos mx) (2 ^ k) Pk) as Hr.
    assert (E52 : 2 ^ 52 = 2 ^ k * 2 ^ (52 - k))
      by (rewrite <- Z.pow_add_r by lia; f_equal; lia).
    assert (Hq : 2 ^ (52 - k) <= Zpos mx / 2 ^ k)
      by (apply Z.div_le_lower_bound; lia).
    assert (P52 : 0 < 2 ^ (52 - k)) by (apply Z.pow_pos_nonneg; lia).
    destruct (Zpos mx / 2 ^ k) as [|q|q] eqn:Eq; try lia.
    cbn [binary_normalize].
    set (mw := Z.to_pos (Zpos q * 2 ^ k)).
    assert (Hmw : Zpos mw = Zpos q * 2 ^ k) by (subst mw; rewrite Z2Pos.id; nia).
    assert (Hmwr : 2 ^ 52 <= Zpos mw < 2 ^ 53) by nia.
    rewrite (binary_round_exact false q mw (- k)); try lia.
    + rewrite Prim2SF_SF2Prim by (apply valid_normal; lia).
      cbn [SFsub]. rewrite Z.min_id. unfold shl_align. rewrite Z.sub_diag.
      cbn [fst cond_Zopp].
      replace (Zpos mx - Zpos mw) with (Zpos mx mod 2 ^ k) by lia.
      apply binary_normalize_fraction; lia.
    + intros _. rewrite Z.opp_involutive. exact Hmw.
Qed.

(** [fromtimestamp] on a float within a quarter of a microsecond of [n]
    microseconds is the instant [n]. *)
Lemma fromtimestamp_micros (x : float) (mx : positive) (k n : Z) :
  2 ^ 52 <= Zpos mx < 2 ^ 53 -> 0 < k <= 104 ->
  Prim2SF x = S754_finite false mx (- k) ->
  0 <= n <= datetime_max ->
  (Rabs (IZR (Zpos mx) * powerRZ 2 (- k) * 1000000 - IZR n) <= 1 / 4)%R ->
  fromtimestamp x = Ret n.
Proof.
  intros Hmx Hk Hx Hn Hnear. unfold fromtimestamp.
  assert (Htr : float_trunc x = Ret (Zpos mx / 2 ^ k)).
  { unfold float_trunc. rewrite Hx. cbn [cond_Zopp].
    replace (0 <=? - k) with false by lia. now rewrite Z.opp_involutive. }
  rewrite Htr. cbn [bind].
  destruct (fraction_exact mx k x Hmx Hk Hx) as [Rf Vf].
  set (frac := (x - SF2Prim (binary_normalize prec emax (Zpos mx / 2 ^ k) 0 false))%float)
    in *.
  destruct e6_value as [Ve6 Re6].
  destruct (SFmul_regular (-104) 0 (-33) 20 _ _ Rf Re6 ltac:(lia) ltac:(lia))
    as [Rp Vp].
  fold SF64mul in Rp, Vp. rewrite <- mul_spec in Rp, Vp.
  fold (float_value (frac * e6)) in Vp. fold (float_value frac) in Vp.
  fold (float_value e6) in Vp. rewrite Ve6 in Vp.
  destruct (float_round_nearest _ (frac * e6)%float (regular_below _ _ _ Rp))
    as (us & Hus & Hnr & _).
  rewrite Hus. cbn [bind].
  assert (Pk : 0 < 2 ^ k) by (apply Z.pow_pos_nonneg; lia).
  pose proof (Z.div_mod (Zpos mx) (2 ^ k) ltac:(lia)) as Hdm.
  pose proof (Z.mod_pos_bound (Zpos mx) (2 ^ k) Pk) as Hr.
  set (whole := Zpos mx / 2 ^ k) in *. set (r := Zpos mx mod 2 ^ k) in *.
  assert (Eus : us = n - whole * 1000000).
  { assert (Ep : powerRZ 2 (- k) = (/ IZR (2 ^ k))%R)
      by (now rewrite powerRZ_neg', pow2_IZR by lia).
    assert (Pr : (0 < IZR (2 ^ k))%R) by (apply IZR_lt; exact Pk).
    rewrite Ep in Vf, Hnear.
    assert (Em : (IZR (Zpos mx) * / IZR (2 ^ k)
                  = IZR whole + IZR r * / IZR (2 ^ k))%R).
    { rewrite Hdm at 1. rewrite plus_IZR, mult_IZR. field. lra. }
    assert (Hf : (0 <= IZR r * / IZR (2 ^ k) < 1)%R).
    { assert (0 <= IZR r < IZR (2 ^ k))%R
        by (split; [apply IZR_le | apply IZR_lt]; lia).
      assert (0 < / IZR (2 ^ k))%R by (apply Rinv_0_lt_compat; exact Pr).
      split; [apply Rmult_le_pos; lra|].
      apply Rmult_lt_reg_r with (IZR (2 ^ k)); [exact Pr|].
      rewrite Rmult_assoc, Rinv_l by lra. lra. }
    rewrite Em in Hnear. rewrite <- Vf in Hnear, Hf.
    set (F := float_value frac) in *. set (P := float_value (frac * e6)) in *.
    assert (Hu : (/ IZR (2 ^ 53) = / 9007199254740992)%R) by reflexivity.
    unfold Rdiv in Vp. rewrite Hu in Vp. clear Hu.
    rewrite (Rabs_pos_eq (F * 1000000)) in Vp by lra.
    apply Rabs_bounds in Vp. apply Rabs_bounds in Hnr. apply Rabs_bounds in Hnear.
    assert (Hlt : (IZR (us - (n - whole * 1000000)) < 1)%R)
      by (rewrite !minus_IZR, mult_IZR; lra).
    assert (Hgt : (IZR (-1) < IZR (us - (n - whole * 1000000)))%R)
      by (rewrite !minus_IZR, mult_IZR; lra).
    apply lt_IZR in Hlt, Hgt. lia. }
  assert (Hrange : forall sec us', sec * 1000000 + us' = n ->
            (datetime_min <=? sec * 1000000 + us')
            && (sec * 1000000 + us' <=? datetime_max) = true).
  { intros sec us' E. rewrite E. unfold datetime_min, datetime_max in *. lia. }
  destruct (1000000 <=? us); [|destruct (us <? 0)]; cbv beta iota zeta.
  - rewrite Hrange by lia. f_equal. lia.
  - rewrite Hrange by lia. f_equal. lia.
  - rewrite Hrange by lia. f_equal. lia.
Qed.

(** A buffer whose value is below [2^51] is read as that many
    microseconds after the epoch. *)
Lemma bytes_to_datetime_micros (n : Z) (bs : list byte) :
  0 <= n < 2 ^ 51 -> bytes_to_int bs false = n -> bytes_to_datetime bs = Ret n.
Proof.
  intros Hn Hv. rewrite bytes_to_datetime_value, Hv.
  destruct n as [|p|p]; [vm_compute; reflexivity | | lia].
  destruct (float_of_pos p) as (x & mn & tn & Hx & Hpx & Htn & Hmn & Hmnr).
  { apply Z.lt_trans with (2 ^ 51); [lia | reflexivity]. }
  rewrite Hx. cbn [bind].
  destruct (SFdiv_nearest false false mn 8589934592000000 (- tn) (-33)
              Hmnr ltac:(lia) ltac:(lia)) as (m & e & Hd & Hm & He & Hrel).
  cbn [xorb] in Hd.
  assert (Hq : Prim2SF (x / e6)%float = S754_finite false m (- (- e))).
  { rewrite div_spec, Hpx, e6_spec, Z.opp_involutive. exact Hd. }
  apply (fromtimestamp_micros _ m (- e)); [exact Hm | lia | exact Hq | |].
  - unfold datetime_max. change (2 ^ 51) with 2251799813685248 in Hn. lia.
  - rewrite Z.opp_involutive.
    assert (Ep : (IZR (Zpos mn) * powerRZ 2 (- tn) = IZR (Zpos p))%R).
    { rewrite Hmn, mult_IZR, pow2_IZR by lia.
      rewrite Rmult_assoc, <- pow2_add.
      replace (tn + - tn) with 0 by lia. cbn [powerRZ]. ring. }
    assert (E6 : (IZR (Zpos 8589934592000000) * powerRZ 2 (-33) = 1000000)%R).
    { change (-33) with (- (33)). rewrite (powerRZ_neg' 2 33), <- pow2_IZR by lia.
      change (2 ^ 33) with 8589934592. lra. }
    rewrite Ep, E6 in Hrel.
    assert (Hu : (/ IZR (2 ^ 53) = / 9007199254740992)%R) by reflexivity.
    unfold Rdiv in Hrel. rewrite Hu in Hrel. clear Hu.
    assert (Hp : (0 < IZR (Zpos p) < 2251799813685248)%R)
      by (split; apply IZR_lt; [lia | exact (proj2 Hn)]).
    apply Rabs_bounds in Hrel.
    set (X := (IZR (Zpos m) * powerRZ 2 e)%R) in *.
    apply Rabs_le. lra.
Qed.

(** With [n = int(t.timestamp() * 1e6)], the microseconds as the code
    computes them: 8 bytes holding [n] when [0 <= n < 2^64], and
    [struct.error] otherwise. *)
Lemma datetime_to_bytes_micros (t : datetime) (n : Z) :
  float_micros t = Ret n ->
  (0 <= n < 2 ^ 64 ->
   exists bs,
     datetime_to_bytes t = Ret bs /\
     len bs = 8 /\
     bytes_to_int bs false = n /\
     bytes_to_datetime bs = (x <- float_of_int n ;; fromtimestamp (x / e6)%float)) /\
  (n < 0 \/ 2 ^ 64 <= n -> datetime_to_bytes t = Raise StructError).
Proof.
  unfold float_micros, datetime_to_bytes. intros Hn.
  destruct (timestamp t) as [seconds|]; cbn [bind] in *; [|discriminate].
  rewrite Hn. cbn [bind]. split.
  - intros Hr. destruct (pack_Q_spec n Hr) as (Hp & Hl & Hv).
    exists (be_bytes 8 n). repeat split; try assumption.
    now rewrite bytes_to_datetime_value, Hv.
  - intros Hr. unfold pack_Q.
    replace ((0 <=? n) && (n <? 2 ^ 64)) with false by lia. reflexivity.
Qed.






(** * Further properties of the codecs *)

(** ** Signed and unsigned integers *)

Lemma bytes_to_int_signed_range (b : list byte) :
  - 256 ^ len b <= 2 * bytes_to_int b true < 256 ^ len b.
Proof.
  unfold bytes_to_int, int_from_bytes. cbn [andb].
  pose proof (be_value_range b).
  destruct (256 ^ len b <=? 2 * be_value b) eqn:E; lia.
Qed.

Lemma int_to_bytes_bytes_to_int_signed (b : list byte) :
  int_to_bytes (bytes_to_int b true) (len b) true = Ret b.
Proof.
  pose proof (bytes_to_int_signed_range b) as Hr.
  pose proof (len_nonneg b) as Hn. pose proof (be_value_range b) as Hu.
  unfold int_to_bytes, int_to_bytes_method.
  replace (len b <? 0) with false by lia.
  replace ((- 256 ^ len b <=? 2 * bytes_to_int b true)
           && (2 * bytes_to_int b true <? 256 ^ len b)) with true by lia.
  assert (E : bytes_to_int b true mod 256 ^ len b = be_value b).
  { unfold bytes_to_int, int_from_bytes. cbn [andb].
    destruct (256 ^ len b <=? 2 * be_value b).
    - symmetry. apply Z.mod_unique with (q := -1); lia.
    - apply Z.mod_small. lia. }
  rewrite E. unfold len. rewrite Nat2Z.id. now rewrite be_bytes_be_value.
Qed.

Lemma int_to_bytes_bytes_to_int_any (b : list byte) (signed : bool) :
  int_to_bytes (bytes_to_int b signed) (len b) signed = Ret b.
Proof.
  destruct signed;
    [apply int_to_bytes_bytes_to_int_signed | apply int_to_bytes_bytes_to_int].
Qed.

Lemma int_to_bytes_overflow (v n : Z) (signed : bool) :
  0 <= n -> ~ fits v n signed -> ~ (v = -1 /\ n = 0 /\ signed = true) ->
  int_to_bytes v n signed = Raise OverflowError.
Proof.
  intros Hn Hf Hq. unfold int_to_bytes, int_to_bytes_method, fits in *.
  replace (n <? 0) with false by lia.
  destruct signed.
  - replace ((- 256 ^ n <=? 2 * v) && (2 * v <? 256 ^ n)) with false by lia.
    replace ((n =? 0) && (v =? -1)) with false; [reflexivity|].
    symmetry. apply andb_false_iff.
    destruct (Z.eq_dec n 0) as [-> |]; [|left; lia].
    right. apply Z.eqb_neq. intros ->. apply Hq. repeat split.
  - replace ((0 <=? v) && (v <? 256 ^ n)) with false by lia. reflexivity.
Qed.

(** X1. [int_to_bytes(value, length, signed)] raises [ValueError] for a
    negative length. For [length >= 0], a [value] that fits [length] bytes
    under the requested signedness gives a buffer of [length] bytes from
    which [bytes_to_int] reads [value] back; a value that does not fit
    raises [OverflowError], with one exception: [-1] at length 0, signed,
    gives the empty buffer, which [bytes_to_int] reads as 0. *)
Theorem int_to_bytes_spec (v n : Z) (signed : bool) :
  (n < 0 -> int_to_bytes v n signed = Raise ValueError) /\
  (0 <= n -> fits v n signed ->
   exists bs, int_to_bytes v n signed = Ret bs /\
              len bs = n /\ bytes_to_int bs signed = v) /\
  (0 <= n -> ~ fits v n signed -> ~ (v = -1 /\ n = 0 /\ signed = true) ->
   int_to_bytes v n signed = Raise OverflowError) /\
  (~ fits (-1) 0 true /\
   int_to_bytes (-1) 0 true = Ret [] /\ bytes_to_int [] true = 0).
Proof.
  split; [|split; [|split]].
  - intros Hn. unfold int_to_bytes, int_to_bytes_method.
    now replace (n <? 0) with true by lia.
  - apply int_to_bytes_fits.
  - apply int_to_bytes_overflow.
  - split; [cbn; lia|]. split; reflexivity.
Qed.

Lemma int_to_bytes_spec_witness :
  int_to_bytes (-2) 2 true = Ret [xff; xfe] /\
  int_to_bytes 256 1 false = Raise OverflowError /\
  int_to_bytes (-2) 0 true = Raise OverflowError /\
  int_to_bytes 0 (-1) false = Raise ValueError.
Proof.
  destruct (int_to_bytes_spec (-2) 2 true) as (_ & H1 & _).
  destruct (int_to_bytes_spec 256 1 false) as (_ & _ & H2 & _).
  destruct (int_to_bytes_spec (-2) 0 true) as (_ & _ & H4 & _).
  destruct (int_to_bytes_spec 0 (-1) false) as (H3 & _ & _).
  split; [reflexivity|]. split; [|split].
  - apply H2; [lia | cbn; lia | intros (E & _); discriminate E].
  - apply H4; [lia | cbn; lia | intros (E & _); discriminate E].
  - apply H3. lia.
Defined.

(** X2. For every byte buffer [b] of any length, in the signed reading as
    in the unsigned one,
    [int_to_bytes(bytes_to_int(b, signed), len(b), signed) == b], and the
    signed value lies in the two's-complement range of [len(b)] bytes. *)
Theorem bytes_int_roundtrip_signed (b : list byte) (signed : bool) :
  int_to_bytes (bytes_to_int b signed) (len b) signed = Ret b /\
  fits (bytes_to_int b signed) (len b) signed.
Proof.
  split; [apply int_to_bytes_bytes_to_int_any|].
  unfold fits. destruct signed.
  - apply bytes_to_int_signed_range.
  - apply be_value_range.
Qed.

Lemma bytes_to_int_inj (a b : list byte) (signed : bool) :
  len a = len b ->
  bytes_to_int a signed = bytes_to_int b signed ->
  a = b.
Proof.
  intros Hl Hv.
  pose proof (int_to_bytes_bytes_to_int_any a signed) as Ha.
  pose proof (int_to_bytes_bytes_to_int_any b signed) as Hb.
  rewrite Hl, Hv, Hb in Ha. now injection Ha.
Qed.

(** X3. Two buffers of the same length that [bytes_to_int] reads as the
    same integer, under the same signedness, are the same buffer. *)
Theorem bytes_to_int_injective (a b : list byte) (signed : bool) :
  len a = len b ->
  bytes_to_int a signed = bytes_to_int b signed ->
  a = b.
Proof.
  apply bytes_to_int_inj.
Qed.

Lemma bytes_to_int_injective_witness :
  len [x01; xff] = len [x01; xff] /\
  bytes_to_int [x01; xff] true = bytes_to_int [x01; xff] true /\
  [x01; xff] = [x01; xff].
Proof.
  split; [reflexivity|]. split; [reflexivity|].
  apply (bytes_to_int_injective [x01; xff] [x01; xff] true); reflexivity.
Defined.

(** X4. Big-endian reading composes over concatenation,
    [bytes_to_int(a + b) == bytes_to_int(a) * 256^len(b) + bytes_to_int(b)];
    a leading zero byte never changes the unsigned value, and widening a
    signed buffer by its sign byte ([00] for a non-negative value, [FF] for
    a negative one) never changes the signed value. *)
Theorem bytes_to_int_widening (a b : list byte) :
  bytes_to_int (a ++ b) false
  = bytes_to_int a false * 256 ^ len b + bytes_to_int b false /\
  bytes_to_int (x00 :: b) false = bytes_to_int b false /\
  (0 <= bytes_to_int b true ->
   bytes_to_int (x00 :: b) true = bytes_to_int b true) /\
  (bytes_to_int b true < 0 ->
   bytes_to_int (xff :: b) true = bytes_to_int b true).
Proof.
  pose proof (be_value_range b) as Hu. pose proof (len_nonneg b) as Hn.
  assert (Hp : 0 < 256 ^ len b) by (apply Z.pow_pos_nonneg; lia).
  assert (Hs : 256 ^ (1 + len b) = 256 * 256 ^ len b)
    by (rewrite Z.pow_add_r by lia; reflexivity).
  split; [apply be_value_app|].
  unfold bytes_to_int, int_from_bytes. cbn [andb].
  rewrite !be_value_cons, !len_cons, Hs.
  change (byte_to_Z x00) with 0. change (byte_to_Z xff) with 255.
  split; [lia|]. split.
  - destruct (256 ^ len b <=? 2 * be_value b) eqn:E; [lia|]. intros _.
    replace (256 * 256 ^ len b <=? 2 * (0 * 256 ^ len b + be_value b)) with false by lia.
    lia.
  - destruct (256 ^ len b <=? 2 * be_value b) eqn:E; [|lia]. intros _.
    replace (256 * 256 ^ len b <=? 2 * (255 * 256 ^ len b + be_value b)) with true by lia.
    lia.
Qed.

Lemma bytes_to_int_widening_witness :
  bytes_to_int [x00; x7f] true = bytes_to_int [x7f] true /\
  bytes_to_int [xff; x80] true = bytes_to_int [x80] true.
Proof.
  destruct (bytes_to_int_widening [] [x7f]) as (_ & _ & H1 & _).
  destruct (bytes_to_int_widening [] [x80]) as (_ & _ & _ & H2).
  split; [apply H1 | apply H2]; cbn; lia.
Defined.

(** ** BER lengths: what can be encoded and what decoding accepts *)

Lemma ber_encode_decode (v : Z) :
  0 <= v < 2 ^ 1016 ->
  exists bs,
    ber_encode v = Ret bs /\ ber_decode bs = Ret v /\
    (v < 128 -> len bs = 1) /\
    (128 <= v -> len bs = 1 + ((bit_length v - 1) / 8 + 1)).
Proof.
  intros Hv. destruct (Z.lt_ge_cases v 128) as [Hs | Hl].
  - exists [byte_of_Z v]. rewrite ber_encode_short by lia.
    rewrite ber_decode_cons, byte_to_of_Z by lia.
    replace (v <? 128) with true by lia.
    repeat split; try reflexivity; lia.
  - pose proof (ber_encode_long v ltac:(lia)) as [He Hw].
    pose proof (long_form_width v Hl) as (_ & Hw1 & Hlo & Hhi).
    cbv zeta in He, Hw, Hw1, Hlo, Hhi.
    set (w := (bit_length v - 1) / 8 + 1) in *.
    assert (Hlen : len (be_bytes (Z.to_nat w) v) = w)
      by (unfold len; rewrite be_bytes_length; lia).
    eexists. split; [exact He|]. split; [|split; [lia|]].
    + rewrite ber_decode_cons, byte_to_of_Z by lia.
      replace (w + 128 <? 128) with false by lia.
      rewrite Hlen. replace (w =? w + 128 - 128) with true by lia.
      rewrite be_value_be_bytes by (rewrite Z2Nat.id; lia). reflexivity.
    + intros _. rewrite len_cons, Hlen. reflexivity.
Qed.

Lemma ber_encode_negative (v : Z) : v < 0 -> ber_encode v = Raise OverflowError.
Proof.
  intros Hv. unfold ber_encode, int_to_bytes, int_to_bytes_method.
  replace (v <? 128) with true by lia. change (1 <? 0) with false. cbv iota.
  now replace ((0 <=? v) && (v <? 256 ^ 1)) with false by lia.
Qed.

Lemma ber_encode_too_large (v : Z) : 2 ^ 1016 <= v -> ber_encode v = Raise OverflowError.
Proof.
  intros Hv. unfold ber_encode.
  assert (H128 : 128 <= v).
  { apply Z.le_trans with (2 ^ 1016); [|exact Hv]. now apply Z.leb_le. }
  replace (v <? 128) with false by lia.
  pose proof (long_form_width v H128) as (_ & Hw1 & Hlo & Hhi).
  cbv zeta in Hw1, Hlo, Hhi.
  set (w := (bit_length v - 1) / 8 + 1) in *.
  assert (Hw : 128 <= w).
  { destruct (Z.lt_ge_cases w 128) as [Hlt|]; [|assumption].
    assert (256 ^ w <= 256 ^ 127) by (apply Z.pow_le_mono_r; lia).
    rewrite (pow256 127) in H by lia. change (8 * 127) with 1016 in H. lia. }
  unfold int_to_bytes at 1, int_to_bytes_method.
  change (1 <? 0) with false. cbv iota. change (256 ^ 1) with 256.
  now replace ((0 <=? w + 128) && (w + 128 <? 256)) with false by lia.
Qed.

(** X5. [ber_encode(v)] returns an encoding exactly for [0 <= v < 2^1016];
    for a negative [v] and for [v >= 2^1016] it raises [OverflowError]. *)
Theorem ber_encode_domain (v : Z) :
  ((exists bs, ber_encode v = Ret bs) <-> 0 <= v < 2 ^ 1016) /\
  (ber_encode v = Raise OverflowError <-> v < 0 \/ 2 ^ 1016 <= v).
Proof.
  destruct (Z.lt_ge_cases v 0) as [Hneg | Hpos].
  - rewrite (ber_encode_negative v Hneg). split; split.
    + intros [bs H]. discriminate.
    + lia.
    + auto.
    + reflexivity.
  - destruct (Z.lt_ge_cases v (2 ^ 1016)) as [Hin | Hbig].
    + destruct (ber_encode_decode v ltac:(lia)) as (bs & He & _).
      rewrite He. split; split; eauto; try discriminate; lia.
    + rewrite (ber_encode_too_large v Hbig). split; split.
      * intros [bs H]. discriminate.
      * lia.
      * auto.
      * reflexivity.
Qed.

(** X6. Every value that [ber_decode] reads from a non-empty buffer can
    be encoded again: [ber_encode] returns for it, in no more bytes than
    the buffer had, and [ber_decode] reads the same value from the result.
    A long form with leading zero bytes is thus accepted, and encoding its
    value again never takes more bytes. *)
Theorem ber_decode_reencode (b0 : byte) (rest : list byte) (v : Z) :
  ber_decode (b0 :: rest) = Ret v ->
  exists bs,
    ber_encode v = Ret bs /\
    len bs <= len (b0 :: rest) /\
    ber_decode bs = Ret v.
Proof.
  rewrite ber_decode_cons, len_cons.
  pose proof (byte_to_Z_range b0) as Hb. pose proof (len_nonneg rest) as Hn.
  destruct (byte_to_Z b0 <? 128) eqn:Eb.
  - destruct rest as [|b1 rest]; [|discriminate]. intros [= <-].
    destruct (ber_encode_decode (byte_to_Z b0)) as (bs & He & Hd & Hl & _).
    { split; [lia|]. apply Z.lt_trans with 256; [lia | reflexivity]. }
    exists bs. rewrite Hl by lia. cbn. auto with zarith.
  - destruct (len rest =? byte_to_Z b0 - 128) eqn:El; [|discriminate].
    intros [= <-]. pose proof (be_value_range rest) as Hr.
    assert (Hk : 256 ^ len rest <= 2 ^ 1016).
    { change (2 ^ 1016) with (256 ^ 127). apply Z.pow_le_mono_r; lia. }
    destruct (ber_encode_decode (be_value rest) ltac:(lia)) as (bs & He & Hd & Hs & Hl).
    exists bs. split; [exact He|]. split; [|exact Hd].
    destruct (Z.lt_ge_cases (be_value rest) 128) as [Hlt | Hge].
    + rewrite Hs by lia. lia.
    + rewrite Hl by lia.
      pose proof (long_form_width (be_value rest) Hge) as (_ & Hw1 & Hlo & _).
      cbv zeta in Hw1, Hlo.
      set (w := (bit_length (be_value rest) - 1) / 8 + 1) in *.
      destruct (Z.lt_ge_cases (len rest) w) as [Hlt|]; [|lia].
      assert (256 ^ len rest <= 256 ^ (w - 1)) by (apply Z.pow_le_mono_r; lia).
      lia.
Qed.

Lemma ber_decode_reencode_witness :
  ber_decode [x82; x00; x05] = Ret 5 /\
  exists bs, ber_encode 5 = Ret bs /\ len bs <= len [x82; x00; x05] /\
             ber_decode bs = Ret 5.
Proof.
  split; [reflexivity|].
  apply (ber_decode_reencode x82 [x00; x05] 5). reflexivity.
Defined.

(** X7. On a non-empty buffer the first byte alone decides what
    [ber_decode] does: below 128 it returns that byte for a one-byte buffer,
    from 128 on it returns the big-endian value of the remaining bytes when
    there are exactly [first - 128] of them, and in every other case it
    raises [ValueError], never another exception; the value returned is
    never negative. *)
Theorem ber_decode_nonempty (b0 : byte) (rest : list byte) :
  (forall v,
      ber_decode (b0 :: rest) = Ret v <->
      (byte_to_Z b0 < 128 /\ rest = [] /\ v = byte_to_Z b0) \/
      (128 <= byte_to_Z b0 /\ len rest = byte_to_Z b0 - 128 /\
       v = bytes_to_int rest false)) /\
  (forall v, ber_decode (b0 :: rest) = Ret v -> 0 <= v < 256 ^ len (b0 :: rest)) /\
  (forall e, ber_decode (b0 :: rest) = Raise e -> e = ValueError).
Proof.
  rewrite ber_decode_cons, len_cons.
  pose proof (byte_to_Z_range b0) as Hb. pose proof (len_nonneg rest) as Hn.
  pose proof (be_value_range rest) as Hr.
  assert (Hp : 0 < 256 ^ len rest) by (apply Z.pow_pos_nonneg; lia).
  assert (Hs : 256 ^ (1 + len rest) = 256 * 256 ^ len rest)
    by (rewrite Z.pow_add_r by lia; reflexivity).
  destruct (byte_to_Z b0 <? 128) eqn:Eb.
  - destruct rest as [|b1 rest].
    + split; [|split].
      * intros v. split.
        -- intros [= <-]. left. repeat split. lia.
        -- intros [(_ & _ & ->) | (H & _)]; [reflexivity | lia].
      * intros v [= <-]. cbn. lia.
      * discriminate.
    + split; [|split].
      * intros v. split; [discriminate|].
        intros [(_ & H & _) | (H & _)]; [discriminate | lia].
      * discriminate.
      * now intros e [= <-].
  - destruct (len rest =? byte_to_Z b0 - 128) eqn:El.
    + split; [|split].
      * intros v. split.
        -- intros [= <-]. right. repeat split; lia.
        -- intros [(H & _) | (_ & _ & ->)]; [lia | reflexivity].
      * intros v [= <-]. lia.
      * discriminate.
    + split; [|split].
      * intros v. split; [discriminate|].
        intros [(H & _) | (_ & H & _)]; lia.
      * discriminate.
      * now intros e [= <-].
Qed.

(** ** Packet checksum: short buffers, composition and error detection *)

Lemma fold_right_add_app (l1 l2 : list Z) :
  fold_right Z.add 0 (l1 ++ l2) = fold_right Z.add 0 l1 + fold_right Z.add 0 l2.
Proof.
  induction l1 as [|x l1 IH]; cbn; [reflexivity | rewrite IH; lia].
Qed.

Lemma payload_words_app (p l : list byte) :
  even_length p -> payload_words (p ++ l) = payload_words p ++ payload_words l.
Proof.
  induction 1 as [|x y p He IH]; [reflexivity|].
  cbn [app payload_words]. now rewrite IH.
Qed.

Lemma even_length_mod (p : list byte) : len p mod 2 = 0 -> even_length p.
Proof.
  intros Hm. destruct (parity_split p) as [He | (q & t & -> & He)]; [exact He|].
  pose proof (even_length_len q He) as [Hq _].
  rewrite len_app in Hm. change (len [t]) with 1 in Hm.
  rewrite Z.add_mod, Hq in Hm by lia. discriminate.
Qed.

Lemma checksum_spec_range (p : list byte) : 0 <= checksum_spec p < 65536.
Proof. unfold checksum_spec. apply Z.mod_pos_bound. reflexivity. Qed.

Lemma be16_value (s : Z) : 0 <= s < 65536 -> bytes_to_int (be16 s) false = s.
Proof.
  intros Hs. unfold bytes_to_int, int_from_bytes, be16, be_value. cbn [andb fold_left].
  rewrite !byte_to_of_Z.
  - pose proof (Z.div_mod s 256 ltac:(lia)). lia.
  - apply Z.mod_pos_bound. lia.
  - split; [apply Z.div_pos | apply Z.div_lt_upper_bound]; lia.
Qed.

(** X8. [packet_checksum] returns exactly for buffers of at least two
    bytes, and what it returns is two bytes; on the empty buffer and on a
    one-byte buffer the negative word count is not a [struct] format and it
    raises [struct.error]. *)
Theorem packet_checksum_domain (data : list byte) :
  (len data < 2 <-> packet_checksum data = Raise StructError) /\
  (2 <= len data <-> exists c, packet_checksum data = Ret c /\ len c = 2).
Proof.
  destruct (Z.lt_ge_cases (len data) 2) as [Hs | Hl].
  - assert (E : packet_checksum data = Raise StructError).
    { destruct data as [|x [|y r]]; [reflexivity | reflexivity |].
      rewrite !len_cons in Hs. pose proof (len_nonneg r). lia. }
    rewrite E. split; split; auto; try lia.
    intros (c & H & _). discriminate.
  - destruct (split_reserved data Hl) as (a & b & E).
    assert (Hc : packet_checksum data
                 = Ret (be16 (checksum_spec (firstn (length data - 2) data))))
      by (rewrite E at 1; apply packet_checksum_payload).
    rewrite Hc. split; split; try lia; try discriminate.
    intros _. eexists. split; reflexivity.
Qed.

(** X9. The checksum composes over a split at an even offset: the
    checksum of [p1 + p2] is the sum modulo [2^16] of the checksums of [p1]
    and of [p2], each taken with two reserved bytes appended, whenever [p1]
    has an even number of bytes. *)
Theorem packet_checksum_concat (p1 p2 : list byte) (a b : byte) :
  len p1 mod 2 = 0 ->
  exists c1 c2 c,
    packet_checksum (p1 ++ [a; b]) = Ret c1 /\
    packet_checksum (p2 ++ [a; b]) = Ret c2 /\
    packet_checksum ((p1 ++ p2) ++ [a; b]) = Ret c /\
    bytes_to_int c false
    = (bytes_to_int c1 false + bytes_to_int c2 false) mod 2 ^ 16.
Proof.
  intros He. apply even_length_mod in He.
  rewrite !packet_checksum_payload.
  do 3 eexists. repeat (split; [reflexivity|]).
  rewrite !be16_value by apply checksum_spec_range.
  unfold checksum_spec.
  rewrite (payload_words_app p1 p2 He), fold_right_add_app.
  now rewrite <- Z.add_mod by (now apply Z.pow_nonzero).
Qed.

Lemma packet_checksum_concat_witness :
  len [x12; x34] mod 2 = 0 /\
  exists c1 c2 c,
    packet_checksum ([x12; x34] ++ [x00; x00]) = Ret c1 /\
    packet_checksum ([xff; xff; x01] ++ [x00; x00]) = Ret c2 /\
    packet_checksum (([x12; x34] ++ [xff; xff; x01]) ++ [x00; x00]) = Ret c /\
    bytes_to_int c false
    = (bytes_to_int c1 false + bytes_to_int c2 false) mod 2 ^ 16.
Proof.
  split; [reflexivity|].
  apply (packet_checksum_concat [x12; x34] [xff; xff; x01] x00 x00). reflexivity.
Defined.

(** The word sum of a payload whose byte [x] sits after [p]: the byte
    counts 256 times at an even offset and once at an odd one. *)
Lemma payload_words_byte (p q : list byte) (x : byte) :
  exists k rest,
    (k = 256 \/ k = 1) /\
    forall y : byte,
      fold_right Z.add 0 (payload_words (p ++ y :: q)) = k * byte_to_Z y + rest.
Proof.
  destruct (parity_split p) as [He | (p' & t & -> & He)].
  - exists 256, (fold_right Z.add 0 (payload_words p)
                 + match q with
                   | [] => 0
                   | c :: r => byte_to_Z c + fold_right Z.add 0 (payload_words r)
                   end).
    split; [now left|]. intros y.
    rewrite (payload_words_app p _ He), fold_right_add_app.
    destruct q as [|c r]; cbn [payload_words fold_right]; lia.
  - exists 1, (fold_right Z.add 0 (payload_words p')
               + byte_to_Z t * 256 + fold_right Z.add 0 (payload_words q)).
    split; [now right|]. intros y.
    rewrite <- app_assoc. cbn [app].
    rewrite (payload_words_app p' _ He), fold_right_add_app.
    cbn [payload_words fold_right]. lia.
Qed.

Lemma be16_injective (s1 s2 : Z) :
  0 <= s1 < 65536 -> 0 <= s2 < 65536 -> be16 s1 = be16 s2 -> s1 = s2.
Proof.
  intros H1 H2 E.
  rewrite <- (be16_value s1 H1), <- (be16_value s2 H2). now rewrite E.
Qed.

Lemma byte_to_Z_injective (x y : byte) : byte_to_Z x = byte_to_Z y -> x = y.
Proof.
  intros E. rewrite <- (byte_of_to_Z x), <- (byte_of_to_Z y). now rewrite E.
Qed.

(** X10. The checksum detects every change of a single payload byte:
    two buffers that differ in one byte before the two reserved bytes, and
    nowhere else before them, never have the same checksum. *)
Theorem packet_checksum_detects_byte (p q : list byte) (x y a b a' b' : byte) :
  x <> y ->
  packet_checksum ((p ++ x :: q) ++ [a; b])
  <> packet_checksum ((p ++ y :: q) ++ [a'; b']).
Proof.
  intros Hxy. rewrite !packet_checksum_payload. intros [= E1 E2].
  assert (E : checksum_spec (p ++ x :: q) = checksum_spec (p ++ y :: q)).
  { apply be16_injective; try apply checksum_spec_range.
    unfold be16. now rewrite E1, E2. }
  unfold checksum_spec in E.
  destruct (payload_words_byte p q x) as (k & rest & Hk & Hw).
  rewrite (Hw x), (Hw y) in E.
  pose proof (byte_to_Z_range x) as Hx. pose proof (byte_to_Z_range y) as Hy.
  assert (Hne : byte_to_Z x <> byte_to_Z y)
    by (intros H; apply Hxy; now apply byte_to_Z_injective).
  change (2 ^ 16) with 65536 in E.
  pose proof (Z.div_mod (k * byte_to_Z x + rest) 65536 ltac:(lia)) as D1.
  pose proof (Z.div_mod (k * byte_to_Z y + rest) 65536 ltac:(lia)) as D2.
  rewrite E in D1.
  destruct Hk as [-> | ->]; lia.
Qed.

Lemma packet_checksum_detects_byte_witness :
  x01 <> x02 /\
  packet_checksum (([x10] ++ x01 :: [x20]) ++ [x00; x00])
  <> packet_checksum (([x10] ++ x02 :: [x20]) ++ [x00; x00]).
Proof.
  split; [discriminate|].
  apply (packet_checksum_detects_byte [x10] [x20] x01 x02 x00 x00 x00 x00).
  discriminate.
Defined.

(** ** Hexadecimal text: the round trip *)

Lemma hex_upper_spec (unicode_isalnum : char -> bool) (d : Z) :
  0 <= d < 16 ->
  is_hex_digit (hex_upper d) = true /\
  hex_value (hex_upper d) = d /\
  isalnum unicode_isalnum (hex_upper d) = true.
Proof.
  intros Hd.
  assert (H : d = 0 \/ d = 1 \/ d = 2 \/ d = 3 \/ d = 4 \/ d = 5 \/ d = 6 \/ d = 7 \/
              d = 8 \/ d = 9 \/ d = 10 \/ d = 11 \/ d = 12 \/ d = 13 \/ d = 14 \/
              d = 15) by lia.
  repeat (destruct H as [-> | H]; [repeat split|]). subst d. repeat split.
Qed.

Section HexRoundTrip.

Variable unicode_isalnum : char -> bool.

Let alnum := isalnum unicode_isalnum.

Lemma format_02X_digits (x : byte) :
  filter alnum (format_02X x) = format_02X x.
Proof.
  pose proof (byte_to_Z_range x) as Hx.
  destruct (hex_upper_spec unicode_isalnum (byte_to_Z x / 16)) as (_ & _ & H1).
  { split; [apply Z.div_pos | apply Z.div_lt_upper_bound]; lia. }
  destruct (hex_upper_spec unicode_isalnum (byte_to_Z x mod 16)) as (_ & _ & H2).
  { apply Z.mod_pos_bound. lia. }
  unfold format_02X, alnum. cbn [filter]. now rewrite H1, H2.
Qed.

Lemma filter_join (sep : str) (parts : list str) :
  filter alnum sep = [] ->
  filter alnum (join sep parts) = concat (map (filter alnum) parts).
Proof.
  intros Hs. induction parts as [|p [|p' more] IH].
  - reflexivity.
  - cbn. now rewrite app_nil_r.
  - cbn [join map concat] in *. rewrite !filter_app, Hs, IH. reflexivity.
Qed.

Lemma filter_none (s : str) :
  forallb (fun c => negb (alnum c)) s = true -> filter alnum s = [].
Proof.
  induction s as [|c s IH]; [reflexivity|].
  cbn. intros H. apply andb_prop in H as [Hc Hs].
  destruct (alnum c); [discriminate | auto].
Qed.

Lemma hex_pairs_format (b : list byte) :
  hex_pairs (concat (map format_02X b)) = Some b.
Proof.
  induction b as [|x b IH]; [reflexivity|].
  pose proof (byte_to_Z_range x) as Hx.
  destruct (hex_upper_spec unicode_isalnum (byte_to_Z x / 16)) as (H1 & V1 & _).
  { split; [apply Z.div_pos | apply Z.div_lt_upper_bound]; lia. }
  destruct (hex_upper_spec unicode_isalnum (byte_to_Z x mod 16)) as (H2 & V2 & _).
  { apply Z.mod_pos_bound. lia. }
  cbn [map concat format_02X app hex_pairs].
  rewrite H1, H2, V1, V2, IH. cbn [andb option_map].
  rewrite <- Z.div_mod by lia. now rewrite byte_of_to_Z.
Qed.

Lemma hexstr_roundtrip (b : list byte) (start sep : str) :
  forallb (fun c => negb (alnum c)) start = true ->
  forallb (fun c => negb (alnum c)) sep = true ->
  hexstr_to_bytes unicode_isalnum (bytes_to_hexstr b start sep) = Ret b.
Proof.
  intros Hstart Hsep.
  rewrite hexstr_to_bytes_pairs. unfold bytes_to_hexstr. fold alnum.
  rewrite filter_app, (filter_none start Hstart), (filter_join sep _ (filter_none sep Hsep)).
  cbn [app]. rewrite map_map.
  rewrite (map_ext _ format_02X format_02X_digits).
  now rewrite hex_pairs_format.
Qed.

End HexRoundTrip.

(** X11. [hexstr_to_bytes(bytes_to_hexstr(b, start, sep)) == b] for every
    byte buffer [b] and every prefix and separator without alphanumeric
    characters, the default empty prefix and single space among them. *)
Theorem hexstr_bytes_roundtrip
  (unicode_isalnum : char -> bool) (b : list byte) (start sep : str) :
  forallb (fun c => negb (isalnum unicode_isalnum c)) start = true ->
  forallb (fun c => negb (isalnum unicode_isalnum c)) sep = true ->
  hexstr_to_bytes unicode_isalnum (bytes_to_hexstr b start sep) = Ret b.
Proof.
  apply hexstr_roundtrip.
Qed.

Lemma hexstr_bytes_roundtrip_witness :
  hexstr_to_bytes (fun _ => false) (bytes_to_hexstr [x00; xab; xff] (str_of "") (str_of " "))
  = Ret [x00; xab; xff].
Proof.
  apply (hexstr_bytes_roundtrip (fun _ => false) [x00; xab; xff] (str_of "") (str_of " "));
    reflexivity.
Defined.

(** ** Linear scaling: what is printed, what is returned, what is raised *)

Lemma num_not_lt_le (a b : num) :
  num_compare a b <> None -> num_lt a b = false -> num_le b a = true.
Proof.
  unfold num_lt, num_le. rewrite (num_compare_antisym a b).
  destruct (num_compare a b) as [[]|]; cbn; congruence.
Qed.

Lemma num_not_gt_le (a b : num) :
  num_compare a b <> None -> num_gt a b = false -> num_le a b = true.
Proof.
  unfold num_gt, num_le.
  destruct (num_compare a b) as [[]|]; cbn; congruence.
Qed.

(** X12. The line "Value ... out of range" is never printed for a value
    that the order compares with both bounds of the domain: the test before
    it has already returned for every value below or above the domain, so
    only a NaN reaches the message. *)
Theorem linear_map_value_message
  (v src_min src_max dst_min dst_max x lo hi : num) :
  num_compare v src_min <> None ->
  num_compare v src_max <> None ->
  ~ In (ValueOutOfRange x lo hi)
       (fst (linear_map v (src_min, src_max) (dst_min, dst_max))).
Proof.
  intros Hmin Hmax. unfold linear_map.
  destruct (num_lt v src_min) eqn:E1; [cbn; tauto|].
  destruct (num_gt v src_max) eqn:E2; [cbn; tauto|].
  cbn [orb].
  rewrite (num_not_lt_le _ _ Hmin E1), (num_not_gt_le _ _ Hmax E2).
  cbn [andb negb io_bind io_ret pure].
  destruct (rise <- num_sub dst_max dst_min ;; run <- num_sub src_max src_min ;;
            num_truediv rise run) as [slope|]; cbn; [|tauto].
  destruct (offset <- num_sub v src_min ;; scaled <- num_mul slope offset ;;
            num_add scaled dst_min) as [dst_value|]; cbn; [|tauto].
  destruct (negb (num_le dst_min dst_value && num_le dst_value dst_max)); cbn;
    [intros [H | []]; discriminate | tauto].
Qed.

Lemma linear_map_value_message_witness :
  ~ In (ValueOutOfRange (Int 3) (Int 0) (Int 10))
       (fst (linear_map (Int 3) (Int 0, Int 10) (Int 5, Int 1))) /\
  fst (linear_map (Float nan) (Int 0, Int 10) (Int 0, Int 1))
  = [ValueOutOfRange (Float nan) (Int 0) (Int 10);
     DestinationOutOfRange (Float nan) (Int 0) (Int 1)].
Proof.
  split; [|reflexivity].
  apply (linear_map_value_message (Int 3) (Int 0) (Int 10) (Int 5) (Int 1)); discriminate.
Defined.

Lemma slope_of_float (src_domain dst_range : num * num) (s : num) :
  slope_of src_domain dst_range = Ret s -> exists f, s = Float f.
Proof.
  unfold slope_of.
  destruct (num_sub (snd dst_range) (fst dst_range)) as [rise|]; [|discriminate].
  destruct (num_sub (snd src_domain) (fst src_domain)) as [run|]; [|discriminate].
  cbn [bind]. unfold num_truediv.
  destruct rise as [x | f], run as [y | g]; cbn [as_float bind].
  - destruct (int_truediv x y); cbn [bind]; [intros [= <-]; eauto | discriminate].
  - destruct (float_of_int x); cbn [bind]; [|discriminate].
    destruct (is_zero g); [discriminate | intros [= <-]; eauto].
  - destruct (float_of_int y); cbn [bind]; [|discriminate].
    destruct (is_zero _); [discriminate | intros [= <-]; eauto].
  - destruct (is_zero g); [discriminate | intros [= <-]; eauto].
Qed.

Lemma linear_map_returns_float_aux
  (v src_min src_max dst_min dst_max x : num) :
  outcome (linear_map v (src_min, src_max) (dst_min, dst_max)) = Ret (Some x) ->
  exists f, x = Float f.
Proof.
  rewrite linear_map_outcome.
  destruct (num_lt v src_min || num_gt v src_max); [discriminate|].
  destruct (slope_of _ _) as [slope|] eqn:Es; [|discriminate]. cbn [bind].
  apply slope_of_float in Es as [s ->].
  destruct (num_sub v src_min) as [offset|]; [|discriminate]. cbn [bind].
  destruct offset as [o | o]; cbn [num_mul as_float bind].
  - destruct (float_of_int o); cbn [bind]; [|discriminate].
    destruct dst_min as [c | c]; cbn [num_add as_float bind].
    + destruct (float_of_int c); cbn [bind]; [intros [= <-]; eauto | discriminate].
    + intros [= <-]; eauto.
  - destruct dst_min as [c | c]; cbn [num_add as_float bind].
    + destruct (float_of_int c); cbn [bind]; [intros [= <-]; eauto | discriminate].
    + intros [= <-]; eauto.
Qed.

(** X13. [linear_map] returns no result or a float, never an integer,
    whatever the types of its arguments: the slope is a true division. *)
Theorem linear_map_returns_float
  (v src_min src_max dst_min dst_max x : num) :
  outcome (linear_map v (src_min, src_max) (dst_min, dst_max)) = Ret (Some x) ->
  exists f, x = Float f.
Proof.
  apply linear_map_returns_float_aux.
Qed.

Lemma linear_map_returns_float_witness :
  outcome (linear_map (Int 5) (Int 0, Int 10) (Int 0, Int 20)) = Ret (Some (Float 10)) /\
  exists f, Float 10 = Float f.
Proof.
  split; [reflexivity|].
  apply (linear_map_returns_float (Int 5) (Int 0) (Int 10) (Int 0) (Int 20)).
  reflexivity.
Defined.

(** X14. For every value below or above the physical range,
    [float_to_bytes] prints its first line and raises [TypeError]:
    [linear_map] has no result and [round(None)] is not defined. *)
Theorem float_to_bytes_out_of_range
  (value range_min range_max domain_min : num) (domain_max : Z) :
  num_lt value range_min = true \/ num_gt value range_max = true ->
  float_to_bytes value (domain_min, Int domain_max) (range_min, range_max)
  = ([OriginalFloat value], Raise TypeError).
Proof.
  intros H. unfold float_to_bytes.
  rewrite (linear_map_out_of_domain _ _ _ _ _ H). reflexivity.
Qed.

Lemma float_to_bytes_out_of_range_witness :
  float_to_bytes (Float 91) (Int 0, Int 65535) (Int (-90), Int 90)
  = ([OriginalFloat (Float 91)], Raise TypeError).
Proof.
  apply (float_to_bytes_out_of_range (Float 91) (Int (-90)) (Int 90) (Int 0) 65535).
  right. reflexivity.
Defined.

Lemma num_gt_int (a b : Z) : num_gt (Int a) (Int b) = (b <? a).
Proof.
  unfold num_gt, Z.ltb. cbn [num_compare].
  rewrite (Z.compare_antisym a b). now destruct (a ?= b).
Qed.

(** On integer tables below [2^52] the map has a result for every integer
    of the domain, and none outside it. *)
Lemma linear_map_int_total (v a b c d : Z) :
  a < b ->
  Z.abs a < 2 ^ 52 -> Z.abs b < 2 ^ 52 -> Z.abs c < 2 ^ 52 -> Z.abs d < 2 ^ 52 ->
  exists r,
    outcome (linear_map (Int v) (Int a, Int b) (Int c, Int d)) = Ret r /\
    (r = None <-> v < a \/ b < v).
Proof.
  intros Hab Ha Hb Hc Hd.
  assert (H53 : 2 ^ 53 = 2 * 2 ^ 52) by reflexivity.
  rewrite linear_map_outcome, num_lt_int, num_gt_int.
  destruct ((v <? a) || (b <? v)) eqn:E.
  { exists None. split; [reflexivity|]. split; [lia | reflexivity]. }
  assert (Hv : a <= v <= b) by lia.
  destruct (int_truediv_small (d - c) (b - a) ltac:(lia) ltac:(lia)) as (q & Hq & _).
  destruct (float_of_int_exact (v - a) ltac:(lia)) as (fo & Hfo & _).
  destruct (float_of_int_exact c ltac:(lia)) as (fc & Hfc & _).
  unfold slope_of. cbn [fst snd num_sub bind num_truediv]. rewrite Hq. cbn [bind].
  rewrite (num_mul_float q (Int (v - a)) fo Hfo). cbn [bind].
  rewrite (num_add_float _ (Int c) fc Hfc). cbn [bind].
  eexists. split; [reflexivity|]. split; [discriminate | lia].
Qed.

(** X15. On integer tables with bounds below [2^52] in absolute value
    and [domain_min < domain_max], [bytes_to_float] never raises: for every
    buffer it returns a float when the integer read from the buffer lies in
    the domain and no result when it lies outside. *)
Theorem bytes_to_float_total (buf : list byte) (a b c d : Z) :
  a < b ->
  Z.abs a < 2 ^ 52 -> Z.abs b < 2 ^ 52 -> Z.abs c < 2 ^ 52 -> Z.abs d < 2 ^ 52 ->
  let v := bytes_to_int buf (a <? 0) in
  exists r,
    outcome (bytes_to_float buf (Int a, Int b) (Int c, Int d)) = Ret r /\
    (r = None <-> v < a \/ b < v) /\
    (forall x, r = Some x -> exists f, x = Float f).
Proof.
  intros Hab Ha Hb Hc Hd v. unfold bytes_to_float.
  assert (Hmin : num_lt (num_min (Int a, Int b)) (Int 0) = (a <? 0)).
  { unfold num_min. rewrite num_lt_int.
    replace (b <? a) with false by lia. apply num_lt_int. }
  rewrite Hmin. fold (bytes_to_int buf (a <? 0)). fold v.
  destruct (linear_map_int_total v a b c d Hab Ha Hb Hc Hd) as (r & Hr & Hnone).
  exists r. split; [exact Hr|]. split; [exact Hnone|].
  intros x ->. apply (linear_map_returns_float_aux _ _ _ _ _ _ Hr).
Qed.

Lemma bytes_to_float_total_witness :
  0 < 65535 /\
  exists r,
    outcome (bytes_to_float [x80; x00] (Int 0, Int 65535) (Int 0, Int 360)) = Ret r /\
    forall x, r = Some x -> exists f, x = Float f.
Proof.
  split; [lia|].
  destruct (bytes_to_float_total [x80; x00] 0 65535 0 360) as (r & Hr & _ & Hf);
    try reflexivity.
  exists r. split; assumption.
Defined.

Lemma linear_map_in_domain (v src_min src_max dst_min dst_max : num) :
  num_lt v src_min = false -> num_gt v src_max = false ->
  outcome (linear_map v (src_min, src_max) (dst_min, dst_max)) <> Ret None.
Proof.
  intros H1 H2. rewrite linear_map_outcome, H1, H2. cbn [orb].
  destruct (slope_of _ _) as [slope|]; cbn [bind]; [|discriminate].
  destruct (num_sub v src_min) as [offset|]; cbn [bind]; [|discriminate].
  destruct (num_mul slope offset) as [scaled|]; cbn [bind]; [|discriminate].
  destruct (num_add scaled dst_min); cbn [bind]; discriminate.
Qed.

Lemma be_value_zeros (k : nat) : be_value (repeat x00 k) = 0.
Proof.
  induction k as [|k IH]; [reflexivity|].
  cbn [repeat]. rewrite be_value_cons, IH. reflexivity.
Qed.

Lemma len_repeat {A : Type} (a : A) (k : nat) : len (repeat a k) = Z.of_nat k.
Proof. unfold len. now rewrite repeat_length. Qed.

(** The buffer [80 00 ... 00] reads as the least signed integer of its
    width. *)
Lemma bytes_to_int_reserved (k : nat) :
  bytes_to_int (x80 :: repeat x00 k) true = - 2 ^ (8 * (1 + Z.of_nat k) - 1).
Proof.
  unfold bytes_to_int, int_from_bytes. cbn [andb].
  rewrite be_value_cons, be_value_zeros, len_cons, len_repeat.
  change (byte_to_Z x80) with 128.
  assert (Hp : 0 < 256 ^ Z.of_nat k) by (apply Z.pow_pos_nonneg; lia).
  assert (H1 : 256 ^ (1 + Z.of_nat k) = 256 * 256 ^ Z.of_nat k)
    by (rewrite Z.pow_add_r by lia; reflexivity).
  assert (H2 : 2 ^ (8 * (1 + Z.of_nat k) - 1) = 128 * 256 ^ Z.of_nat k).
  { replace (8 * (1 + Z.of_nat k) - 1) with (7 + 8 * Z.of_nat k) by lia.
    rewrite Z.pow_add_r, <- pow256 by lia. reflexivity. }
  rewrite H1, H2.
  replace (256 * 256 ^ Z.of_nat k <=? 2 * (128 * 256 ^ Z.of_nat k + 0)) with true by lia.
  lia.
Qed.

(** X16. On the symmetric signed domain of an [n]-byte field,
    [(-(2^(8n-1) - 1), 2^(8n-1) - 1)], [bytes_to_float] has no result for
    exactly one buffer of [n] bytes, the reserved pattern [80 00 ... 00],
    and for it nothing is printed; every other buffer lies in the domain. *)
Theorem bytes_to_float_reserved (buf : list byte) (dst_min dst_max : num) :
  1 <= len buf ->
  let h := 2 ^ (8 * len buf - 1) in
  let domain := (Int (- (h - 1)), Int (h - 1)) in
  (outcome (bytes_to_float buf domain (dst_min, dst_max)) = Ret None <->
   buf = x80 :: repeat x00 (length buf - 1)) /\
  (buf = x80 :: repeat x00 (length buf - 1) ->
   bytes_to_float buf domain (dst_min, dst_max) = io_ret None).
Proof.
  intros Hn h domain.
  assert (Hh : 128 <= h).
  { subst h. change 128 with (2 ^ 7). apply Z.pow_le_mono_r; lia. }
  assert (H2h : 256 ^ len buf = 2 * h).
  { rewrite pow256 by lia. subst h.
    set (m := 8 * len buf - 1) in *.
    replace (8 * len buf) with (1 + m) by (subst m; lia).
    rewrite Z.pow_add_r by (subst m; lia). reflexivity. }
  pose proof (bytes_to_int_signed_range buf) as Hr. rewrite H2h in Hr.
  assert (Hmin : num_lt (num_min domain) (Int 0) = true).
  { subst domain. unfold num_min. rewrite !num_lt_int.
    replace (h - 1 <? - (h - 1)) with false by lia. rewrite num_lt_int. lia. }
  assert (Hpat : buf = x80 :: repeat x00 (length buf - 1) <->
                 bytes_to_int buf true = - h).
  { assert (Hk : 1 + Z.of_nat (length buf - 1) = len buf) by (unfold len in *; lia).
    pose proof (bytes_to_int_reserved (length buf - 1)) as Hres.
    rewrite Hk in Hres. fold h in Hres.
    split; [intros E; rewrite E at 1; exact Hres|].
    intros Hv. apply (bytes_to_int_inj _ _ true).
    - rewrite len_cons, len_repeat. lia.
    - now rewrite Hres. }
  assert (Hfloat : bytes_to_float buf domain (dst_min, dst_max)
                   = linear_map (Int (bytes_to_int buf true)) domain (dst_min, dst_max)).
  { unfold bytes_to_float. now rewrite Hmin. }
  rewrite Hfloat, Hpat. subst domain. split.
  - split.
    + intros Hnone.
      destruct (Z.eq_dec (bytes_to_int buf true) (- h)) as [|Hne]; [assumption|].
      exfalso. revert Hnone. apply linear_map_in_domain.
      * rewrite num_lt_int. lia.
      * rewrite num_gt_int. lia.
    + intros Hv. rewrite linear_map_out_of_domain; [reflexivity|].
      left. rewrite num_lt_int. lia.
  - intros Hv. apply linear_map_out_of_domain.
    left. rewrite num_lt_int. lia.
Qed.

Lemma bytes_to_float_reserved_witness :
  1 <= len [x80; x00] /\
  bytes_to_float [x80; x00] (Int (- (2 ^ 15 - 1)), Int (2 ^ 15 - 1)) (Int (-20), Int 20)
  = io_ret None.
Proof.
  split; [cbn; lia|].
  apply (bytes_to_float_reserved [x80; x00] (Int (-20)) (Int 20)); [cbn; lia|].
  reflexivity.
Defined.

(** ** UTF-8 text: the round trips *)

Lemma prepend_inl {A : Type} (a : A) (r : coded (list A)) (l : list A) :
  prepend a r = inl l -> exists t, r = inl t /\ l = a :: t.
Proof.
  destruct r as [t | e]; cbn; [intros [= <-]; eauto | discriminate].
Qed.

Lemma some_eq {A : Type} (a b : A) : Some a = Some b -> a = b.
Proof. congruence. Qed.

Lemma utf8_decode_cons (b0 : byte) (r0 : list byte) :
  utf8_decode (b0 :: r0) =
  let z0 := byte_to_Z b0 in
  if z0 <? 128 then prepend (Z.to_N z0) (utf8_decode r0)
  else if (194 <=? z0) && (z0 <=? 223) then
    match r0 with
    | b1 :: r1 =>
        if continuation b1
        then prepend (Z.to_N ((z0 - 192) * 64 + (byte_to_Z b1 - 128)))
                     (utf8_decode r1)
        else inr UnicodeDecodeError
    | _ => inr UnicodeDecodeError
    end
  else if (224 <=? z0) && (z0 <=? 239) then
    match r0 with
    | b1 :: b2 :: r2 =>
        if second_of_three z0 b1 && continuation b2
        then prepend (Z.to_N ((z0 - 224) * 4096 + (byte_to_Z b1 - 128) * 64
                              + (byte_to_Z b2 - 128)))
                     (utf8_decode r2)
        else inr UnicodeDecodeError
    | _ => inr UnicodeDecodeError
    end
  else if (240 <=? z0) && (z0 <=? 244) then
    match r0 with
    | b1 :: b2 :: b3 :: r3 =>
        if second_of_four z0 b1 && continuation b2 && continuation b3
        then prepend (Z.to_N ((z0 - 240) * 262144 + (byte_to_Z b1 - 128) * 4096
                              + (byte_to_Z b2 - 128) * 64 + (byte_to_Z b3 - 128)))
                     (utf8_decode r3)
        else inr UnicodeDecodeError
    | _ => inr UnicodeDecodeError
    end
  else inr UnicodeDecodeError.
Proof. reflexivity. Qed.

(** One code point, encoded and followed by anything, is read back. *)
Lemma utf8_char_decode (c : char) (bs rest : list byte) :
  utf8_char c = Some bs ->
  utf8_decode (bs ++ rest) = prepend c (utf8_decode rest).
Proof.
  unfold utf8_char. set (z := Z.of_N c).
  assert (Hz : 0 <= z) by (subst z; lia).
  assert (Hc : Z.to_N z = c) by (subst z; apply N2Z.id).
  pose proof (Z.div_mod z 64 ltac:(lia)) as D1.
  pose proof (Z.mod_pos_bound z 64 ltac:(lia)) as M1.
  pose proof (Z.div_mod (z / 64) 64 ltac:(lia)) as D2.
  pose proof (Z.mod_pos_bound (z / 64) 64 ltac:(lia)) as M2.
  pose proof (Z.div_mod (z / 4096) 64 ltac:(lia)) as D3.
  pose proof (Z.mod_pos_bound (z / 4096) 64 ltac:(lia)) as M3.
  assert (Q2 : z / 4096 = z / 64 / 64) by (rewrite Z.div_div by lia; reflexivity).
  assert (Q3 : z / 262144 = z / 4096 / 64) by (rewrite Z.div_div by lia; reflexivity).
  set (q1 := z / 64) in *. set (r1 := z mod 64) in *.
  set (r2 := q1 mod 64) in *. set (q2 := z / 4096) in *.
  set (r3 := q2 mod 64) in *. set (q3 := z / 262144) in *.
  fold (q1 / 64) in D2. fold (q2 / 64) in D3.
  destruct (z <? 128) eqn:E1.
  { intros H; apply some_eq in H; subst bs. rewrite <- !app_comm_cons, app_nil_l, utf8_decode_cons. cbv zeta.
    rewrite byte_to_of_Z by lia. now rewrite E1, Hc. }
  destruct (z <? 2048) eqn:E2.
  { intros H; apply some_eq in H; subst bs. rewrite <- !app_comm_cons, app_nil_l, utf8_decode_cons. cbv zeta.
    unfold continuation. rewrite !byte_to_of_Z by lia.
    replace (192 + q1 <? 128) with false by lia.
    replace ((194 <=? 192 + q1) && (192 + q1 <=? 223)) with true by lia.
    replace ((128 <=? 128 + r1) && (128 + r1 <=? 191)) with true by lia.
    replace ((192 + q1 - 192) * 64 + (128 + r1 - 128)) with z by lia.
    now rewrite Hc. }
  destruct (z <? 65536) eqn:E3.
  { destruct ((55296 <=? z) && (z <=? 57343)) eqn:Es; [discriminate|].
    intros H; apply some_eq in H; subst bs. rewrite <- !app_comm_cons, app_nil_l, utf8_decode_cons. cbv zeta.
    unfold second_of_three, continuation. rewrite !byte_to_of_Z by lia.
    replace (224 + q2 <? 128) with false by lia.
    replace ((194 <=? 224 + q2) && (224 + q2 <=? 223)) with false by lia.
    replace ((224 <=? 224 + q2) && (224 + q2 <=? 239)) with true by lia.
    replace ((if 224 + q2 =? 224
              then (160 <=? 128 + r2) && (128 + r2 <=? 191)
              else if 224 + q2 =? 237
                   then (128 <=? 128 + r2) && (128 + r2 <=? 159)
                   else (128 <=? 128 + r2) && (128 + r2 <=? 191))
             && ((128 <=? 128 + r1) && (128 + r1 <=? 191))) with true
      by (destruct (224 + q2 =? 224) eqn:A; [lia|];
          destruct (224 + q2 =? 237) eqn:B; lia).
    replace ((224 + q2 - 224) * 4096 + (128 + r2 - 128) * 64 + (128 + r1 - 128))
      with z by lia.
    now rewrite Hc. }
  destruct (z <? 1114112) eqn:E4; [|discriminate].
  intros H; apply some_eq in H; subst bs. rewrite <- !app_comm_cons, app_nil_l, utf8_decode_cons. cbv zeta.
  unfold second_of_four, continuation. rewrite !byte_to_of_Z by lia.
  replace (240 + q3 <? 128) with false by lia.
  replace ((194 <=? 240 + q3) && (240 + q3 <=? 223)) with false by lia.
  replace ((224 <=? 240 + q3) && (240 + q3 <=? 239)) with false by lia.
  replace ((240 <=? 240 + q3) && (240 + q3 <=? 244)) with true by lia.
  replace ((if 240 + q3 =? 240
            then (144 <=? 128 + r3) && (128 + r3 <=? 191)
            else if 240 + q3 =? 244
                 then (128 <=? 128 + r3) && (128 + r3 <=? 143)
                 else (128 <=? 128 + r3) && (128 + r3 <=? 191))
           && ((128 <=? 128 + r2) && (128 + r2 <=? 191))
           && ((128 <=? 128 + r1) && (128 + r1 <=? 191))) with true
    by (destruct (240 + q3 =? 240) eqn:A; [lia|];
        destruct (240 + q3 =? 244) eqn:B; lia).
  replace ((240 + q3 - 240) * 262144 + (128 + r3 - 128) * 4096
           + (128 + r2 - 128) * 64 + (128 + r1 - 128)) with z by lia.
  now rewrite Hc.
Qed.

Lemma utf8_char_none (c : char) :
  is_code_point c = true -> (utf8_char c = None <-> is_surrogate c = true).
Proof.
  unfold is_code_point, is_surrogate, in_range, utf8_char. intros Hc.
  destruct (Z.of_N c <? 128) eqn:E1; [split; [discriminate | lia]|].
  destruct (Z.of_N c <? 2048) eqn:E2; [split; [discriminate | lia]|].
  destruct (Z.of_N c <? 65536) eqn:E3.
  - destruct ((55296 <=? Z.of_N c) && (Z.of_N c <=? 57343)) eqn:Es;
      split; try discriminate; try reflexivity; lia.
  - replace (Z.of_N c <? 1114112) with true by lia. split; [discriminate | lia].
Qed.

Lemma utf8_encode_decode (s : str) (bs : list byte) :
  utf8_encode s = inl bs -> utf8_decode bs = inl s.
Proof.
  revert bs. induction s as [|c s IH]; intros bs; cbn [utf8_encode].
  - now intros [= <-].
  - destruct (utf8_char c) as [pre|] eqn:Ec; [|discriminate].
    destruct (utf8_encode s) as [t|]; [|discriminate].
    intros [= <-]. rewrite (utf8_char_decode c pre t Ec), (IH t eq_refl).
    reflexivity.
Qed.

Lemma utf8_encode_error (s : str) (e : unicode_error) :
  utf8_encode s = inr e ->
  e = UnicodeEncodeError /\ exists c, In c s /\ utf8_char c = None.
Proof.
  induction s as [|c s IH]; cbn [utf8_encode]; [discriminate|].
  destruct (utf8_char c) as [pre|] eqn:Ec.
  - destruct (utf8_encode s) as [t|e']; [discriminate|].
    intros [= <-]. destruct (IH eq_refl) as (He & c' & Hin & Hc').
    split; [exact He|]. exists c'. split; [now right | exact Hc'].
  - intros [= <-]. split; [reflexivity|]. exists c. split; [now left | exact Ec].
Qed.

Lemma utf8_encode_ok (s : str) :
  (forall c, In c s -> utf8_char c <> None) -> exists bs, utf8_encode s = inl bs.
Proof.
  induction s as [|c s IH]; intros H; cbn [utf8_encode]; [eauto|].
  destruct (utf8_char c) as [pre|] eqn:Ec; [|now elim (H c (or_introl eq_refl))].
  destruct IH as [t ->]; [intros c' Hc'; apply H; now right|]. eauto.
Qed.

(** X17. For every string, [str_to_bytes] raises [UnicodeEncodeError]
    exactly when the string holds a surrogate code point; otherwise it
    returns bytes, and [bytes_to_str(str_to_bytes(s)) == s]. *)
Theorem str_bytes_roundtrip (s : str) :
  forallb is_code_point s = true ->
  (forall e, str_to_bytes s = inr e ->
             e = UnicodeEncodeError /\ exists c, In c s /\ is_surrogate c = true) /\
  ((forall c, In c s -> is_surrogate c = false) ->
   exists bs, str_to_bytes s = inl bs /\ bytes_to_str bs = inl s) /\
  (forall bs, str_to_bytes s = inl bs -> bytes_to_str bs = inl s).
Proof.
  intros Hs. rewrite forallb_forall in Hs. unfold str_to_bytes, bytes_to_str.
  split; [|split].
  - intros e He. destruct (utf8_encode_error s e He) as (-> & c & Hin & Hc).
    split; [reflexivity|]. exists c. split; [exact Hin|].
    now apply utf8_char_none; [apply Hs|].
  - intros Hn. destruct (utf8_encode_ok s) as [bs Hb].
    + intros c Hin Hc. apply utf8_char_none in Hc; [|now apply Hs].
      rewrite (Hn c Hin) in Hc. discriminate.
    + exists bs. split; [exact Hb | now apply utf8_encode_decode].
  - apply utf8_encode_decode.
Qed.

Lemma str_bytes_roundtrip_witness :
  forallb is_code_point [233; 8364; 128512]%N = true /\
  exists bs, str_to_bytes [233; 8364; 128512]%N = inl bs /\
             bytes_to_str bs = inl [233; 8364; 128512]%N.
Proof.
  split; [reflexivity|].
  apply (str_bytes_roundtrip [233; 8364; 128512]%N eq_refl).
  intros c [<- | [<- | [<- | []]]]; reflexivity.
Defined.

(** What the decoder reads first from a buffer is a code point whose
    encoding is the bytes it has consumed. *)
Lemma utf8_decode_step (b0 : byte) (r0 : list byte) (s : str) :
  utf8_decode (b0 :: r0) = inl s ->
  exists c pre rest t,
    b0 :: r0 = pre ++ rest /\ s = c :: t /\
    utf8_char c = Some pre /\ utf8_decode rest = inl t /\
    (length rest < length (b0 :: r0))%nat.
Proof.
  rewrite utf8_decode_cons. cbv zeta.
  pose proof (byte_to_Z_range b0) as H0.
  destruct (byte_to_Z b0 <? 128) eqn:E1.
  { intros H. apply prepend_inl in H as (t & Ht & ->).
    exists (Z.to_N (byte_to_Z b0)), [b0], r0, t.
    repeat split; try assumption; [|cbn; lia].
    unfold utf8_char. rewrite Z2N.id by lia. now rewrite E1, byte_of_to_Z. }
  destruct ((194 <=? byte_to_Z b0) && (byte_to_Z b0 <=? 223)) eqn:E2.
  { destruct r0 as [|b1 r1]; [discriminate|].
    unfold continuation. pose proof (byte_to_Z_range b1) as H1.
    destruct ((128 <=? byte_to_Z b1) && (byte_to_Z b1 <=? 191)) eqn:C1; [|discriminate].
    intros H. apply prepend_inl in H as (t & Ht & ->).
    set (z := (byte_to_Z b0 - 192) * 64 + (byte_to_Z b1 - 128)).
    exists (Z.to_N z), [b0; b1], r1, t.
    repeat split; try assumption; [|cbn; lia].
    unfold utf8_char. rewrite Z2N.id by (subst z; lia).
    replace (z <? 128) with false by (subst z; lia).
    replace (z <? 2048) with true by (subst z; lia).
    replace (192 + z / 64) with (byte_to_Z b0)
      by (subst z; Z.div_mod_to_equations; lia).
    replace (128 + z mod 64) with (byte_to_Z b1)
      by (subst z; Z.div_mod_to_equations; lia).
    now rewrite !byte_of_to_Z. }
  destruct ((224 <=? byte_to_Z b0) && (byte_to_Z b0 <=? 239)) eqn:E3.
  { destruct r0 as [|b1 [|b2 r2]]; try discriminate.
    unfold second_of_three, continuation.
    pose proof (byte_to_Z_range b1) as H1. pose proof (byte_to_Z_range b2) as H2.
    destruct ((if byte_to_Z b0 =? 224
               then (160 <=? byte_to_Z b1) && (byte_to_Z b1 <=? 191)
               else if byte_to_Z b0 =? 237
                    then (128 <=? byte_to_Z b1) && (byte_to_Z b1 <=? 159)
                    else (128 <=? byte_to_Z b1) && (byte_to_Z b1 <=? 191))
              && ((128 <=? byte_to_Z b2) && (byte_to_Z b2 <=? 191))) eqn:C; [|discriminate].
    intros H. apply prepend_inl in H as (t & Ht & ->).
    set (z := (byte_to_Z b0 - 224) * 4096 + (byte_to_Z b1 - 128) * 64
              + (byte_to_Z b2 - 128)).
    assert (Hb1 : 128 <= byte_to_Z b1 <= 191 /\ 128 <= byte_to_Z b2 <= 191 /\
                  (byte_to_Z b0 = 224 -> 160 <= byte_to_Z b1) /\
                  (byte_to_Z b0 = 237 -> byte_to_Z b1 <= 159)).
    { destruct (byte_to_Z b0 =? 224) eqn:A; [lia|].
      destruct (byte_to_Z b0 =? 237) eqn:B; lia. }
    exists (Z.to_N z), [b0; b1; b2], r2, t.
    repeat split; try assumption; [|cbn; lia].
    unfold utf8_char. rewrite Z2N.id by (subst z; lia).
    replace (z <? 128) with false by (subst z; lia).
    replace (z <? 2048) with false by (subst z; lia).
    replace (z <? 65536) with true by (subst z; lia).
    replace ((55296 <=? z) && (z <=? 57343)) with false by (subst z; lia).
    replace (224 + z / 4096) with (byte_to_Z b0)
      by (subst z; Z.div_mod_to_equations; lia).
    replace (128 + (z / 64) mod 64) with (byte_to_Z b1)
      by (subst z; Z.div_mod_to_equations; lia).
    replace (128 + z mod 64) with (byte_to_Z b2)
      by (subst z; Z.div_mod_to_equations; lia).
    now rewrite !byte_of_to_Z. }
  destruct ((240 <=? byte_to_Z b0) && (byte_to_Z b0 <=? 244)) eqn:E4; [|discriminate].
  destruct r0 as [|b1 [|b2 [|b3 r3]]]; try discriminate.
  unfold second_of_four, continuation.
  pose proof (byte_to_Z_range b1) as H1. pose proof (byte_to_Z_range b2) as H2.
  pose proof (byte_to_Z_range b3) as H3.
  destruct ((if byte_to_Z b0 =? 240
             then (144 <=? byte_to_Z b1) && (byte_to_Z b1 <=? 191)
             else if byte_to_Z b0 =? 244
                  then (128 <=? byte_to_Z b1) && (byte_to_Z b1 <=? 143)
                  else (128 <=? byte_to_Z b1) && (byte_to_Z b1 <=? 191))
            && ((128 <=? byte_to_Z b2) && (byte_to_Z b2 <=? 191))
            && ((128 <=? byte_to_Z b3) && (byte_to_Z b3 <=? 191))) eqn:C; [|discriminate].
  intros H. apply prepend_inl in H as (t & Ht & ->).
  set (z := (byte_to_Z b0 - 240) * 262144 + (byte_to_Z b1 - 128) * 4096
            + (byte_to_Z b2 - 128) * 64 + (byte_to_Z b3 - 128)).
  assert (Hb1 : 128 <= byte_to_Z b1 <= 191 /\ 128 <= byte_to_Z b2 <= 191 /\
                128 <= byte_to_Z b3 <= 191 /\
                (byte_to_Z b0 = 240 -> 144 <= byte_to_Z b1) /\
                (byte_to_Z b0 = 244 -> byte_to_Z b1 <= 143)).
  { destruct (byte_to_Z b0 =? 240) eqn:A; [lia|].
    destruct (byte_to_Z b0 =? 244) eqn:B; lia. }
  exists (Z.to_N z), [b0; b1; b2; b3], r3, t.
  repeat split; try assumption; [|cbn; lia].
  unfold utf8_char. rewrite Z2N.id by (subst z; lia).
  replace (z <? 128) with false by (subst z; lia).
  replace (z <? 2048) with false by (subst z; lia).
  replace (z <? 65536) with false by (subst z; lia).
  replace (z <? 1114112) with true by (subst z; lia).
  replace (240 + z / 262144) with (byte_to_Z b0)
    by (subst z; Z.div_mod_to_equations; lia).
  replace (128 + (z / 4096) mod 64) with (byte_to_Z b1)
    by (subst z; Z.div_mod_to_equations; lia).
  replace (128 + (z / 64) mod 64) with (byte_to_Z b2)
    by (subst z; Z.div_mod_to_equations; lia).
  replace (128 + z mod 64) with (byte_to_Z b3)
    by (subst z; Z.div_mod_to_equations; lia).
  now rewrite !byte_of_to_Z.
Qed.

Lemma utf8_decode_encode (n : nat) :
  forall (bs : list byte) (s : str),
    (length bs < n)%nat -> utf8_decode bs = inl s -> utf8_encode s = inl bs.
Proof.
  induction n as [|n IH]; intros bs s Hn; [lia|].
  destruct bs as [|b0 r0].
  - now intros [= <-].
  - intros H.
    destruct (utf8_decode_step b0 r0 s H) as (c & pre & rest & t & E & -> & Hc & Ht & Hl).
    rewrite E. cbn [utf8_encode]. rewrite Hc.
    rewrite (IH rest t ltac:(lia) Ht). reflexivity.
Qed.

Lemma utf8_decode_code_points (n : nat) :
  forall (bs : list byte) (s : str),
    (length bs < n)%nat -> utf8_decode bs = inl s ->
    forall c, In c s -> utf8_char c <> None.
Proof.
  induction n as [|n IH]; intros bs s Hn; [lia|].
  destruct bs as [|b0 r0].
  - intros [= <-] c [].
  - intros H.
    destruct (utf8_decode_step b0 r0 s H) as (c & pre & rest & t & E & -> & Hc & Ht & Hl).
    intros c' [<- | Hin]; [congruence|].
    apply (IH rest t ltac:(lia) Ht c' Hin).
Qed.

Lemma utf8_char_some (c : char) (bs : list byte) :
  utf8_char c = Some bs -> is_code_point c = true /\ is_surrogate c = false.
Proof.
  unfold is_code_point, is_surrogate, in_range, utf8_char.
  destruct (Z.of_N c <? 128) eqn:E1; [lia|].
  destruct (Z.of_N c <? 2048) eqn:E2; [lia|].
  destruct (Z.of_N c <? 65536) eqn:E3.
  - destruct ((55296 <=? Z.of_N c) && (Z.of_N c <=? 57343)) eqn:Es; [discriminate | lia].
  - destruct (Z.of_N c <? 1114112) eqn:E4; [lia | discriminate].
Qed.

(** X18. Whenever [bytes_to_str] returns a string for a buffer,
    [str_to_bytes] returns that buffer for the string: strict decoding
    accepts one encoding of each string only, so no overlong form and no
    encoded surrogate passes; the string holds code points up to
    [0x10FFFF] and no surrogate. *)
Theorem bytes_str_roundtrip (b : list byte) (s : str) :
  bytes_to_str b = inl s ->
  str_to_bytes s = inl b /\
  forall c, In c s -> is_code_point c = true /\ is_surrogate c = false.
Proof.
  unfold bytes_to_str, str_to_bytes. intros H. split.
  - apply (utf8_decode_encode (S (length b)) b s); [lia | exact H].
  - intros c Hin.
    pose proof (utf8_decode_code_points (S (length b)) b s ltac:(lia) H c Hin) as Hc.
    destruct (utf8_char c) as [bs|] eqn:E; [|congruence].
    now apply (utf8_char_some c bs).
Qed.

Lemma bytes_str_roundtrip_witness :
  bytes_to_str [xe2; x82; xac; x41] = inl [8364; 65]%N /\
  str_to_bytes [8364; 65]%N = inl [xe2; x82; xac; x41].
Proof.
  split; [reflexivity|].
  apply (bytes_str_roundtrip [xe2; x82; xac; x41] [8364; 65]%N). reflexivity.
Defined.

(** The bytes of an encoded code point are never [C0], [C1] or [F5] to
    [FF]. *)
Lemma utf8_char_bytes (c : char) (pre : list byte) :
  utf8_char c = Some pre ->
  forall x, In x pre ->
    byte_to_Z x <> 192 /\ byte_to_Z x <> 193 /\ byte_to_Z x < 245.
Proof.
  unfold utf8_char. set (z := Z.of_N c).
  assert (Hz : 0 <= z) by (subst z; lia).
  destruct (z <? 128) eqn:E1.
  { intros H. apply some_eq in H. subst pre. intros x [<- | []].
    rewrite byte_to_of_Z by lia. lia. }
  destruct (z <? 2048) eqn:E2.
  { intros H. apply some_eq in H. subst pre.
    intros x [<- | [<- | []]];
      rewrite byte_to_of_Z by (Z.div_mod_to_equations; lia);
      Z.div_mod_to_equations; lia. }
  destruct (z <? 65536) eqn:E3.
  { destruct ((55296 <=? z) && (z <=? 57343)); [discriminate|].
    intros H. apply some_eq in H. subst pre.
    intros x [<- | [<- | [<- | []]]];
      rewrite byte_to_of_Z by (Z.div_mod_to_equations; lia);
      Z.div_mod_to_equations; lia. }
  destruct (z <? 1114112) eqn:E4; [|discriminate].
  intros H. apply some_eq in H. subst pre.
  intros x [<- | [<- | [<- | [<- | []]]]];
    rewrite byte_to_of_Z by (Z.div_mod_to_equations; lia);
    Z.div_mod_to_equations; lia.
Qed.

Lemma prepend_inr {A : Type} (a : A) (r : coded (list A)) (e : unicode_error) :
  prepend a r = inr e -> r = inr e.
Proof. destruct r; [discriminate | exact (fun H => H)]. Qed.

(** The decoder raises no other error than [UnicodeDecodeError]. *)
Lemma utf8_decode_error (n : nat) :
  forall (bs : list byte) (e : unicode_error),
    (length bs < n)%nat -> utf8_decode bs = inr e -> e = UnicodeDecodeError.
Proof.
  induction n as [|n IH]; intros bs e Hn; [lia|].
  destruct bs as [|b0 r0]; [discriminate|].
  rewrite utf8_decode_cons. cbv zeta. cbn [length] in Hn.
  destruct (byte_to_Z b0 <? 128).
  { intros H. apply prepend_inr in H. apply (IH r0 e); [lia | exact H]. }
  destruct ((194 <=? byte_to_Z b0) && (byte_to_Z b0 <=? 223)).
  { destruct r0 as [|b1 r1]; [congruence|].
    destruct (continuation b1); [|congruence].
    intros H. apply prepend_inr in H. apply (IH r1 e); [cbn [length] in Hn; lia | exact H]. }
  destruct ((224 <=? byte_to_Z b0) && (byte_to_Z b0 <=? 239)).
  { destruct r0 as [|b1 [|b2 r2]]; try congruence.
    destruct (second_of_three (byte_to_Z b0) b1 && continuation b2); [|congruence].
    intros H. apply prepend_inr in H. apply (IH r2 e); [cbn [length] in Hn; lia | exact H]. }
  destruct ((240 <=? byte_to_Z b0) && (byte_to_Z b0 <=? 244)); [|congruence].
  destruct r0 as [|b1 [|b2 [|b3 r3]]]; try congruence.
  destruct (second_of_four (byte_to_Z b0) b1 && continuation b2 && continuation b3);
    [|congruence].
  intros H. apply prepend_inr in H. apply (IH r3 e); [cbn [length] in Hn; lia | exact H].
Qed.

(** A buffer that decodes holds none of the bytes that no encoding holds. *)
Lemma utf8_decode_bytes (x : byte) (n : nat) :
  forall (bs : list byte) (s : str),
    (length bs < n)%nat -> utf8_decode bs = inl s -> In x bs ->
    byte_to_Z x <> 192 /\ byte_to_Z x <> 193 /\ byte_to_Z x < 245.
Proof.
  induction n as [|n IH]; intros bs s Hn; [lia|].
  destruct bs as [|b0 r0]; [intros _ []|].
  intros H.
  destruct (utf8_decode_step b0 r0 s H) as (c & pre & rest & t & E & -> & Hc & Ht & Hl).
  rewrite E. intros Hin. apply in_app_or in Hin as [Hpre | Hrest].
  - exact (utf8_char_bytes c pre Hc x Hpre).
  - exact (IH rest t ltac:(lia) Ht Hrest).
Qed.

(** X19. [bytes_to_str] raises [UnicodeDecodeError], and nothing else, on
    every buffer that holds somewhere a byte [C0], [C1] or [F5] to [FF]:
    no well-formed UTF-8 sequence contains one. *)
Theorem bytes_to_str_invalid_byte (b : list byte) (x : byte) :
  In x b ->
  byte_to_Z x = 192 \/ byte_to_Z x = 193 \/ 245 <= byte_to_Z x ->
  bytes_to_str b = inr UnicodeDecodeError.
Proof.
  intros Hin Hx. unfold bytes_to_str.
  destruct (utf8_decode b) as [s | e] eqn:E.
  - pose proof (utf8_decode_bytes x (S (length b)) b s ltac:(lia) E Hin). lia.
  - f_equal. apply (utf8_decode_error (S (length b)) b e); [lia | exact E].
Qed.

Lemma bytes_to_str_invalid_byte_witness :
  bytes_to_str [x41; xff; x42] = inr UnicodeDecodeError.
Proof.
  apply (bytes_to_str_invalid_byte [x41; xff; x42] xff).
  - simpl. right. left. reflexivity.
  - right. right. vm_compute. discriminate.
Defined.

(** ** Whole seconds: the round trip *)

(** X20. An instant at or after the epoch with no microseconds survives
    the round trip: [datetime_to_bytes] returns 8 bytes that hold its
    microseconds since the epoch, and [bytes_to_datetime] reads them back
    as the same instant. *)
Theorem datetime_roundtrip_whole_seconds (t : datetime) :
  is_datetime t -> 0 <= t -> t mod 1000000 = 0 ->
  exists bs,
    datetime_to_bytes t = Ret bs /\
    len bs = 8 /\
    bytes_to_int bs false = t /\
    bytes_to_datetime bs = Ret t.
Proof.
  intros Ht H0 Hmod.
  destruct (whole_seconds t Ht H0 Hmod) as (k & -> & Hk).
  destruct (datetime_to_bytes_micros _ _ (float_micros_seconds k Hk)) as [H _].
  destruct H as (bs & Hb & Hl & Hv & _).
  { split; [lia|]. apply Z.lt_trans with (253402300800 * 1000000); [lia | reflexivity]. }
  exists bs. repeat split; try assumption.
  apply (bytes_to_datetime_seconds k bs Hk Hv).
Qed.

Lemma datetime_roundtrip_whole_seconds_witness :
  exists bs,
    datetime_to_bytes 1577836800000000 = Ret bs /\
    len bs = 8 /\
    bytes_to_int bs false = 1577836800000000 /\
    bytes_to_datetime bs = Ret 1577836800000000.
Proof.
  apply (datetime_roundtrip_whole_seconds 1577836800000000).
  - unfold is_datetime, datetime_min, datetime_max. lia.
  - lia.
  - reflexivity.
Defined.

(** X21. [bytes_to_datetime] reads a buffer of any length whose unsigned
    value is a whole number of seconds in microseconds, up to the last
    second of the year 9999, as exactly that instant. *)
Theorem bytes_to_datetime_whole_seconds (buf : list byte) (t : datetime) :
  bytes_to_int buf false = t ->
  is_datetime t -> t mod 1000000 = 0 ->
  bytes_to_datetime buf = Ret t.
Proof.
  intros Hv Ht Hmod.
  assert (H0 : 0 <= t).
  { rewrite <- Hv. unfold bytes_to_int, int_from_bytes. cbn [andb].
    pose proof (be_value_range buf). lia. }
  destruct (whole_seconds t Ht H0 Hmod) as (k & -> & Hk).
  apply (bytes_to_datetime_seconds k buf Hk Hv).
Qed.

Lemma bytes_to_datetime_whole_seconds_witness :
  bytes_to_datetime [x0f; x42; x40] = Ret 1000000.
Proof.
  apply (bytes_to_datetime_whole_seconds [x0f; x42; x40] 1000000).
  - reflexivity.
  - unfold is_datetime, datetime_min, datetime_max. lia.
  - reflexivity.
Defined.

(** ** Microseconds: reading without loss *)

(** X22. [bytes_to_datetime] reads a buffer of any length whose unsigned
    value is below [2^51] as exactly that many microseconds after the
    epoch: up to the year 2041 the division by [1e6] and the rounding of
    [fromtimestamp] lose nothing. *)
Theorem bytes_to_datetime_exact (buf : list byte) :
  bytes_to_int buf false < 2 ^ 51 ->
  bytes_to_datetime buf = Ret (bytes_to_int buf false).
Proof.
  intros Hlt. apply bytes_to_datetime_micros; [|reflexivity].
  split; [|exact Hlt].
  unfold bytes_to_int, int_from_bytes. cbn [andb].
  pose proof (be_value_range buf). lia.
Qed.

Lemma bytes_to_datetime_exact_witness :
  bytes_to_datetime [x00; x03; xe8; x71; xb9; xad; xab; x01]
  = Ret 1100000074246913.
Proof.
  apply (bytes_to_datetime_exact [x00; x03; xe8; x71; xb9; xad; xab; x01]).
  reflexivity.
Defined.
